(** * Motion-canvas core: the Scene time-event ledger, the scheduler step
      and layout loop of [Scene], and the [Stage] compositor.

    A shallow embedding of [Scene.ts] and [Stage.ts].

    - A JavaScript [number] is an IEEE 754 binary64 value, which is what
      Rocq's primitive [float] is: [+], [-], [<=] and [===] on numbers are
      [PrimFloat.add], [PrimFloat.sub], [PrimFloat.leb] and [PrimFloat.eqb]
      (so [NaN === NaN] is false and [0 === -0] is true, as in the source).
    - A [Record<string, TimeEvent>] is a plain object: the entries it
      stores (a [gmap string TimeEvent]) together with what it inherits.
      A lookup [lookup[name]] that finds no stored entry goes on to the
      prototype, which is [Object.prototype] unless an assignment to
      [__proto__] has put an event there.  The order in which
      [Object.values] enumerates the entries is not modelled.
    - Every operation passes the state explicitly; what an operation sends
      to the outside (event dispatches, console output, drawing calls) is
      appended to a log kept in the state. *)

From Stdlib Require Import Floats ZArith Bool.
From stdpp Require Import gmap strings list pretty.

(** ** JavaScript numbers *)

Module JS.

(** [Math.max(a, b)]: NaN if either argument is NaN; [+0] is larger than
    [-0]. *)
Definition Math_max (a b : float) : float :=
  if (PrimFloat.is_nan a || PrimFloat.is_nan b)%bool then PrimFloat.nan
  else if (a <? b)%float then b
  else if (b <? a)%float then a
  else if PrimFloat.get_sign a then b else a.

(** [Math.ceil(x)].  Below 2^52 in magnitude, adding and subtracting 2^52
    rounds to the nearest integer, which is then moved up when it fell
    below [x]; from 2^52 on every binary64 value is an integer. *)
Definition Math_ceil (x : float) : float :=
  if PrimFloat.is_nan x then x
  else if (0x1p52 <=? PrimFloat.abs x)%float then x
  else
    let r := if (x <? 0)%float
             then (- ((- x + 0x1p52) - 0x1p52))%float
             else ((x + 0x1p52) - 0x1p52)%float in
    let c := if (r <? x)%float then (r + 1)%float else r in
    if (PrimFloat.is_zero c && PrimFloat.get_sign x)%bool
    then (-0)%float else c.

(** A number that is equal to itself under [===], i.e. not NaN. *)
Definition self_equal (x : float) : bool := (x =? x)%float.

(** What arithmetic makes of a field that holds a number or is
    [undefined] ([None]): [undefined] counts as NaN. *)
Definition ToNumber (v : option float) : float := default PrimFloat.nan v.

(** [v === x] for a field [v] and a number [x]: [undefined] is not [===]
    to any number. *)
Definition strict_equal (v : option float) (x : float) : bool :=
  match v with
  | Some y => (y =? x)%float
  | None => false
  end.

End JS.

(** The names every plain object inherits from [Object.prototype]. *)
Definition Object_prototype_has (key : string) : bool :=
  bool_decide (key ∈ ["constructor"; "hasOwnProperty"; "isPrototypeOf";
                      "propertyIsEnumerable"; "toLocaleString"; "toString";
                      "valueOf"; "__proto__"; "__defineGetter__";
                      "__defineSetter__"; "__lookupGetter__";
                      "__lookupSetter__"]).

(** ** Data model of [Scene.ts] *)

Inductive SceneState := Initial | AfterTransitionIn | CanTransitionOut | Finished.

(** An event object.  The interface [TimeEvent] has four fields, but an
    object made by spreading something that is not an event lacks some of
    them: [None] is a field the object does not have (reading it gives
    [undefined]).  A field of a record read from JSON that is not a
    number ([null], the JSON text of NaN and of the infinities) is a
    field left out as well: the code reads the fields of a stored
    record through [?.] and [??] only, which take [null] and [undefined]
    for the same. *)
Record TimeEvent := mkTimeEvent {
  name : option string;
  initialTime : option float;
  targetTime : option float;
  offset : option float
}.

(** An event with all its fields. *)
Definition timeEvent (n : string) (i t o : float) : TimeEvent :=
  mkTimeEvent (Some n) (Some i) (Some t) (Some o).

Definition set_initialTime (v : option float) (e : TimeEvent) : TimeEvent :=
  mkTimeEvent (name e) v (targetTime e) (offset e).
Definition set_targetTime (v : option float) (e : TimeEvent) : TimeEvent :=
  mkTimeEvent (name e) (initialTime e) v (offset e).
Definition set_offset (v : option float) (e : TimeEvent) : TimeEvent :=
  mkTimeEvent (name e) (initialTime e) (targetTime e) v.

(** What a lookup [lookup[name]] can find: nothing, an event, a method of
    [Object.prototype] or [Object.prototype] itself (which the code cannot
    tell apart: neither has a field the code reads nor an enumerable
    property), or, through a prototype that is an event, one of that
    event's fields. *)
Inductive Found :=
| FUndefined
| FNumber (v : float)
| FString (s : string)
| FEvent (e : TimeEvent)
| FBuiltin.

(** Truthiness: [0], [-0], NaN, the empty string and [undefined] are
    falsy. *)
Definition truthy (v : Found) : bool :=
  match v with
  | FUndefined => false
  | FNumber x => negb (PrimFloat.is_zero x || PrimFloat.is_nan x)
  | FString s => negb (String.eqb s EmptyString)
  | FEvent _ | FBuiltin => true
  end.

(** [found.field] for one of the numeric fields of an event ([found?.field]
    where [found] can be [undefined]): only an event has it. *)
Definition field (f : TimeEvent -> option float) (v : Found) : option float :=
  match v with
  | FEvent e => f e
  | _ => None
  end.

(** [{...found}], as far as the four fields go: an event gives its
    fields, a function, [Object.prototype] and a number have no
    enumerable property of their own.  (A string would give its
    characters under the indices, which are none of the four fields;
    the code never spreads one, see [reachable_no_string].) *)
Definition spread (v : Found) : TimeEvent :=
  match v with
  | FEvent e => e
  | _ => mkTimeEvent None None None None
  end.

(** A plain object used as a lookup: its own entries, and its prototype
    when that is an event ([None]: [Object.prototype]). *)
Record EventLookup := mkEventLookup {
  own : gmap string TimeEvent;
  proto : option TimeEvent
}.

Definition emptyLookup : EventLookup := mkEventLookup ∅ None.

(** What a scene reads from its [Project]: the name and the current frame.
    [Project.ts] itself is not part of the sources; its two conversion
    methods are the variables of section [Ledger]. *)
Record Project := mkProject {
  projectName : string;
  frame : float
}.

(** The fields of [class Scene] that the time-event ledger uses.  The last
    field logs every payload handed to [timeEventsChanged.dispatch], oldest
    first; dispatching calls the listeners at once, so the log is what the
    listeners have been told. *)
Record Scene := mkScene {
  sceneName : string;
  project : Project;
  runnerFactory : string;
  firstFrame : float;
  transitionDuration : float;
  duration : float;
  storageKey : string;
  timeEventLookup : EventLookup;
  storedEventLookup : EventLookup;
  state : SceneState;
  cached : bool;
  preserveEvents : bool;
  timeEventsChanged : list (list TimeEvent)
}.

Definition set_project (v : Project) (s : Scene) : Scene :=
  mkScene (sceneName s) v (runnerFactory s) (firstFrame s)
    (transitionDuration s) (duration s) (storageKey s) (timeEventLookup s)
    (storedEventLookup s) (state s) (cached s) (preserveEvents s)
    (timeEventsChanged s).
Definition set_runnerFactory (v : string) (s : Scene) : Scene :=
  mkScene (sceneName s) (project s) v (firstFrame s)
    (transitionDuration s) (duration s) (storageKey s) (timeEventLookup s)
    (storedEventLookup s) (state s) (cached s) (preserveEvents s)
    (timeEventsChanged s).
Definition set_firstFrame (v : float) (s : Scene) : Scene :=
  mkScene (sceneName s) (project s) (runnerFactory s) v
    (transitionDuration s) (duration s) (storageKey s) (timeEventLookup s)
    (storedEventLookup s) (state s) (cached s) (preserveEvents s)
    (timeEventsChanged s).
Definition set_duration (v : float) (s : Scene) : Scene :=
  mkScene (sceneName s) (project s) (runnerFactory s) (firstFrame s)
    (transitionDuration s) v (storageKey s) (timeEventLookup s)
    (storedEventLookup s) (state s) (cached s) (preserveEvents s)
    (timeEventsChanged s).
Definition set_timeEventLookup (v : EventLookup) (s : Scene) : Scene :=
  mkScene (sceneName s) (project s) (runnerFactory s) (firstFrame s)
    (transitionDuration s) (duration s) (storageKey s) v
    (storedEventLookup s) (state s) (cached s) (preserveEvents s)
    (timeEventsChanged s).
Definition set_storedEventLookup (v : EventLookup) (s : Scene) : Scene :=
  mkScene (sceneName s) (project s) (runnerFactory s) (firstFrame s)
    (transitionDuration s) (duration s) (storageKey s) (timeEventLookup s)
    v (state s) (cached s) (preserveEvents s)
    (timeEventsChanged s).
Definition set_cached (v : bool) (s : Scene) : Scene :=
  mkScene (sceneName s) (project s) (runnerFactory s) (firstFrame s)
    (transitionDuration s) (duration s) (storageKey s) (timeEventLookup s)
    (storedEventLookup s) (state s) v (preserveEvents s)
    (timeEventsChanged s).
Definition set_preserveEvents (v : bool) (s : Scene) : Scene :=
  mkScene (sceneName s) (project s) (runnerFactory s) (firstFrame s)
    (transitionDuration s) (duration s) (storageKey s) (timeEventLookup s)
    (storedEventLookup s) (state s) (cached s) v
    (timeEventsChanged s).

(** [get timeEvents()]: [Object.values(this.timeEventLookup)], the values
    of the entries the object stores itself. *)
Definition timeEvents (s : Scene) : list TimeEvent :=
  (map_to_list (own (timeEventLookup s))).*2.

(** [this.timeEventsChanged.dispatch(payload)]. *)
Definition dispatch (payload : list TimeEvent) (s : Scene) : Scene :=
  mkScene (sceneName s) (project s) (runnerFactory s) (firstFrame s)
    (transitionDuration s) (duration s) (storageKey s) (timeEventLookup s)
    (storedEventLookup s) (state s) (cached s) (preserveEvents s)
    (timeEventsChanged s ++ [payload]).

(** The project moves to another frame (the scene only holds a reference
    to the project, whose [frame] others advance). *)
Definition set_frame (f : float) (s : Scene) : Scene :=
  set_project (mkProject (projectName (project s)) f) s.

(** ** The durable timing store and the project

    What the scene uses but the sources do not hold is a variable of
    section [Ledger]:
    - [inherited], the names [Object.prototype] has a property for (in a
      plain runtime those of [Object_prototype_has]);
    - [project.framesToSeconds] and [project.secondsToFrames];
    - [JSON.stringify], from the entries of a lookup to a text, and
      [JSON.parse] of a text, given by the entries (key and value) of the
      object it yields.  A text that is not JSON would make [JSON.parse]
      throw; the texts under a scene's key are taken to be JSON for
      objects whose values are event records with a name that is a string
      or left out.
    [localStorage] maps a key to a text. *)

Section Ledger.

Variable inherited : string -> bool.
Variable framesToSeconds : float -> float.
Variable secondsToFrames : float -> float.

Context {Text : Type}.
Variable JSON_stringify : gmap string TimeEvent -> Text.
Variable JSON_parse : Text -> list (string * TimeEvent).

(** ** Reading and writing a property of a lookup *)

(** The property [key] of an event that is a prototype. *)
Definition ownField (p : TimeEvent) (key : string) : option Found :=
  if String.eqb key "name" then FString <$> name p
  else if String.eqb key "initialTime" then FNumber <$> initialTime p
  else if String.eqb key "targetTime" then FNumber <$> targetTime p
  else if String.eqb key "offset" then FNumber <$> offset p
  else None.

(** What [Object.prototype] gives for [key] to an object whose prototype
    is [proto]: its methods, and for [__proto__] (an accessor) the
    prototype of the object. *)
Definition fromObjectPrototype (proto : option TimeEvent) (key : string) : Found :=
  if inherited key then
    if String.eqb key "__proto__" then
      match proto with
      | Some p => FEvent p
      | None => FBuiltin
      end
    else FBuiltin
  else FUndefined.

(** [lookup[key]]. *)
Definition get (lookup : EventLookup) (key : string) : Found :=
  match own lookup !! key with
  | Some e => FEvent e
  | None =>
      match proto lookup with
      | Some p =>
          match ownField p key with
          | Some v => v
          | None => fromObjectPrototype (Some p) key
          end
      | None => fromObjectPrototype None key
      end
  end.

(** [lookup[key] = event].  An entry the object stores is overwritten;
    otherwise [__proto__] (when inherited) is the accessor whose setter
    makes [event] the prototype, and every other key becomes an entry of
    the object (the properties it may inherit under that key are
    writable). *)
Definition assign (lookup : EventLookup) (key : string) (event : TimeEvent)
    : EventLookup :=
  match own lookup !! key with
  | Some _ => mkEventLookup (<[key := event]> (own lookup)) (proto lookup)
  | None =>
      if (inherited key && String.eqb key "__proto__")%bool
      then mkEventLookup (own lookup) (Some event)
      else mkEventLookup (<[key := event]> (own lookup)) (proto lookup)
  end.

(** Whether [lookup[key] = event] replaces the prototype rather than
    making or overwriting an entry. *)
Definition replacesProto (lookup : EventLookup) (key : string) : bool :=
  match own lookup !! key with
  | Some _ => false
  | None => inherited key && String.eqb key "__proto__"
  end.

(** The property key [event.name] stands for: [undefined] becomes the
    text of that word. *)
Definition propertyKey (n : option string) : string := default "undefined" n.

Definition Object_values (o : list (string * TimeEvent)) : list TimeEvent := o.*2.

Definition getItem (key : string) (ls : gmap string Text) : option Text := ls !! key.
Definition setItem (key : string) (t : Text) (ls : gmap string Text) : gmap string Text :=
  <[key := t]> ls.

(** ** Construction, [markAsCached], [reload] *)

(** The constructor.  [runnerName] is [runnerFactory.name] and [config]
    the [name] entry of the [config] argument, which overrides it
    ([{name: runnerFactory.name, ...config}]). *)
Definition Scene_new (p : Project) (runnerName : string) (config : option string)
    (ls : gmap string Text) : Scene :=
  let nm := default runnerName config in
  let key := "scene-" +:+ projectName p +:+ "-" +:+ nm in
  let stored :=
    match getItem key ls with
    | Some storedEvents =>
        foldl (fun lookup event => assign lookup (propertyKey (name event)) event)
              emptyLookup (Object_values (JSON_parse storedEvents))
    | None => emptyLookup
    end in
  mkScene nm p runnerName 0 0 0 key emptyLookup stored Initial false false [].

(** [markAsCached()]; [JSON.stringify] sees the entries the object stores
    itself. *)
Definition markAsCached (s : Scene) (ls : gmap string Text) : Scene * gmap string Text :=
  (set_preserveEvents false (set_cached true s),
   setItem (storageKey s) (JSON_stringify (own (storedEventLookup s))) ls).

Definition isMarkedAsCached (s : Scene) : bool := cached s.

(** [reload(runnerFactory?)]; [{...stored, ...live}] is a new plain
    object with the entries of both, in which the live entries win, as in
    the left-biased union. *)
Definition reload (newRunner : option string) (s : Scene) : Scene :=
  let s := match newRunner with
           | Some r => set_runnerFactory r s
           | None => s
           end in
  let s := set_cached false s in
  let s := set_storedEventLookup
             (mkEventLookup (own (timeEventLookup s) ∪ own (storedEventLookup s)) None) s in
  let s := set_timeEventLookup emptyLookup s in
  dispatch [] s.

(** ** [getFrameEvent] and [setFrameEvent] *)

(** The [initialTime] a call of [getFrameEvent] computes. *)
Definition currentTime (s : Scene) : float :=
  framesToSeconds (frame (project s) - firstFrame s)%float.

(** The two ways an event is brought in line with its [initialTime]. *)
Definition resync (preserve : bool) (event : TimeEvent) : TimeEvent :=
  if preserve
  then set_targetTime
         (Some (JS.ToNumber (initialTime event) + JS.ToNumber (offset event))%float)
         event
  else set_offset
         (Some (JS.Math_max 0
                  (JS.ToNumber (targetTime event) - JS.ToNumber (initialTime event))%float))
         event.

(** The state change of [getFrameEvent(name)]. *)
Definition getFrameEvent_update (nm : string) (s : Scene) : Scene :=
  let initialTime' := currentTime s in
  match get (timeEventLookup s) nm with
  | FUndefined =>
      let stored := get (storedEventLookup s) nm in
      let event :=
        mkTimeEvent (Some nm) (Some initialTime')
          (Some (default initialTime' (field targetTime stored)))
          (Some (default 0%float (field offset stored))) in
      let event :=
        if truthy stored then resync (preserveEvents s) event else event in
      let s := set_timeEventLookup (assign (timeEventLookup s) nm event) s in
      dispatch (timeEvents s) s
  | found =>
      if negb (JS.strict_equal (field initialTime found) initialTime') then
        let event := set_initialTime (Some initialTime') (spread found) in
        let event := resync (preserveEvents s) event in
        let s := set_timeEventLookup (assign (timeEventLookup s) nm event) s in
        let s := set_storedEventLookup (assign (storedEventLookup s) nm event) s in
        dispatch (timeEvents s) s
      else s
  end.

(** [getFrameEvent(name)]: the returned frame and the state after the
    call.  [None] stands for the [TypeError] of reading a field of
    [undefined] in the [return]. *)
Definition getFrameEvent (nm : string) (s : Scene) : option float * Scene :=
  let s := getFrameEvent_update nm s in
  (match get (timeEventLookup s) nm with
   | FUndefined => None
   | found =>
       Some (firstFrame s
             + secondsToFrames (JS.ToNumber (field initialTime found)
                                + JS.ToNumber (field offset found)))%float
   end, s).

(** [setFrameEvent(name, offset, preserve = true)]; [preserve] is [None]
    when the caller leaves it out. *)
Definition setFrameEvent (nm : string) (offset' : float) (preserve : option bool)
    (s : Scene) : Scene :=
  let preserve := default true preserve in
  let found := get (timeEventLookup s) nm in
  if (negb (truthy found) || JS.strict_equal (field offset found) offset')%bool then s
  else
    let s' := set_cached false s in
    let s' := set_preserveEvents preserve s' in
    let event :=
      set_offset (Some offset')
        (set_targetTime (Some (JS.ToNumber (field initialTime found) + offset')%float)
           (spread found)) in
    let s' := set_timeEventLookup (assign (timeEventLookup s) nm event) s' in
    let s' := set_storedEventLookup (assign (storedEventLookup s) nm event) s' in
    dispatch (timeEvents s') s'.

(** The scenes that the constructor and the operations on the ledger can
    produce; the frame of the project and the public fields [firstFrame]
    and [duration] can be set from outside. *)
Inductive reachable : Scene -> Prop :=
| reachable_new p runnerName config ls :
    reachable (Scene_new p runnerName config ls)
| reachable_getFrameEvent nm s :
    reachable s -> reachable (getFrameEvent nm s).2
| reachable_setFrameEvent nm offset' preserve s :
    reachable s -> reachable (setFrameEvent nm offset' preserve s)
| reachable_markAsCached s ls :
    reachable s -> reachable (markAsCached s ls).1
| reachable_reload newRunner s :
    reachable s -> reachable (reload newRunner s)
| reachable_frame f s :
    reachable s -> reachable (set_frame f s)
| reachable_firstFrame f s :
    reachable s -> reachable (set_firstFrame f s)
| reachable_duration f s :
    reachable s -> reachable (set_duration f s).

End Ledger.

(** Every record of a lookup sits under the key its name stands for, as
    the constructor files it. *)
Definition keyed (m : gmap string TimeEvent) : Prop :=
  ∀ k e, m !! k = Some e → propertyKey (name e) = k.

(** Every record of a lookup that has a name sits under that name. *)
Definition namesKeyed (m : gmap string TimeEvent) : Prop :=
  ∀ k e n, m !! k = Some e → name e = Some n → n = k.

(** What holds of every scene the code can produce: the storage key is
    the one the constructor made from the two names; the named records of
    both ledgers sit under their names; an event that has become the
    prototype of the live ledger has no name; and where [__proto__] is
    inherited no ledger has an entry under it. *)
Definition wellFormed (inherited : string -> bool) (s : Scene) : Prop :=
  storageKey s = "scene-" +:+ projectName (project s) +:+ "-" +:+ sceneName s
  ∧ namesKeyed (own (timeEventLookup s))
  ∧ namesKeyed (own (storedEventLookup s))
  ∧ (∀ p, proto (timeEventLookup s) = Some p → name p = None)
  ∧ (inherited "__proto__" = true →
     own (timeEventLookup s) !! "__proto__" = None
     ∧ own (storedEventLookup s) !! "__proto__" = None).

(** ** The project of the spec's scenario *)

(** Modelled from the spec: [Project.framesToSeconds] and
    [Project.secondsToFrames] ([Project.ts] is not part of the sources),
    the "pure conversion between frame indices and seconds given a fixed
    frame rate": a frame count divided by the rate, and a time multiplied
    by the rate and brought up to a whole frame. *)
Definition Project_framesToSeconds (fps frames : float) : float := (frames / fps)%float.
Definition Project_secondsToFrames (fps seconds : float) : float := JS.Math_ceil (seconds * fps)%float.


(** ** The scheduler step: [Scene.next] and [Scene.updateLayout]

    The routine ([this.runner]), the values it yields and the scene graph
    under the scene ([Group], whose [updateLayout] and [wasDirty] the scene
    calls through [super] and [this]) are not part of the sources: they
    are the variables of section [Scheduler].  [World] is the state of
    everything they can touch apart from the scene's own [state] field,
    which the routine can set too (through [transition] and
    [canFinish]) and which is passed to it next to the world. *)

(** What a step does to the outside, in order. *)
Inductive Effect (Value : Type) : Type :=
| SetScene                                          (* setScene(this) *)
| Resume (arg : Value)                              (* this.runner.next(arg) *)
| Await (promise : Value)                           (* await promise *)
| LayoutPass                                        (* super.updateLayout() *)
| Warn (message : string) (payload : option Value). (* console.warn(message, payload) *)

Arguments SetScene {Value}.
Arguments Resume {Value} arg.
Arguments Await {Value} promise.
Arguments LayoutPass {Value}.
Arguments Warn {Value} message payload.

(** An iterator result [{value, done}]. *)
Record IterResult (Value : Type) : Type := mkIterResult {
  value : Value;
  done : bool
}.

Arguments mkIterResult {Value} value done.
Arguments value {Value} i.
Arguments done {Value} i.

(** The scene as the scheduler sees it. *)
Record Sched (Value World : Type) : Type := mkSched {
  world : World;
  lifecycle : SceneState;
  effects : list (Effect Value)
}.

Arguments mkSched {Value World} world lifecycle effects.
Arguments world {Value World} s.
Arguments lifecycle {Value World} s.
Arguments effects {Value World} s.

(** How a call of [next] ends: it returns, or the promise it stands for is
    rejected with what the routine or an awaited promise threw. *)
Inductive Outcome (Value World : Type) : Type :=
| Returned (st : Sched Value World)
| Threw (reason : Value) (st : Sched Value World).

Arguments Returned {Value World} st.
Arguments Threw {Value World} reason st.

Section Scheduler.

Context {Value World : Type}.

(** [undefined], the truthiness of a value (the test of [while
    (result.value)]) and [isPromise] of [./threading]. *)
Variable undefined : Value.
Variable truthy : Value -> bool.
Variable isPromise : Value -> bool.

(** [this.runner.next(arg)]: the routine runs up to its next [yield] or
    its end, or throws ([inl]). *)
Variable runner_next :
  Value -> World * SceneState -> Value + IterResult Value * (World * SceneState).

(** How an awaited promise settles, and what has become of the world and
    the scene's state by then: fulfilled with a value ([inr]) or rejected
    with a reason ([inl]). *)
Variable settle :
  Value -> World * SceneState -> Value + Value * (World * SceneState).

(** [super.updateLayout()] and [this.wasDirty()] of the scene graph. *)
Variable super_updateLayout : World -> World.
Variable wasDirty : World -> bool * World.

Abbreviation Sched := (Sched Value World).
Abbreviation Outcome := (Outcome Value World).

Definition emit (e : Effect Value) (st : Sched) : Sched :=
  mkSched (world st) (lifecycle st) (effects st ++ [e]).
Definition set_world (w : World) (st : Sched) : Sched :=
  mkSched w (lifecycle st) (effects st).
Definition set_both (wq : World * SceneState) (st : Sched) : Sched :=
  mkSched wq.1 wq.2 (effects st).
Definition set_lifecycle (q : SceneState) (st : Sched) : Sched :=
  mkSched (world st) q (effects st).

Definition call_super_updateLayout (st : Sched) : Sched :=
  emit LayoutPass (set_world (super_updateLayout (world st)) st).

Definition call_wasDirty (st : Sched) : bool * Sched :=
  let '(dirty, w) := wasDirty (world st) in (dirty, set_world w st).

(** The [while (this.wasDirty() && limit > 0)] loop of [updateLayout],
    started with [limit] passes left; it returns what is left of
    [limit].  [wasDirty] is asked before [limit] is looked at. *)
Fixpoint layoutLoop (limit : nat) (st : Sched) : nat * Sched :=
  let '(dirty, st) := call_wasDirty st in
  match limit with
  | S limit' =>
      if dirty then layoutLoop limit' (call_super_updateLayout st)
      else (limit, st)
  | O => (limit, st)
  end.

(** [updateLayout()]. *)
Definition updateLayout (st : Sched) : bool * Sched :=
  let st := call_super_updateLayout st in
  let '(result, st) := call_wasDirty st in
  let '(limit, st) := layoutLoop 10 st in
  let st := if Nat.eqb limit 0
            then emit (Warn "Layout iteration limit exceeded" None) st
            else st in
  (result, st).

(** [result = this.runner.next(arg)]. *)
Definition call_runner_next (arg : Value) (st : Sched)
    : Outcome + IterResult Value * Sched :=
  let st := emit (Resume arg) st in
  match runner_next arg (world st, lifecycle st) with
  | inl reason => inl (Threw reason st)
  | inr (result, wq) => inr (result, set_both wq st)
  end.

(** One turn of the body of [while (result.value)] in [next], for a
    [result] whose value is truthy: the next [result] and state, or the
    failure that ends the call. *)
Definition nextBody (result : IterResult Value) (st : Sched)
    : Outcome + IterResult Value * Sched :=
  let resumed :=
    if isPromise (value result) then
      let st := emit (Await (value result)) st in
      match settle (value result) (world st, lifecycle st) with
      | inl reason => inl (Threw reason st)
      | inr (v, wq) => call_runner_next v (set_both wq st)
      end
    else
      let st := emit (Warn "Invalid value: " (Some (value result))) st in
      call_runner_next undefined st in
  match resumed with
  | inl failure => inl failure
  | inr (result, st) => inr (result, snd (updateLayout st))
  end.

(** The [while (result.value)] loop and what follows it.  The loop has
    no bound of its own (a routine may keep yielding truthy values), so
    the model counts turns down from [fuel]; [None] means the fuel ran
    out. *)
Fixpoint nextLoop (fuel : nat) (result : IterResult Value) (st : Sched)
    : option Outcome :=
  if truthy (value result) then
    match fuel with
    | O => None
    | S fuel' =>
        match nextBody result st with
        | inl failure => Some failure
        | inr (result, st) => nextLoop fuel' result st
        end
    end
  else
    Some (Returned (if done result then set_lifecycle Finished st else st)).

(** [next()]. *)
Definition next (fuel : nat) (st : Sched) : option Outcome :=
  let st := emit SetScene st in
  match call_runner_next undefined st with
  | inl failure => Some failure
  | inr (result, st) => nextLoop fuel result (snd (updateLayout st))
  end.

End Scheduler.

(** ** The compositor: [Stage.ts] *)

Module Stage.

(** Modelled from the spec: [Vector2] of [../types], which is not part of
    the sources; a logical size, of which the surfaces are "size * scale".
    [exactlyEquals] compares the two components with [===]. *)
Record Vector2 := mkVector2 {
  x : float;
  y : float
}.

Definition zero : Vector2 := mkVector2 0 0.
Definition width (v : Vector2) : float := x v.
Definition height (v : Vector2) : float := y v.
Definition scale (v : Vector2) (k : float) : Vector2 :=
  mkVector2 (x v * k)%float (y v * k)%float.
Definition exactlyEquals (a b : Vector2) : bool :=
  ((x a =? x b)%float && (y a =? y b)%float)%bool.

(** The three canvases, each with its drawing context. *)
Inductive Surface := Final | Current | Previous.

(** A scene as the stage uses it: which scene it is, and the value
    [unwrap] finds in its [previousOnTop]. *)
Record SceneRef := mkSceneRef {
  sceneId : nat;
  previousOnTop : bool
}.

(** Modelled from the spec: the motion-blur accumulator [MoblurRenderer],
    which is not part of the sources: an object with a size and a sample
    count, [resize] and [setSamples] to change them, and a static
    capability probe [checkSupport].  [instance] tells the objects made
    by [new MoblurRenderer] apart. *)
Record MoblurRenderer := mkMoblurRenderer {
  instance : nat;
  moblurSize : Vector2;
  samples : float
}.

Definition resize (v : Vector2) (r : MoblurRenderer) : MoblurRenderer :=
  mkMoblurRenderer (instance r) v (samples r).
Definition setSamples (n : float) (r : MoblurRenderer) : MoblurRenderer :=
  mkMoblurRenderer (instance r) (moblurSize r) n.

(** A call on [this.context], the context of the final buffer. *)
Inductive CanvasOp :=
| ClearRect (x y w h : float)
| Save
| FillStyle (style : string)
| FillRect (x y w h : float)
| Restore
| DrawImage (source : Surface) (x y : float).

(** What the stage does to the outside, in order.  Of a [console.log]
    only the leading message is kept. *)
Inductive Effect :=
| GetContext (colorSpace : string) (target : Surface)
| ResizeCanvas (target : Surface) (w h : float)
| ConsoleLog (message : string)
| NewMoblur (instance : nat)
| MoblurResize (instance : nat) (size : Vector2)
| MoblurSetSamples (instance : nat) (samples : float)
| ReadPreviousOnTop (scene : nat)
| RenderScene (scene : nat) (target : Surface) (moblur : option nat)
| Draw (op : CanvasOp).

(** The [background] option: a [Color], given by what its [serialize()]
    returns, a string, or [null]. *)
Inductive Background :=
| BgColor (serialized : string)
| BgString (s : string)
| BgNull.

(** [Partial<StageSettings>]: [None] is an option left out. *)
Record StageSettings := mkStageSettings {
  opt_colorSpace : option string;
  opt_size : option Vector2;
  opt_resolutionScale : option float;
  opt_motionBlur : option float;
  opt_background : option Background
}.

(** The fields of [class Stage].  [allocated] counts the
    [MoblurRenderer]s constructed so far and numbers the next one. *)
Record Stage := mkStage {
  background : option string;
  resolutionScale : float;
  colorSpace : string;
  size : Vector2;
  motionBlurSamples : float;
  moblurRenderer : option MoblurRenderer;
  allocated : nat;
  effects : list Effect
}.

Definition emit (l : list Effect) (st : Stage) : Stage :=
  mkStage (background st) (resolutionScale st) (colorSpace st) (size st)
    (motionBlurSamples st) (moblurRenderer st) (allocated st)
    (effects st ++ l).
Definition set_background (v : option string) (st : Stage) : Stage :=
  mkStage v (resolutionScale st) (colorSpace st) (size st)
    (motionBlurSamples st) (moblurRenderer st) (allocated st) (effects st).
Definition set_resolutionScale (v : float) (st : Stage) : Stage :=
  mkStage (background st) v (colorSpace st) (size st)
    (motionBlurSamples st) (moblurRenderer st) (allocated st) (effects st).
Definition set_colorSpace (v : string) (st : Stage) : Stage :=
  mkStage (background st) (resolutionScale st) v (size st)
    (motionBlurSamples st) (moblurRenderer st) (allocated st) (effects st).
Definition set_size (v : Vector2) (st : Stage) : Stage :=
  mkStage (background st) (resolutionScale st) (colorSpace st) v
    (motionBlurSamples st) (moblurRenderer st) (allocated st) (effects st).
Definition set_moblurRenderer (v : option MoblurRenderer) (st : Stage) : Stage :=
  mkStage (background st) (resolutionScale st) (colorSpace st) (size st)
    (motionBlurSamples st) v (allocated st) (effects st).
Definition set_allocated (v : nat) (st : Stage) : Stage :=
  mkStage (background st) (resolutionScale st) (colorSpace st) (size st)
    (motionBlurSamples st) (moblurRenderer st) v (effects st).

(** [get canvasSize()]. *)
Definition canvasSize (st : Stage) : Vector2 := scale (size st) (resolutionScale st).

(** The constructor. *)
Definition Stage_new : Stage :=
  mkStage None 1 "srgb" zero 1 None 0
    [GetContext "srgb" Final; GetContext "srgb" Current; GetContext "srgb" Previous].

(** [resizeCanvas(context)] for the context of [target]. *)
Definition resizeCanvas (target : Surface) (st : Stage) : Stage :=
  let size := canvasSize st in
  emit [ResizeCanvas target (width size) (height size)] st.

(** [new MoblurRenderer(size, samples)]. *)
Definition new_MoblurRenderer (size : Vector2) (n : float) (st : Stage)
    : MoblurRenderer * Stage :=
  (mkMoblurRenderer (allocated st) size n,
   emit [NewMoblur (allocated st)] (set_allocated (S (allocated st)) st)).

(** The blocks of [configure], in the order of the source.  First the
    colour space: the three contexts are fetched again when it changes. *)
Definition applyColorSpace (colorSpace' : string) (st : Stage) : Stage :=
  if negb (String.eqb colorSpace' (colorSpace st)) then
    emit [GetContext colorSpace' Final; GetContext colorSpace' Current;
          GetContext colorSpace' Previous]
         (set_colorSpace colorSpace' st)
  else st.

(** Then the size and the resolution scale: the three canvases are resized
    when either changes. *)
Definition applySize (size' : Vector2) (resolutionScale' : float) (st : Stage) : Stage :=
  if (negb (exactlyEquals size' (size st))
      || negb (resolutionScale' =? resolutionScale st)%float)%bool then
    resizeCanvas Previous
      (resizeCanvas Current
         (resizeCanvas Final (set_size size' (set_resolutionScale resolutionScale' st))))
  else st.

(** Then the accumulator is dropped, or constructed when there is none;
    [support] is what [MoblurRenderer.checkSupport()] answers during the
    call. *)
Definition selectMoblur (motionBlur : float) (support : bool) (st : Stage) : Stage :=
  if ((motionBlur <=? 1)%float || negb support)%bool then
    set_moblurRenderer None (emit [ConsoleLog "Moblur cleared"] st)
  else
    match moblurRenderer st with
    | None =>
        let '(r, st) := new_MoblurRenderer (size st) motionBlur
                          (emit [ConsoleLog "Moblur setup"] st) in
        set_moblurRenderer (Some r) st
    | Some _ => st
    end.

(** Last, after the background is stored, the accumulator the stage has is
    resized and given the sample count. *)
Definition updateMoblur (motionBlur : float) (st : Stage) : Stage :=
  match moblurRenderer st with
  | Some r =>
      set_moblurRenderer (Some (setSamples motionBlur (resize (size st) r)))
        (emit [ConsoleLog "Moblur changed"; MoblurResize (instance r) (size st);
               MoblurSetSamples (instance r) motionBlur] st)
  | None => st
  end.

(** [configure(options)].  The defaults of the options left out are read
    from the stage as it is when the call starts. *)
Definition configure (options : StageSettings) (support : bool) (st : Stage) : Stage :=
  let colorSpace' := default (colorSpace st) (opt_colorSpace options) in
  let size' := default (size st) (opt_size options) in
  let resolutionScale' := default (resolutionScale st) (opt_resolutionScale options) in
  let motionBlur := default (motionBlurSamples st) (opt_motionBlur options) in
  let background' :=
    match opt_background options with
    | Some (BgColor serialized) => Some serialized
    | Some (BgString s) => Some s
    | Some BgNull => None
    | None => background st
    end in
  let st := applyColorSpace colorSpace' st in
  let st := applySize size' resolutionScale' st in
  let st := emit [ConsoleLog "Configured"; ConsoleLog "Values"] st in
  let st := selectMoblur motionBlur support st in
  let st := set_background background' st in
  updateMoblur motionBlur st.

(** How a call of the asynchronous [render] ends.  Nothing else touches
    the stage while the call waits for a scene to render. *)
Inductive Completion :=
| Fulfilled (st : Stage)
| Rejected (st : Stage).

(** The stage a call of [render] leaves behind. *)
Definition stageOf (c : Completion) : Stage :=
  match c with
  | Fulfilled st => st
  | Rejected st => st
  end.

Section Render.

(** Whether the promise of rendering a scene (through the accumulator or
    directly) is fulfilled; the drawing itself is the scene's business. *)
Variable renderFulfils : SceneRef -> bool.

(** [renderScene(scene, context)] for the context of [target]. *)
Definition renderScene (scene : SceneRef) (target : Surface) (st : Stage)
    : bool * Stage :=
  (renderFulfils scene,
   emit [RenderScene (sceneId scene) target (instance <$> moblurRenderer st)] st).

(** [render(currentScene, previousScene)]. *)
Definition render (currentScene : SceneRef) (previousScene : option SceneRef)
    (st : Stage) : Completion :=
  let '(previousOnTop', st) :=
    match previousScene with
    | Some _ => (previousOnTop currentScene,
                 emit [ReadPreviousOnTop (sceneId currentScene)] st)
    | None => (false, st)
    end in
  let '(fulfilled, st) :=
    match previousScene with
    | Some previous => renderScene previous Previous st
    | None => (true, st)
    end in
  if negb fulfilled then Rejected st else
  let '(fulfilled, st) := renderScene currentScene Current st in
  if negb fulfilled then Rejected st else
  let size := canvasSize st in
  let st := emit [Draw (ClearRect 0 0 (width size) (height size))] st in
  let st :=
    match background st with
    | Some bg =>
        if String.eqb bg EmptyString then st
        else emit [Draw Save; Draw (FillStyle bg);
                   Draw (FillRect 0 0 (width size) (height size)); Draw Restore] st
    | None => st
    end in
  let st :=
    if (bool_decide (is_Some previousScene) && negb previousOnTop')%bool
    then emit [Draw (DrawImage Previous 0 0)] st else st in
  let st := emit [Draw (DrawImage Current 0 0)] st in
  let st :=
    if previousOnTop' then emit [Draw (DrawImage Previous 0 0)] st else st in
  Fulfilled st.

End Render.

(** The calls on the final context among some effects. *)
Definition finalOps (l : list Effect) : list CanvasOp :=
  omap (fun e => match e with Draw op => Some op | _ => None end) l.

(** Whether some effect is a read of a scene's [previousOnTop]. *)
Definition readsPreviousOnTop (l : list Effect) : bool :=
  existsb (fun e => match e with ReadPreviousOnTop _ => true | _ => false end) l.

(** Whether some effect is the construction of an accumulator. *)
Definition constructsMoblur (l : list Effect) : bool :=
  existsb (fun e => match e with NewMoblur _ => true | _ => false end) l.

End Stage.

(** A step that leaves the accumulator alone: it is the same object in
    the same field, none is constructed, and the effects only grow. *)
Definition quiet (st st' : Stage.Stage) : Prop :=
  Stage.moblurRenderer st' = Stage.moblurRenderer st
  ∧ Stage.allocated st' = Stage.allocated st
  ∧ Stage.motionBlurSamples st' = Stage.motionBlurSamples st
  ∧ ∃ new, Stage.effects st' = Stage.effects st ++ new
           ∧ Stage.constructsMoblur new = false.

(** ** Concrete scenes *)

(** A [JSON] for the examples.  The text of a lookup is the list of its
    entries with the numbers as [JSON.stringify] writes them: NaN and the
    infinities become [null] (read back: a field that is not a number),
    [-0] becomes [0], every other number comes back as it was.  Parsing
    gives the entries of the text. *)
Definition json_number (v : option float) : option float :=
  match v with
  | Some x =>
      if (PrimFloat.is_nan x || PrimFloat.is_infinity x)%bool then None
      else if PrimFloat.is_zero x then Some 0%float
      else Some x
  | None => None
  end.
Definition json_event (e : TimeEvent) : TimeEvent :=
  mkTimeEvent (name e) (json_number (initialTime e)) (json_number (targetTime e))
    (json_number (offset e)).
Definition entries_stringify (m : gmap string TimeEvent) : list (string * TimeEvent) :=
  map_to_list (json_event <$> m).
Definition entries_parse (t : list (string * TimeEvent)) : list (string * TimeEvent) := t.

(** The operations at 30 frames per second in a plain runtime. *)
Definition getFrameEvent30 : string -> Scene -> option float * Scene :=
  getFrameEvent Object_prototype_has (Project_framesToSeconds 30)
    (Project_secondsToFrames 30).
Definition reachable30 : Scene -> Prop :=
  reachable Object_prototype_has (Project_framesToSeconds 30)
    (Project_secondsToFrames 30) entries_stringify entries_parse.

(** A new scene of the project ["project"] at frame [f], with what
    [localStorage] holds. *)
Definition newScene (f : float) (ls : gmap string (list (string * TimeEvent))) : Scene :=
  Scene_new Object_prototype_has entries_parse (mkProject "project" f) "scene" None ls.

(** The scene of the spec's scenario: a new scene (nothing in the durable
    store) with [duration = 30], [firstFrame = 0], at frame 0. *)
Definition scenarioScene : Scene := set_duration 30 (newScene 0 ∅).

(** The scene after the scenario's first [getFrameEvent("in")]. *)
Definition scenarioScene1 : Scene := (getFrameEvent30 "in" scenarioScene).2.

(** The scene of the scenario after [setFrameEvent("in", 1.0)]. *)
Definition scenarioScene2 : Scene :=
  setFrameEvent Object_prototype_has "in" 1 None scenarioScene1.

(** The scene of the scenario, but constructed when [localStorage] holds,
    from an earlier session, the event ["in"] with the target time 1 s. *)
Definition storedScene : Scene :=
  set_duration 30
    (newScene 0 {["scene-project-scene" := [("in", timeEvent "in" 0 1 1)]]}).

(** A scene with the events ["in"] (offset 1 s) and ["out"], asked for at
    frame 0, whose project has since moved to frame 30. *)
Definition movedScene : Scene :=
  set_frame 30 (getFrameEvent30 "out" scenarioScene2).2.

(** A scene at 10 frames per second, at frame 1 (0.1 s), whose event ["n"]
    was given the offset 0.2 s with [preserve = false]. *)
Definition roundingScene : Scene :=
  setFrameEvent Object_prototype_has "n" 0x1.999999999999ap-3 (Some false)
    (getFrameEvent Object_prototype_has (Project_framesToSeconds 10)
       (Project_secondsToFrames 10) "n" (set_frame 1 (newScene 0 ∅))).2.

(** The scene of the scenario after [getFrameEvent("constructor")] and
    [setFrameEvent("constructor", 1, false)], for a name every plain
    object inherits. *)
Definition constructorScene : Scene :=
  setFrameEvent Object_prototype_has "constructor" 1 (Some false)
    (getFrameEvent30 "constructor" scenarioScene).2.

(** A new scene whose project is at a frame that is not a number. *)
Definition nanScene : Scene := newScene PrimFloat.nan ∅.


(** The scene of the scenario at a frame that is not a number, after
    [getFrameEvent("in")] and [setFrameEvent("in", 1)]. *)
Definition nanStoredScene : Scene :=
  setFrameEvent Object_prototype_has "in" 1 None (getFrameEvent30 "in" nanScene).2.

(** ** A scripted routine

    A routine that yields the values of a list one after the other and
    then returns, over a scene graph whose layout is never dirty.  The
    world is the list of the values still to come. *)

Section Scripted.

Context {Value : Type}.
Variable undefined : Value.

Definition script_next (arg : Value) (wq : list Value * SceneState)
    : Value + IterResult Value * (list Value * SceneState) :=
  match wq.1 with
  | v :: w' => inr (mkIterResult v false, (w', wq.2))
  | [] => inr (mkIterResult undefined true, ([], wq.2))
  end.

Definition script_settle (promise : Value) (wq : list Value * SceneState)
    : Value + Value * (list Value * SceneState) :=
  inr (undefined, wq).

Definition script_layout (w : list Value) : list Value := w.

Definition script_wasDirty (w : list Value) : bool * list Value := (false, w).

End Scripted.

(** Values for the examples: [undefined], numbers, strings, and promises
    (with the value they are fulfilled with). *)
Inductive JSValue :=
| JUndefined
| JNumber (n : float)
| JString (s : string)
| JPromise (result : float).

Definition js_truthy (v : JSValue) : bool :=
  match v with
  | JUndefined => false
  | JNumber n => (JS.self_equal n && negb (n =? 0)%float)%bool
  | JString s => negb (String.eqb s EmptyString)
  | JPromise _ => true
  end.

Definition js_isPromise (v : JSValue) : bool :=
  match v with
  | JPromise _ => true
  | _ => false
  end.

(** A scene graph that is dirty whatever is done to it. *)
Definition alwaysDirty (w : unit) : bool * unit := (true, w).

(** ** Concrete stages *)

(** Every scene renders. *)
Definition allRender (scene : Stage.SceneRef) : bool := true.

(** A stage of 1920 by 1080 with a black background and four motion-blur
    samples, on a runtime that supports the accumulator. *)
Definition blurStage : Stage.Stage :=
  Stage.configure
    (Stage.mkStageSettings None (Some (Stage.mkVector2 1920 1080)) None (Some 4%float)
       (Some (Stage.BgString "black")))
    true Stage.Stage_new.

(** Options that change the size and the sample count. *)
Definition reblurOptions : Stage.StageSettings :=
  Stage.mkStageSettings None (Some (Stage.mkVector2 1280 720)) None (Some 8%float) None.

(** ** The lifecycle of a scene: [transition], [canFinish] and the queries

    [transition] and [canFinish] warn with a text made from the scene and
    the state found; only the state is kept of the warning. *)

Inductive LifecycleWarning :=
| TransitionedIn (found : SceneState)     (* "... transitioned in an unexpected state: " *)
| MarkedFinishedIn (found : SceneState).  (* "... was marked as finished in an unexpected state: " *)

(** What [transition] does to [this.state] once the transition runner has
    run to its end (or, without one, the previous scene has been hidden). *)
Definition transition_end (q : SceneState) : SceneState * list LifecycleWarning :=
  match q with
  | Initial => (AfterTransitionIn, [])
  | _ => (q, [TransitionedIn q])
  end.

(** [canFinish()]. *)
Definition canFinish (q : SceneState) : SceneState * list LifecycleWarning :=
  match q with
  | AfterTransitionIn => (CanTransitionOut, [])
  | _ => (q, [MarkedFinishedIn q])
  end.

(** What the end of [next] does to [this.state] when the routine is done. *)
Definition routine_done (q : SceneState) : SceneState * list LifecycleWarning :=
  (Finished, []).

Definition isAfterTransitionIn (q : SceneState) : bool :=
  match q with AfterTransitionIn => true | _ => false end.

Definition isFinished (q : SceneState) : bool :=
  match q with Finished => true | _ => false end.

Definition canTransitionOut (q : SceneState) : bool :=
  match q with CanTransitionOut | Finished => true | _ => false end.

(** The three things that write [this.state] after a [reset]. *)
Inductive LifecycleOp := TransitionEnds | CanFinish | RoutineDone.

Definition lifecycle_step (op : LifecycleOp) (q : SceneState)
    : SceneState * list LifecycleWarning :=
  match op with
  | TransitionEnds => transition_end q
  | CanFinish => canFinish q
  | RoutineDone => routine_done q
  end.

(** A run of such writes: the state reached and the warnings logged. *)
Fixpoint lifecycle_run (ops : list LifecycleOp) (q : SceneState)
    : SceneState * list LifecycleWarning :=
  match ops with
  | [] => (q, [])
  | op :: ops =>
      let '(q, warned) := lifecycle_step op q in
      let '(q, later) := lifecycle_run ops q in
      (q, warned ++ later)
  end.

(** ** [generateNodeId]

    [counters] is a plain object.  A counter it stores starts at 0 and is
    only ever incremented; [++] on a JavaScript number is exact below 2^53
    and leaves 2^53 as it is (2^53 + 1 rounds back to 2^53).  [type in
    this.counters] also holds for a name the object does not store but
    inherits from [Object.prototype] ([toString], [constructor], ...):
    what is found there is a function or, for [__proto__], an object, of
    which [++] makes NaN; the assignment then stores NaN under the name,
    except for [__proto__], whose setter ignores a number.  A counter is
    therefore a whole number or NaN, and [`${id}`] its decimal text or
    the text NaN. *)

Inductive Counter :=
| Count (n : N)
| CountNaN.

Definition increment (c : Counter) : Counter :=
  match c with
  | Count n => Count (if (n <? 9007199254740992)%N then n + 1 else n)%N
  | CountNaN => CountNaN
  end.

Definition counterText (c : Counter) : string :=
  match c with
  | Count n => pretty n
  | CountNaN => "NaN"
  end.

(** [generateNodeId(type)] for the scene called [sceneName]: the id, and
    the counters after the call.  [inherited] tells the names a plain
    object inherits. *)
Definition generateNodeId (inherited : string -> bool) (sceneName type : string)
    (counters : gmap string Counter) : string * gmap string Counter :=
  let '(id, counters) :=
    match counters !! type with
    | Some c => (increment c, <[type := increment c]> counters)
    | None =>
        if inherited type then
          (CountNaN,
           if String.eqb type "__proto__" then counters
           else <[type := CountNaN]> counters)
        else (Count 0, <[type := Count 0%N]> counters)
    end in
  (sceneName +:+ "." +:+ type +:+ "." +:+ counterText id, counters).

(** Calls of [generateNodeId] for the types of a list, one after the
    other: the ids in the order of the calls, and the counters at the
    end. *)
Fixpoint generateNodeIds (inherited : string -> bool) (sceneName : string)
    (types : list string) (counters : gmap string Counter)
    : list string * gmap string Counter :=
  match types with
  | [] => ([], counters)
  | type :: types =>
      let '(id, counters) := generateNodeId inherited sceneName type counters in
      let '(ids, counters) := generateNodeIds inherited sceneName types counters in
      (id :: ids, counters)
  end.

(** ** A scene graph with cascading invalidation

    The world is the number of layout passes the graph still needs: a
    pass takes one off, and the graph is dirty while any is left. *)

Definition cascade_layout (pending : nat) : nat := Nat.pred pending.
Definition cascade_wasDirty (pending : nat) : bool * nat :=
  (negb (Nat.eqb pending 0), pending).

(** ** A scripted routine with promises

    As [script_settle], but a promise settles as [outcome] says: rejected
    with a reason ([inl]) or fulfilled with a value ([inr]). *)

Definition script_settle_as {Value : Type} (outcome : Value -> Value + Value)
    (promise : Value) (wq : list Value * SceneState)
    : Value + Value * (list Value * SceneState) :=
  match outcome promise with
  | inl reason => inl reason
  | inr v => inr (v, wq)
  end.

(** What one turn of the loop of [next] does to the outside for a truthy
    value, when a promise among them is fulfilled. *)
Definition turn_effects {Value : Type} (undefined : Value) (isPromise : Value -> bool)
    (outcome : Value -> Value + Value) (v : Value) : list (Effect Value) :=
  (if isPromise v
   then [Await v; Resume (match outcome v with inl _ => undefined | inr x => x end)]
   else [Warn "Invalid value: " (Some v); Resume undefined])
  ++ [LayoutPass].

(** ** The stages the code can produce *)

Inductive stageReachable (renderFulfils : Stage.SceneRef -> bool)
    : Stage.Stage -> Prop :=
| stageReachable_new : stageReachable renderFulfils Stage.Stage_new
| stageReachable_configure options support st :
    stageReachable renderFulfils st ->
    stageReachable renderFulfils (Stage.configure options support st)
| stageReachable_render currentScene previousScene st :
    stageReachable renderFulfils st ->
    stageReachable renderFulfils
      (Stage.stageOf (Stage.render renderFulfils currentScene previousScene st)).

(** Whether an effect fetches a context or resizes a canvas. *)
Definition touchesSurface (e : Stage.Effect) : bool :=
  match e with
  | Stage.GetContext _ _ | Stage.ResizeCanvas _ _ _ => true
  | _ => false
  end.

(** A record as [getFrameEvent] and [setFrameEvent] make them from
    events: it has its three times, and it is new (the target is the time
    of the request and the offset 0), anchored on its offset (the target
    is the time plus the offset), or anchored on its target (the offset
    is the clamped distance to the target). *)
Definition anchored (e : TimeEvent) : Prop :=
  ∃ i t o,
    initialTime e = Some i ∧ targetTime e = Some t ∧ offset e = Some o
    ∧ ((t = i ∧ o = 0%float)
       ∨ t = (i + o)%float
       ∨ o = JS.Math_max 0 (t - i)%float).

(** The records of a lookup that have a name are anchored. *)
Definition namedAnchored (m : gmap string TimeEvent) : Prop :=
  ∀ k e, m !! k = Some e → is_Some (name e) → anchored e.

(** The id the next call of [generateNodeId] for [type] will use, as long
    as the counter is a number below 2^53: 0 for a type not seen, else
    one more than the counter. *)
Definition nextId (counters : gmap string Counter) (type : string) : N :=
  match counters !! type with
  | Some (Count c) => (c + 1)%N
  | _ => 0%N
  end.

(** Counters that are all numbers. *)
Definition numeric (counters : gmap string Counter) : Prop :=
  ∀ type, counters !! type ≠ Some CountNaN.

(** The text of the id that [generateNodeId] makes from a type and a
    number. *)
Definition nodeIdText (sceneName type : string) (id : N) : string :=
  sceneName +:+ "." +:+ type +:+ "." +:+ pretty id.

(** How many of the writes of a run are calls of [transition] or
    [canFinish]. *)
Fixpoint countCalls (ops : list LifecycleOp) : nat :=
  match ops with
  | [] => 0
  | RoutineDone :: ops => countCalls ops
  | _ :: ops => S (countCalls ops)
  end.

(** A value the loop of [next] gets past: truthy, and fulfilled if it is
    a promise. *)
Definition passes {Value : Type} (truthy isPromise : Value -> bool)
    (outcome : Value -> Value + Value) (v : Value) : Prop :=
  truthy v = true ∧ (isPromise v = true → ∃ x, outcome v = inr x).

(** How the promises of the examples settle: one that carries a negative
    number is rejected, any other is fulfilled with its number. *)
Definition js_outcome (v : JSValue) : JSValue + JSValue :=
  match v with
  | JPromise r => if (r <? 0)%float then inl (JString "failed") else inr (JNumber r)
  | _ => inr JUndefined
  end.

(** ** Reading the record of what a stage did *)

(** Whether an effect is the rendering of a scene. *)
Definition isRenderScene (e : Stage.Effect) : bool :=
  match e with
  | Stage.RenderScene _ _ _ => true
  | _ => false
  end.

Definition surface_eqb (a b : Stage.Surface) : bool :=
  match a, b with
  | Stage.Final, Stage.Final
  | Stage.Current, Stage.Current
  | Stage.Previous, Stage.Previous => true
  | _, _ => false
  end.

(** The widths and heights given to the canvas of [target], in order. *)
Definition resizesOf (target : Stage.Surface) (l : list Stage.Effect)
    : list (float * float) :=
  omap (fun e => match e with
                 | Stage.ResizeCanvas t w h =>
                     if surface_eqb t target then Some (w, h) else None
                 | _ => None
                 end) l.

(** The width and height the canvas of [target] was last given, if any. *)
Definition lastResize (target : Stage.Surface) (l : list Stage.Effect)
    : option (float * float) :=
  last (resizesOf target l).

(** Scenes that render, all but the one numbered [bad]. *)
Definition rendersExcept (bad : nat) (scene : Stage.SceneRef) : bool :=
  negb (Nat.eqb (Stage.sceneId scene) bad).

(** ** Comparisons of JavaScript numbers *)

Lemma SFcompare_antisym (a b : SpecFloat.spec_float) :
  SpecFloat.SFcompare b a = option_map CompOpp (SpecFloat.SFcompare a b).
Proof.
  destruct a as [sa|sa| |sa ma ea], b as [sb|sb| |sb mb eb]; simpl; try done;
    try (by destruct sa); try (by destruct sb); try (by destruct sa, sb).
  change (PosDef.Pos.compare_cont Eq mb ma) with (Pos.compare mb ma).
  change (PosDef.Pos.compare_cont Eq ma mb) with (Pos.compare ma mb).
  rewrite (Z.compare_antisym ea eb), (Pos.compare_antisym ma mb).
  destruct sa, sb; simpl; try done;
    destruct (ea ?= eb)%Z; simpl; try done; by destruct (ma ?= mb)%positive.
Qed.

Lemma SFcompare_None (a b : SpecFloat.spec_float) :
  SpecFloat.SFcompare a b = None →
  a = SpecFloat.S754_nan ∨ b = SpecFloat.S754_nan.
Proof.
  destruct a as [sa|sa| |sa ma ea], b as [sb|sb| |sb mb eb]; simpl;
    try (by left); try (by right); try (by destruct sa); try (by destruct sb);
    try (by destruct sa, sb).
Qed.

Lemma self_equal_not_nan (a : float) :
  JS.self_equal a = true → Prim2SF a ≠ SpecFloat.S754_nan.
Proof.
  unfold JS.self_equal. rewrite FloatAxioms.eqb_spec. intros H Hnan.
  by rewrite Hnan in H.
Qed.

(** For numbers, [a <= b] fails exactly when [b < a]. *)
Lemma leb_false_ltb (a b : float) :
  JS.self_equal a = true → JS.self_equal b = true →
  (a <=? b)%float = negb (b <? a)%float.
Proof.
  intros Ha%self_equal_not_nan Hb%self_equal_not_nan.
  rewrite FloatAxioms.leb_spec, FloatAxioms.ltb_spec.
  unfold SpecFloat.SFleb, SpecFloat.SFltb.
  rewrite (SFcompare_antisym (Prim2SF a) (Prim2SF b)).
  destruct (SpecFloat.SFcompare (Prim2SF a) (Prim2SF b)) as [[]|] eqn:Hc; try done.
  by apply SFcompare_None in Hc as [?|?].
Qed.

Lemma SFcompare_refl (a : SpecFloat.spec_float) :
  a ≠ SpecFloat.S754_nan → SpecFloat.SFcompare a a = Some Eq.
Proof.
  destruct a as [sa|sa| |sa ma ea]; simpl; intros Hnan; try done;
    try (by destruct sa).
  rewrite Z.compare_refl.
  change (PosDef.Pos.compare_cont Eq ma ma) with (Pos.compare ma ma).
  rewrite Pos.compare_refl. by destruct sa.
Qed.

(** A number that is above another is not NaN, and [Math.max(0, x)] of a
    number above zero is that number. *)
Lemma ltb_self_equal (a b : float) : (a <? b)%float = true → JS.self_equal b = true.
Proof.
  unfold JS.self_equal.
  rewrite FloatAxioms.ltb_spec, FloatAxioms.eqb_spec.
  unfold SpecFloat.SFltb, SpecFloat.SFeqb. intros Hlt.
  rewrite SFcompare_refl; [done|].
  intros Hnan. rewrite Hnan in Hlt. by destruct (Prim2SF a).
Qed.

Lemma Math_max_pos (x : float) : (0 <? x)%float = true → JS.Math_max 0 x = x.
Proof.
  intros Hpos. unfold JS.Math_max. rewrite Hpos.
  apply ltb_self_equal in Hpos. unfold JS.self_equal in Hpos.
  unfold PrimFloat.is_nan. by rewrite Hpos.
Qed.

(** ** Reading and writing a property *)

Section LookupFacts.

Variable inherited : string -> bool.

Lemma assign_own lookup key event :
  own (assign inherited lookup key event)
  = if replacesProto inherited lookup key then own lookup else <[key := event]> (own lookup).
Proof.
  unfold assign, replacesProto.
  destruct (own lookup !! key); [done|]. by destruct (_ && _).
Qed.

Lemma assign_proto lookup key event :
  proto (assign inherited lookup key event)
  = if replacesProto inherited lookup key then Some event else proto lookup.
Proof.
  unfold assign, replacesProto.
  destruct (own lookup !! key); [done|]. by destruct (_ && _).
Qed.

(** An assignment that does not replace the prototype makes an entry. *)
Lemma assign_entry lookup key event :
  replacesProto inherited lookup key = false →
  assign inherited lookup key event
  = mkEventLookup (<[key := event]> (own lookup)) (proto lookup).
Proof.
  unfold assign, replacesProto.
  destruct (own lookup !! key); [done|]. by intros ->.
Qed.

(** After [lookup[key] = event], [lookup[key]] is [event]. *)
Lemma get_assign lookup key event :
  get inherited (assign inherited lookup key event) key = FEvent event.
Proof.
  unfold get, assign.
  destruct (own lookup !! key) as [e|] eqn:Hown; simpl.
  - by rewrite lookup_insert_eq.
  - destruct (inherited key && String.eqb key "__proto__")%bool eqn:Hproto; simpl.
    + rewrite Hown. apply andb_true_iff in Hproto as [Hin Heq].
      apply String.eqb_eq in Heq. subst key.
      unfold ownField, fromObjectPrototype. simpl. by rewrite Hin.
    + by rewrite lookup_insert_eq.
Qed.

(** An assignment that makes an entry leaves what other keys give. *)
Lemma get_assign_ne lookup key event other :
  replacesProto inherited lookup key = false → other ≠ key →
  get inherited (assign inherited lookup key event) other = get inherited lookup other.
Proof.
  intros Hentry Hne. unfold get.
  rewrite assign_own, assign_proto, Hentry.
  by rewrite lookup_insert_ne.
Qed.

(** A key that gives [undefined] is not one whose assignment replaces the
    prototype. *)
Lemma get_undefined_entry lookup key :
  get inherited lookup key = FUndefined → replacesProto inherited lookup key = false.
Proof.
  unfold get, replacesProto, fromObjectPrototype.
  destruct (own lookup !! key); [done|].
  destruct (inherited key); [|done]. simpl.
  destruct (String.eqb key "__proto__") eqn:Heq; [|done].
  apply String.eqb_eq in Heq. subst key.
  destruct (proto lookup) as [p|]; [|done].
  unfold ownField. simpl. done.
Qed.

Lemma get_own lookup key e :
  own lookup !! key = Some e → get inherited lookup key = FEvent e.
Proof. unfold get. by intros ->. Qed.

Lemma replacesProto_own lookup key e :
  own lookup !! key = Some e → replacesProto inherited lookup key = false.
Proof. unfold replacesProto. by intros ->. Qed.

(** In a plain object without entry for it, a key gives [undefined]
    exactly when it is not inherited. *)
Lemma get_emptyLookup key :
  get inherited emptyLookup key = FUndefined ↔ inherited key = false.
Proof.
  unfold get, emptyLookup, fromObjectPrototype. simpl. rewrite lookup_empty.
  destruct (inherited key); [|done].
  by destruct (String.eqb key "__proto__").
Qed.

End LookupFacts.

(** ** Basic facts about the ledger operations *)

Section LedgerFacts.

Variable inherited : string -> bool.
Variable f2s : float -> float.
Variable s2f : float -> float.

Lemma resync_name b e : name (resync b e) = name e.
Proof. by destruct b. Qed.

Lemma resync_initialTime b e : initialTime (resync b e) = initialTime e.
Proof. by destruct b. Qed.

(** What [getFrameEvent] does when it finds nothing under the name. *)
Lemma getFrameEvent_update_create nm s :
  get inherited (timeEventLookup s) nm = FUndefined →
  let stored := get inherited (storedEventLookup s) nm in
  let event :=
    mkTimeEvent (Some nm) (Some (currentTime f2s s))
      (Some (default (currentTime f2s s) (field targetTime stored)))
      (Some (default 0%float (field offset stored))) in
  let event := if truthy stored then resync (preserveEvents s) event else event in
  let live := mkEventLookup (<[nm := event]> (own (timeEventLookup s)))
                (proto (timeEventLookup s)) in
  getFrameEvent_update inherited f2s nm s
  = dispatch (timeEvents (set_timeEventLookup live s)) (set_timeEventLookup live s).
Proof.
  intros Hnone. cbv zeta. unfold getFrameEvent_update. rewrite Hnone.
  pose proof (get_undefined_entry inherited _ _ Hnone) as Hentry.
  by rewrite (assign_entry inherited _ _ _ Hentry).
Qed.

(** What [getFrameEvent] does when it finds something under the name. *)
Lemma getFrameEvent_update_found nm s :
  get inherited (timeEventLookup s) nm ≠ FUndefined →
  let found := get inherited (timeEventLookup s) nm in
  getFrameEvent_update inherited f2s nm s
  = if negb (JS.strict_equal (field initialTime found) (currentTime f2s s)) then
      let event := resync (preserveEvents s)
                     (set_initialTime (Some (currentTime f2s s)) (spread found)) in
      let s' := set_storedEventLookup (assign inherited (storedEventLookup s) nm event)
                  (set_timeEventLookup (assign inherited (timeEventLookup s) nm event) s) in
      dispatch (timeEvents s') s'
    else s.
Proof.
  intros Hfound. cbv zeta. unfold getFrameEvent_update.
  by destruct (get inherited (timeEventLookup s) nm).
Qed.

(** After the update step a lookup of the name gives an event, and that
    event carries the time computed from the current frame unless the
    step found nothing to change. *)
Lemma getFrameEvent_update_live nm s :
  ∃ event,
    get inherited (timeEventLookup (getFrameEvent_update inherited f2s nm s)) nm
    = FEvent event
    ∧ JS.strict_equal (initialTime event) (currentTime f2s s)
      = JS.self_equal (currentTime f2s s)
        || JS.strict_equal (field initialTime (get inherited (timeEventLookup s) nm))
             (currentTime f2s s).
Proof.
  assert (get inherited (timeEventLookup s) nm = FUndefined
          ∨ get inherited (timeEventLookup s) nm ≠ FUndefined) as [Hnone|Hfound]
    by (destruct (get inherited (timeEventLookup s) nm); (by left) || by right).
  - rewrite getFrameEvent_update_create by done. simpl.
    eexists. split.
    + unfold get. simpl. by rewrite lookup_insert_eq.
    + rewrite Hnone. simpl. rewrite orb_false_r.
      destruct (truthy _); [rewrite resync_initialTime|]; done.
  - rewrite getFrameEvent_update_found by done. cbv zeta.
    destruct (JS.strict_equal _ _) eqn:Hsame; simpl.
    + destruct (get inherited (timeEventLookup s) nm) as [| | |e|] eqn:Hget;
        try done.
      exists e. split; [done|]. simpl in Hsame. by rewrite Hsame, orb_true_r.
    + eexists. split; [apply get_assign|].
      rewrite resync_initialTime. simpl. by rewrite orb_false_r.
Qed.

Lemma getFrameEvent_update_firstFrame nm s :
  firstFrame (getFrameEvent_update inherited f2s nm s) = firstFrame s.
Proof.
  unfold getFrameEvent_update.
  destruct (get inherited (timeEventLookup s) nm); try done; by destruct (negb _).
Qed.

Lemma getFrameEvent_update_project nm s :
  project (getFrameEvent_update inherited f2s nm s) = project s.
Proof.
  unfold getFrameEvent_update.
  destruct (get inherited (timeEventLookup s) nm); try done; by destruct (negb _).
Qed.

Lemma getFrameEvent_update_preserveEvents nm s :
  preserveEvents (getFrameEvent_update inherited f2s nm s) = preserveEvents s.
Proof.
  unfold getFrameEvent_update.
  destruct (get inherited (timeEventLookup s) nm); try done; by destruct (negb _).
Qed.

(** The update step does nothing once the lookup gives an event that
    carries the current time. *)
Lemma getFrameEvent_update_stable nm s current :
  get inherited (timeEventLookup s) nm = FEvent current →
  JS.strict_equal (initialTime current) (currentTime f2s s) = true →
  getFrameEvent_update inherited f2s nm s = s.
Proof. unfold getFrameEvent_update. intros ->. simpl. by intros ->. Qed.

(** The frame [getFrameEvent] returns, read off the scene it leaves. *)
Lemma getFrameEvent_result nm s event :
  get inherited (timeEventLookup (getFrameEvent_update inherited f2s nm s)) nm
  = FEvent event →
  (getFrameEvent inherited f2s s2f nm s).1
  = Some (firstFrame s
          + s2f (JS.ToNumber (initialTime event) + JS.ToNumber (offset event)))%float.
Proof.
  intros Hev. unfold getFrameEvent. simpl.
  by rewrite Hev, getFrameEvent_update_firstFrame.
Qed.

End LedgerFacts.

(** ** [setFrameEvent] *)

(** The payload of a dispatch holds exactly the entries of the live
    ledger. *)
Lemma elem_of_timeEvents (s : Scene) (e : TimeEvent) :
  e ∈ timeEvents s ↔ ∃ k, own (timeEventLookup s) !! k = Some e.
Proof.
  unfold timeEvents. rewrite list_elem_of_fmap. split.
  - intros ([k e'] & -> & Hin). exists k. by apply elem_of_map_to_list.
  - intros (k & Hk). exists (k, e). split; [done|]. by apply elem_of_map_to_list.
Qed.

(** [setFrameEvent] on an entry of the live ledger whose offset differs. *)
Lemma setFrameEvent_own (inherited : string -> bool) (nm : string) (offset' : float)
    (preserve : option bool) (s : Scene) (current : TimeEvent) :
  own (timeEventLookup s) !! nm = Some current →
  JS.strict_equal (offset current) offset' = false →
  let event := mkTimeEvent (name current) (initialTime current)
                 (Some (JS.ToNumber (initialTime current) + offset')%float)
                 (Some offset') in
  let s' := set_storedEventLookup (assign inherited (storedEventLookup s) nm event)
              (set_timeEventLookup
                 (mkEventLookup (<[nm := event]> (own (timeEventLookup s)))
                    (proto (timeEventLookup s)))
                 (set_preserveEvents (default true preserve) (set_cached false s))) in
  setFrameEvent inherited nm offset' preserve s = dispatch (timeEvents s') s'.
Proof.
  intros Hlive Hdiff. cbv zeta. unfold setFrameEvent.
  rewrite (get_own inherited _ _ _ Hlive). simpl. rewrite Hdiff. simpl.
  by rewrite (assign_entry inherited (timeEventLookup s) nm _
               (replacesProto_own inherited _ _ _ Hlive)).
Qed.

(** C3.  When the live ledger holds an entry for [name] whose offset
    differs from the argument, [setFrameEvent(name, offset, preserve)]
    clears [cached], sets [preserveEvents] to [preserve] ([true] when left
    out), puts into both ledgers under [name] the record with [targetTime
    = initialTime + offset] and the new [offset], and dispatches, within
    the call, the records of the whole live ledger as it then is. *)
Theorem setFrameEvent_updates (inherited : string -> bool) (nm : string)
    (offset' : float) (preserve : option bool) (s : Scene) (current : TimeEvent) :
  own (timeEventLookup s) !! nm = Some current →
  JS.strict_equal (offset current) offset' = false →
  let s' := setFrameEvent inherited nm offset' preserve s in
  let event := mkTimeEvent (name current) (initialTime current)
                 (Some (JS.ToNumber (initialTime current) + offset')%float)
                 (Some offset') in
  cached s' = false
  ∧ preserveEvents s' = default true preserve
  ∧ timeEventLookup s'
    = mkEventLookup (<[nm := event]> (own (timeEventLookup s))) (proto (timeEventLookup s))
  ∧ storedEventLookup s' = assign inherited (storedEventLookup s) nm event
  ∧ get inherited (timeEventLookup s') nm = FEvent event
  ∧ get inherited (storedEventLookup s') nm = FEvent event
  ∧ timeEventsChanged s' = timeEventsChanged s ++ [timeEvents s']
  ∧ (∀ e, e ∈ timeEvents s' ↔ ∃ k, own (timeEventLookup s') !! k = Some e).
Proof.
  intros Hlive Hdiff s' event. subst s'.
  rewrite (setFrameEvent_own inherited nm offset' preserve s current Hlive Hdiff).
  cbv zeta. fold event. simpl. do 4 (split; [done|]).
  split; [unfold get; simpl; by rewrite lookup_insert_eq|].
  split; [apply get_assign|]. split; [done|].
  intros e. apply elem_of_timeEvents.
Qed.


(** ** [getFrameEvent]: the returned frame *)

(** C1, as the code has it.  [getFrameEvent(name)] returns [firstFrame +
    secondsToFrames(initialTime + offset)] of the event that
    [timeEventLookup[name]] gives after the call (there always is one).
    In particular, when the project converts frame 0 to 0 seconds, 0
    seconds to frame 0 and 1 second to frame 30 (as at 30 frames per
    second), for a scene with [firstFrame = 0] at frame 0 in which
    neither ledger gives anything for ["in"], the first
    [getFrameEvent("in")] returns 0 and, after
    [setFrameEvent("in", 1.0)], the next one returns 30. *)
Theorem getFrameEvent_returns (inherited : string -> bool) (f2s s2f : float -> float)
    (nm : string) (s : Scene) :
  (∃ event,
      get inherited (timeEventLookup (getFrameEvent inherited f2s s2f nm s).2) nm
      = FEvent event
      ∧ (getFrameEvent inherited f2s s2f nm s).1
        = Some (firstFrame s
                + s2f (JS.ToNumber (initialTime event) + JS.ToNumber (offset event)))%float)
  ∧ (f2s 0%float = 0%float → s2f 0%float = 0%float → s2f 1%float = 30%float →
     firstFrame s = 0%float → frame (project s) = 0%float →
     get inherited (timeEventLookup s) "in" = FUndefined →
     get inherited (storedEventLookup s) "in" = FUndefined →
     let first := getFrameEvent inherited f2s s2f "in" s in
     first.1 = Some 0%float
     ∧ (getFrameEvent inherited f2s s2f "in"
          (setFrameEvent inherited "in" 1 None first.2)).1
       = Some 30%float).
Proof.
  split.
  - destruct (getFrameEvent_update_live inherited f2s nm s) as (event & Hev & _).
    exists event. split; [exact Hev|]. by apply getFrameEvent_result.
  - intros Hf0 Hs0 Hs1 Hfirst Hframe Hlive Hstored.
    assert (Hnow : currentTime f2s s = 0%float).
    { unfold currentTime. rewrite Hfirst, Hframe. exact Hf0. }
    cbv zeta.
    pose proof (getFrameEvent_update_create inherited f2s "in" s Hlive) as Hcreate.
    cbv zeta in Hcreate. rewrite Hstored, Hnow in Hcreate. simpl in Hcreate.
    set (s1 := getFrameEvent_update inherited f2s "in" s) in *.
    assert (Hown1 : own (timeEventLookup s1) !! "in" = Some (timeEvent "in" 0 0 0)).
    { rewrite Hcreate. simpl. apply lookup_insert_eq. }
    assert (Hfirst1 : firstFrame s1 = 0%float) by (by rewrite Hcreate).
    assert (Hframe1 : frame (project s1) = 0%float) by (by rewrite Hcreate).
    split.
    { rewrite (getFrameEvent_result inherited f2s s2f "in" s (timeEvent "in" 0 0 0)).
      - rewrite Hfirst. simpl. change (0 + 0)%float with 0%float. by rewrite Hs0.
      - by apply get_own. }
    change (getFrameEvent inherited f2s s2f "in" s).2 with s1.
    assert (Hdiff : JS.strict_equal (offset (timeEvent "in" 0 0 0)) 1 = false)
      by reflexivity.
    pose proof (setFrameEvent_own inherited "in" 1 None s1 _ Hown1 Hdiff) as Hset.
    cbv zeta in Hset. simpl in Hset.
    set (s2 := setFrameEvent inherited "in" 1 None s1) in *.
    assert (Hown2 : own (timeEventLookup s2) !! "in"
                    = Some (timeEvent "in" 0 (0 + 1) 1)).
    { rewrite Hset. simpl. apply lookup_insert_eq. }
    assert (Hnow2 : currentTime f2s s2 = 0%float).
    { rewrite Hset. unfold currentTime. simpl. rewrite Hfirst1, Hframe1. exact Hf0. }
    assert (Hstable : getFrameEvent_update inherited f2s "in" s2 = s2).
    { apply getFrameEvent_update_stable with (timeEvent "in" 0 (0 + 1) 1).
      - by apply get_own.
      - rewrite Hnow2. reflexivity. }
    rewrite (getFrameEvent_result inherited f2s s2f "in" s2 (timeEvent "in" 0 (0 + 1) 1)).
    + assert (Hfirst2 : firstFrame s2 = 0%float) by (by rewrite Hset).
      rewrite Hfirst2. simpl. change (0 + 1)%float with 1%float. by rewrite Hs1.
    + rewrite Hstable. by apply get_own.
Qed.

Lemma getFrameEvent_returns_witness :
  Project_framesToSeconds 30 0 = 0%float
  ∧ Project_secondsToFrames 30 0 = 0%float
  ∧ Project_secondsToFrames 30 1 = 30%float
  ∧ get Object_prototype_has (timeEventLookup scenarioScene) "in" = FUndefined
  ∧ get Object_prototype_has (storedEventLookup scenarioScene) "in" = FUndefined
  ∧ (getFrameEvent30 "in" scenarioScene).1 = Some 0%float
  ∧ (getFrameEvent30 "in"
       (setFrameEvent Object_prototype_has "in" 1 None
          (getFrameEvent30 "in" scenarioScene).2)).1 = Some 30%float.
Proof.
  split; [reflexivity|]. split; [reflexivity|]. split; [reflexivity|].
  split; [reflexivity|]. split; [reflexivity|].
  apply (getFrameEvent_returns Object_prototype_has (Project_framesToSeconds 30)
           (Project_secondsToFrames 30) "in" scenarioScene); reflexivity.
Defined.

(** C1 as stated fails for a scene that was constructed when the durable
    store already held a record for ["in"]: with [duration = 30],
    [firstFrame = 0], at frame 0 and 30 frames per second, and the stored
    event ["in"] of target time 1 s, the first [getFrameEvent("in")]
    returns frame 30, not frame 0. *)
Lemma getFrameEvent_first_stored :
  duration storedScene = 30%float
  ∧ firstFrame storedScene = 0%float
  ∧ frame (project storedScene) = 0%float
  ∧ timeEventLookup storedScene = emptyLookup
  ∧ get Object_prototype_has (storedEventLookup storedScene) "in"
    = FEvent (timeEvent "in" 0 1 1)
  ∧ (getFrameEvent30 "in" storedScene).1 = Some 30%float
  ∧ (getFrameEvent30 "in" storedScene).1 ≠ Some 0%float.
Proof.
  do 6 (split; [vm_compute; reflexivity|]).
  intros H.
  apply (f_equal (fun v => from_option (fun x => (x =? 0)%float) false v)) in H.
  vm_compute in H. discriminate.
Qed.



(** ** Repeated queries *)

Lemma getFrameEvent_update_currentTime (inherited : string -> bool)
    (f2s : float -> float) nm s :
  currentTime f2s (getFrameEvent_update inherited f2s nm s) = currentTime f2s s.
Proof.
  unfold currentTime.
  by rewrite getFrameEvent_update_project, getFrameEvent_update_firstFrame.
Qed.

(** Once the event under the name carries a time equal to itself, a
    further update step changes nothing. *)
Lemma getFrameEvent_update_idem (inherited : string -> bool)
    (f2s : float -> float) nm s :
  JS.self_equal (currentTime f2s s) = true →
  getFrameEvent_update inherited f2s nm (getFrameEvent_update inherited f2s nm s)
  = getFrameEvent_update inherited f2s nm s.
Proof.
  intros Hnum.
  destruct (getFrameEvent_update_live inherited f2s nm s) as (event & Hev & Htime).
  rewrite Hnum in Htime.
  apply getFrameEvent_update_stable with event; [done|].
  by rewrite getFrameEvent_update_currentTime.
Qed.

(** C10, as the code has it.  When [getFrameEvent(name)] is called a
    second time with the frame as it was, the time computed from it being
    equal to itself under [===] (a number, not NaN), the second call
    returns what the first returned, leaves both ledgers as the first
    call left them and dispatches nothing. *)
Theorem getFrameEvent_repeat (inherited : string -> bool) (f2s s2f : float -> float)
    (nm : string) (s : Scene) :
  JS.self_equal (currentTime f2s s) = true →
  let first := getFrameEvent inherited f2s s2f nm s in
  let second := getFrameEvent inherited f2s s2f nm first.2 in
  second.1 = first.1
  ∧ timeEventLookup second.2 = timeEventLookup first.2
  ∧ storedEventLookup second.2 = storedEventLookup first.2
  ∧ timeEventsChanged second.2 = timeEventsChanged first.2.
Proof.
  intros Hnum first second.
  assert (Hsame : second = first); [|by rewrite Hsame].
  subst second first. unfold getFrameEvent. simpl.
  by rewrite getFrameEvent_update_idem.
Qed.

Lemma getFrameEvent_repeat_witness :
  JS.self_equal (currentTime (Project_framesToSeconds 30) movedScene) = true
  ∧ (getFrameEvent30 "in" movedScene).1 = Some 60%float
  ∧ (let first := getFrameEvent30 "in" movedScene in
     let second := getFrameEvent30 "in" first.2 in
     second.1 = first.1
     ∧ timeEventLookup second.2 = timeEventLookup first.2
     ∧ storedEventLookup second.2 = storedEventLookup first.2
     ∧ timeEventsChanged second.2 = timeEventsChanged first.2).
Proof.
  split; [reflexivity|]. split; [vm_compute; reflexivity|].
  apply (getFrameEvent_repeat Object_prototype_has (Project_framesToSeconds 30)
           (Project_secondsToFrames 30) "in" movedScene).
  reflexivity.
Defined.

(** C10 as stated fails when the frame is not a number.  In a new scene
    whose project is at frame NaN, the first [getFrameEvent("in")] makes
    the event with the time NaN; the second call, the frame being what it
    was, finds that time to differ from the computed one (NaN is not
    [===] to itself), makes the event anew, writes it to the durable
    ledger and dispatches again. *)
Lemma getFrameEvent_repeat_nan :
  let first := getFrameEvent30 "in" nanScene in
  let second := getFrameEvent30 "in" first.2 in
  project first.2 = project nanScene
  ∧ own (storedEventLookup first.2) !! "in" = None
  ∧ own (storedEventLookup second.2) !! "in"
    = Some (timeEvent "in" PrimFloat.nan PrimFloat.nan PrimFloat.nan)
  ∧ length (timeEventsChanged first.2) = 1
  ∧ length (timeEventsChanged second.2) = 2.
Proof. cbv zeta. repeat split; vm_compute; reflexivity. Qed.

Lemma setFrameEvent_updates_witness :
  own (timeEventLookup scenarioScene1) !! "in" = Some (timeEvent "in" 0 0 0)
  ∧ JS.strict_equal (Some 0%float) 1 = false
  ∧ cached (setFrameEvent Object_prototype_has "in" 1 None scenarioScene1) = false
  ∧ preserveEvents (setFrameEvent Object_prototype_has "in" 1 None scenarioScene1) = true
  ∧ own (timeEventLookup (setFrameEvent Object_prototype_has "in" 1 None scenarioScene1))
      !! "in" = Some (timeEvent "in" 0 1 1)
  ∧ own (storedEventLookup (setFrameEvent Object_prototype_has "in" 1 None scenarioScene1))
      !! "in" = Some (timeEvent "in" 0 1 1).
Proof.
  assert (Hlive : own (timeEventLookup scenarioScene1) !! "in"
                  = Some (timeEvent "in" 0 0 0)) by (vm_compute; reflexivity).
  assert (Hdiff : JS.strict_equal (offset (timeEvent "in" 0 0 0)) 1 = false)
    by reflexivity.
  destruct (setFrameEvent_updates Object_prototype_has "in" 1 None scenarioScene1 _
              Hlive Hdiff) as (Hcached & Hpreserve & Hl & Hs & _).
  split; [exact Hlive|]. split; [exact Hdiff|].
  split; [exact Hcached|]. split; [exact Hpreserve|].
  split; [rewrite Hl | rewrite Hs]; vm_compute; reflexivity.
Defined.

(** ** [reload] followed by [getFrameEvent] *)

(** After [reload], the first [getFrameEvent(name)] for a name that was
    live and that plain objects do not inherit, with preserve mode off and
    at the time the live record carried, makes a record with the stored
    [targetTime] and the offset [Math.max(0, targetTime - initialTime)]. *)
Lemma reload_getFrameEvent_live (inherited : string -> bool) (f2s : float -> float)
    nm newRunner s n i t o :
  inherited nm = false →
  own (timeEventLookup s) !! nm = Some (mkTimeEvent n (Some i) (Some t) (Some o)) →
  preserveEvents s = false →
  currentTime f2s s = i →
  own (timeEventLookup (getFrameEvent_update inherited f2s nm (reload newRunner s))) !! nm
  = Some (timeEvent nm i t (JS.Math_max 0 (t - i)%float)).
Proof.
  intros Hplain Hlive Hpreserve Hnow.
  assert (Hstored : get inherited (storedEventLookup (reload newRunner s)) nm
                    = FEvent (mkTimeEvent n (Some i) (Some t) (Some o))).
  { apply get_own. destruct newRunner; simpl; by apply lookup_union_Some_l. }
  assert (Hempty : get inherited (timeEventLookup (reload newRunner s)) nm = FUndefined).
  { destruct newRunner; simpl; by apply get_emptyLookup. }
  assert (Hnow' : currentTime f2s (reload newRunner s) = i).
  { rewrite <- Hnow. by destruct newRunner. }
  assert (Hp : preserveEvents (reload newRunner s) = false).
  { rewrite <- Hpreserve. by destruct newRunner. }
  rewrite (getFrameEvent_update_create inherited f2s nm _ Hempty). cbv zeta.
  rewrite Hstored, Hnow', Hp. simpl. by rewrite lookup_insert_eq.
Qed.

(** C2, as the code has it.  For a scene with a live record for [n]
    (times [i] and [t], offset [o]), where [n] is not a name plain
    objects inherit, [reload()] followed by [getFrameEvent(n)] at a frame
    that gives the time [i] again, with preserve mode off, produces a
    record with the same [targetTime] whose offset is [Math.max(0, t - i)]
    in binary64 arithmetic.  That is [o] itself whenever [o] already is
    [Math.max(0, t - i)], in particular when [t] is [i + o] for a
    positive [o] and [(i + o) - i] gives [o] back exactly; and going
    through [reload()] and [getFrameEvent(n)] once more gives the same
    record again. *)
Theorem reload_getFrameEvent_offset (inherited : string -> bool)
    (f2s s2f : float -> float) (nm : string) (newRunner : option string)
    (s : Scene) (n : option string) (i t o : float) :
  inherited nm = false →
  own (timeEventLookup s) !! nm = Some (mkTimeEvent n (Some i) (Some t) (Some o)) →
  preserveEvents s = false →
  currentTime f2s s = i →
  let s' := (getFrameEvent inherited f2s s2f nm (reload newRunner s)).2 in
  let o' := JS.Math_max 0 (t - i)%float in
  own (timeEventLookup s') !! nm = Some (timeEvent nm i t o')
  ∧ (o = JS.Math_max 0 (t - i)%float → o' = o)
  ∧ (t = (i + o)%float → ((i + o) - i)%float = o → (0 <? o)%float = true → o' = o)
  ∧ own (timeEventLookup (getFrameEvent inherited f2s s2f nm (reload newRunner s')).2)
      !! nm
    = Some (timeEvent nm i t o').
Proof.
  intros Hplain Hlive Hpreserve Hnow s' o'.
  assert (H1 : own (timeEventLookup s') !! nm = Some (timeEvent nm i t o'))
    by (by eapply reload_getFrameEvent_live).
  split; [done|]. split; [by intros ->|].
  split; [intros Htarget Hexact Hpos; subst o';
          by rewrite Htarget, Hexact, Math_max_pos|].
  unfold getFrameEvent. simpl.
  apply (reload_getFrameEvent_live inherited f2s nm newRunner s' (Some nm) i t o');
    [done|done| |].
  - subst s'. unfold getFrameEvent. simpl.
    rewrite getFrameEvent_update_preserveEvents. by destruct newRunner.
  - subst s'. unfold getFrameEvent. simpl.
    rewrite getFrameEvent_update_currentTime. rewrite <- Hnow.
    by destruct newRunner.
Qed.

Lemma reload_getFrameEvent_offset_witness :
  Object_prototype_has "in" = false
  ∧ own (timeEventLookup
           (setFrameEvent Object_prototype_has "in" 1 (Some false) scenarioScene1)) !! "in"
    = Some (timeEvent "in" 0 1 1)
  ∧ own (timeEventLookup
           (getFrameEvent30 "in"
              (reload None
                 (setFrameEvent Object_prototype_has "in" 1 (Some false)
                    scenarioScene1))).2) !! "in"
    = Some (timeEvent "in" 0 1 1).
Proof.
  assert (Hlive : own (timeEventLookup
                         (setFrameEvent Object_prototype_has "in" 1 (Some false)
                            scenarioScene1)) !! "in"
                  = Some (timeEvent "in" 0 1 1)) by (vm_compute; reflexivity).
  split; [reflexivity|]. split; [done|].
  apply (reload_getFrameEvent_offset Object_prototype_has (Project_framesToSeconds 30)
           (Project_secondsToFrames 30) "in" None _ (Some "in") 0 1 1 eq_refl Hlive);
    reflexivity.
Defined.

(** C2 as stated fails in two ways.  By rounding: at 10 frames per second
    and frame 1 the time is 0.1; the live record of ["n"] has the offset
    0.2 (not negative) and the target time 0.1 + 0.2 =
    0.30000000000000004; preserve mode is off.  After [reload()],
    [getFrameEvent("n")] at the same frame gives the offset
    0.30000000000000004 - 0.1 = 0.20000000000000004, which is not 0.2.
    And for a name every plain object inherits: the live ledger holds under
    ["constructor"] a record with the offset 1 and the target time 1;
    after [reload()] the live ledger is a new plain object, in which
    [getFrameEvent("constructor")] finds the inherited method instead of
    nothing, so that it makes the record from that method and not from
    the durable one: the target time is lost and the offset is NaN. *)
Lemma reload_offset_not_recovered :
  (reachable30 constructorScene
   ∧ own (timeEventLookup constructorScene) !! "constructor"
     = Some (mkTimeEvent None (Some 0%float) (Some 1%float) (Some 1%float))
   ∧ preserveEvents constructorScene = false
   ∧ currentTime (Project_framesToSeconds 30) (reload None constructorScene) = 0%float
   ∧ own (timeEventLookup (getFrameEvent30 "constructor" (reload None constructorScene)).2)
       !! "constructor"
     = Some (mkTimeEvent None (Some 0%float) None (Some PrimFloat.nan)))
  ∧ reachable Object_prototype_has (Project_framesToSeconds 10)
    (Project_secondsToFrames 10) entries_stringify entries_parse roundingScene
  ∧ own (timeEventLookup roundingScene) !! "n"
    = Some (timeEvent "n" 0x1.999999999999ap-4 0x1.3333333333334p-2
              0x1.999999999999ap-3)
  ∧ (0 <=? 0x1.999999999999ap-3)%float = true
  ∧ preserveEvents roundingScene = false
  ∧ currentTime (Project_framesToSeconds 10) (reload None roundingScene)
    = 0x1.999999999999ap-4%float
  ∧ own (timeEventLookup
           (getFrameEvent Object_prototype_has (Project_framesToSeconds 10)
              (Project_secondsToFrames 10) "n" (reload None roundingScene)).2) !! "n"
    = Some (timeEvent "n" 0x1.999999999999ap-4 0x1.3333333333334p-2
              0x1.999999999999bp-3)
  ∧ 0x1.999999999999bp-3%float ≠ 0x1.999999999999ap-3%float.
Proof.
  split.
  { split; [repeat constructor|]. repeat split; vm_compute; reflexivity. }
  split; [repeat constructor|].
  do 5 (split; [vm_compute; reflexivity|]).
  intros H. apply (f_equal (fun v => (v =? 0x1.999999999999ap-3)%float)) in H.
  vm_compute in H. discriminate.
Qed.

(** ** The invariant of the ledgers *)

Lemma namesKeyed_empty : namesKeyed ∅.
Proof. intros k e n H. by rewrite lookup_empty in H. Qed.

Lemma namesKeyed_insert k e m :
  (∀ n, name e = Some n → n = k) → namesKeyed m → namesKeyed (<[k := e]> m).
Proof.
  intros Hname Hm k' e' n H Hn. destruct (decide (k = k')) as [<-|Hne].
  - rewrite lookup_insert_eq in H. injection H as <-. by apply Hname.
  - rewrite lookup_insert_ne in H by done. by eapply Hm.
Qed.

Lemma namesKeyed_union m1 m2 : namesKeyed m1 → namesKeyed m2 → namesKeyed (m1 ∪ m2).
Proof.
  intros H1 H2 k e n H. apply lookup_union_Some_raw in H as [H | [_ H]].
  - by apply H1.
  - by apply H2.
Qed.

Section Invariant.

Variable inherited : string -> bool.

Lemma assign_namesKeyed lookup key event :
  (∀ n, name event = Some n → n = key) →
  namesKeyed (own lookup) → namesKeyed (own (assign inherited lookup key event)).
Proof.
  intros Hname Hm. rewrite assign_own.
  destruct (replacesProto inherited lookup key); [done|].
  by apply namesKeyed_insert.
Qed.

(** Where [__proto__] is inherited, an assignment never makes an entry
    under it. *)
Lemma assign_noOwnProto lookup key event :
  inherited "__proto__" = true →
  own lookup !! "__proto__" = None →
  own (assign inherited lookup key event) !! "__proto__" = None.
Proof.
  intros Hin Hnone. rewrite assign_own.
  destruct (replacesProto inherited lookup key) eqn:Hrep; [done|].
  rewrite lookup_insert_ne; [done|]. intros ->.
  unfold replacesProto in Hrep. by rewrite Hnone, Hin in Hrep.
Qed.

Lemma assign_protoNameless lookup key event :
  (replacesProto inherited lookup key = true → name event = None) →
  (∀ p, proto lookup = Some p → name p = None) →
  ∀ p, proto (assign inherited lookup key event) = Some p → name p = None.
Proof.
  intros Hevent Hproto p. rewrite assign_proto.
  destruct (replacesProto inherited lookup key).
  - intros [= <-]. by apply Hevent.
  - apply Hproto.
Qed.

(** What a lookup whose named entries sit under their names, and whose
    prototype has no name, gives under a key: if it has a name, then that
    key. *)
Lemma found_name lookup key n :
  namesKeyed (own lookup) →
  (∀ p, proto lookup = Some p → name p = None) →
  name (spread (get inherited lookup key)) = Some n → n = key.
Proof.
  intros Hkeyed Hproto. unfold get.
  destruct (own lookup !! key) as [e|] eqn:Hown; simpl.
  - by apply Hkeyed.
  - unfold fromObjectPrototype.
    destruct (proto lookup) as [p|] eqn:Hp.
    + destruct (ownField p key) as [v|] eqn:Hfield.
      * unfold ownField in Hfield.
        repeat (destruct (String.eqb key _); [by destruct (_ p); simplify_eq/=|]).
        done.
      * destruct (inherited key); [|done].
        destruct (String.eqb key "__proto__"); [|done].
        simpl. by rewrite (Hproto p eq_refl).
    + destruct (inherited key); [|done]. by destruct (String.eqb key "__proto__").
Qed.

(** What such a lookup gives under a key whose assignment would replace
    the prototype has no name. *)
Lemma found_nameless lookup key :
  (∀ p, proto lookup = Some p → name p = None) →
  replacesProto inherited lookup key = true →
  name (spread (get inherited lookup key)) = None.
Proof.
  intros Hproto. unfold replacesProto, get.
  destruct (own lookup !! key); [done|].
  intros [Hin Heq%String.eqb_eq]%andb_true_iff. subst key.
  unfold fromObjectPrototype. rewrite Hin. simpl.
  destruct (proto lookup) as [p|] eqn:Hp; [|done].
  unfold ownField. simpl. by apply Hproto.
Qed.

(** A lookup whose prototype has no name gives no string. *)
Lemma get_no_string lookup key str :
  (∀ p, proto lookup = Some p → name p = None) →
  get inherited lookup key ≠ FString str.
Proof.
  intros Hproto. unfold get, fromObjectPrototype.
  destruct (own lookup !! key); [done|].
  destruct (proto lookup) as [p|] eqn:Hp.
  - destruct (ownField p key) as [v|] eqn:Hfield.
    + unfold ownField in Hfield. rewrite (Hproto p eq_refl) in Hfield.
      destruct (String.eqb key "name"); [done|].
      destruct (String.eqb key "initialTime");
        [by destruct (initialTime p); simplify_eq/=|].
      destruct (String.eqb key "targetTime");
        [by destruct (targetTime p); simplify_eq/=|].
      destruct (String.eqb key "offset");
        [by destruct (offset p); simplify_eq/=|].
      done.
    + destruct (inherited key); [|done]. by destruct (String.eqb key "__proto__").
  - destruct (inherited key); [|done]. by destruct (String.eqb key "__proto__").
Qed.

End Invariant.

Section Reachability.

Variable inherited : string -> bool.
Variable f2s : float -> float.
Variable s2f : float -> float.
Context {Text : Type}.
Variable JSON_stringify : gmap string TimeEvent -> Text.
Variable JSON_parse : Text -> list (string * TimeEvent).

(** Storing an event under a name in the live ledger, and in the durable
    one too when [both] is set, keeps a scene well formed if the event's
    name, when it has one, is that name, and if it has none when the
    assignment replaces the prototype of the live ledger. *)
Lemma store_wellFormed (both : bool) nm event s :
  wellFormed inherited s →
  (∀ n, name event = Some n → n = nm) →
  (replacesProto inherited (timeEventLookup s) nm = true → name event = None) →
  let s1 := set_timeEventLookup (assign inherited (timeEventLookup s) nm event) s in
  let s2 := if both
            then set_storedEventLookup (assign inherited (storedEventLookup s) nm event) s1
            else s1 in
  wellFormed inherited (dispatch (timeEvents s2) s2).
Proof.
  intros (Hkey & Hlive & Hstored & Hproto & Hnop) Hname Hnameless.
  destruct both; cbv zeta; unfold wellFormed; simpl.
  - split; [done|]. split; [by apply assign_namesKeyed|].
    split; [by apply assign_namesKeyed|].
    split; [by apply assign_protoNameless|].
    intros Hin. destruct (Hnop Hin). split; by apply assign_noOwnProto.
  - split; [done|]. split; [by apply assign_namesKeyed|].
    split; [done|].
    split; [by apply assign_protoNameless|].
    intros Hin. destruct (Hnop Hin). split; [by apply assign_noOwnProto|done].
Qed.

Lemma getFrameEvent_update_wellFormed nm s :
  wellFormed inherited s → wellFormed inherited (getFrameEvent_update inherited f2s nm s).
Proof.
  intros Hwf. pose proof Hwf as (_ & Hlive & _ & Hproto & _).
  assert (get inherited (timeEventLookup s) nm = FUndefined
          ∨ get inherited (timeEventLookup s) nm ≠ FUndefined) as [Hnone|Hfound]
    by (destruct (get inherited (timeEventLookup s) nm); (by left) || by right).
  - unfold getFrameEvent_update. rewrite Hnone.
    apply (store_wellFormed false); [done| |].
    + destruct (truthy _); [rewrite resync_name|]; simpl; congruence.
    + by rewrite (get_undefined_entry inherited _ _ Hnone).
  - rewrite getFrameEvent_update_found by done. cbv zeta.
    destruct (negb _); [|done].
    apply (store_wellFormed true); [done| |].
    + rewrite resync_name. simpl. intros n. by apply found_name.
    + rewrite resync_name. simpl. by apply found_nameless.
Qed.

Lemma setFrameEvent_wellFormed nm offset' preserve s :
  wellFormed inherited s → wellFormed inherited (setFrameEvent inherited nm offset' preserve s).
Proof.
  intros Hwf. pose proof Hwf as (_ & Hlive & _ & Hproto & _).
  unfold setFrameEvent. destruct (_ || _)%bool; [done|].
  apply (store_wellFormed true nm _
           (set_preserveEvents (default true preserve) (set_cached false s)));
    [done| |]; simpl.
  - intros n. by apply found_name.
  - by apply found_nameless.
Qed.

Lemma reload_wellFormed newRunner s :
  wellFormed inherited s → wellFormed inherited (reload newRunner s).
Proof.
  intros (Hkey & Hlive & Hstored & Hproto & Hnop).
  destruct newRunner; unfold wellFormed; simpl;
    (split; [done|]; split; [apply namesKeyed_empty|];
     split; [by apply namesKeyed_union|]; split; [done|];
     intros Hin; destruct (Hnop Hin) as [H1 H2];
     split; [apply lookup_empty|]; by rewrite lookup_union_None).
Qed.

(** The loop of the constructor, [storedEventLookup[event.name] = event]
    for each stored event in turn. *)
Lemma rekey_wellFormed (l : list TimeEvent) (acc : EventLookup) :
  namesKeyed (own acc) →
  (inherited "__proto__" = true → own acc !! "__proto__" = None) →
  let stored := foldl (fun lookup event =>
                         assign inherited lookup (propertyKey (name event)) event)
                  acc l in
  namesKeyed (own stored)
  ∧ (inherited "__proto__" = true → own stored !! "__proto__" = None).
Proof.
  revert acc. induction l as [|e l IH]; intros acc Hkeyed Hnop; simpl; [done|].
  apply IH.
  - apply assign_namesKeyed; [|done]. by intros n ->.
  - intros Hin. apply assign_noOwnProto; auto.
Qed.

Lemma Scene_new_wellFormed p runnerName config ls :
  wellFormed inherited (Scene_new inherited JSON_parse p runnerName config ls).
Proof.
  unfold Scene_new, wellFormed. simpl. split; [done|].
  split; [apply namesKeyed_empty|].
  assert (Hstored : ∀ stored : EventLookup,
            namesKeyed (own stored)
            ∧ (inherited "__proto__" = true → own stored !! "__proto__" = None) →
            namesKeyed (own stored)
            ∧ (∀ p0 : TimeEvent, None = Some p0 → name p0 = None)
            ∧ (inherited "__proto__" = true →
               (∅ : gmap string TimeEvent) !! "__proto__" = None
               ∧ own stored !! "__proto__" = None)).
  { intros stored [H1 H2]. split; [done|]. split; [done|].
    intros Hin. split; [apply lookup_empty|auto]. }
  apply Hstored. destruct (getItem _ ls).
  - apply rekey_wellFormed; [apply namesKeyed_empty|]. intros _. apply lookup_empty.
  - split; [apply namesKeyed_empty|]. intros _. apply lookup_empty.
Qed.

(** Every scene the code can produce is well formed. *)
Lemma reachable_wellFormed s :
  reachable inherited f2s s2f JSON_stringify JSON_parse s → wellFormed inherited s.
Proof.
  induction 1 as [p rn cfg ls | nm s _ IH | nm o pr s _ IH | s ls _ IH
                 | r s _ IH | f s _ IH | f s _ IH | f s _ IH].
  - apply Scene_new_wellFormed.
  - by apply getFrameEvent_update_wellFormed.
  - by apply setFrameEvent_wellFormed.
  - exact IH.
  - by apply reload_wellFormed.
  - exact IH.
  - exact IH.
  - exact IH.
Qed.

(** The code never spreads a string: in a scene it can produce, a lookup
    in the live ledger gives none. *)
Lemma reachable_no_string s nm str :
  reachable inherited f2s s2f JSON_stringify JSON_parse s →
  get inherited (timeEventLookup s) nm ≠ FString str.
Proof.
  intros (_ & _ & _ & Hproto & _)%reachable_wellFormed.
  by apply get_no_string.
Qed.

End Reachability.

(** ** [markAsCached] *)

(** The loop of the constructor on the entries alone. *)
Lemma rekey_lookup_other (l : list TimeEvent) (acc : gmap string TimeEvent) k :
  (∀ e, e ∈ l → propertyKey (name e) ≠ k) →
  foldl (fun lookup event => <[propertyKey (name event) := event]> lookup) acc l !! k
  = acc !! k.
Proof.
  revert acc. induction l as [|e l IH]; intros acc Hl; simpl; [done|].
  rewrite IH.
  - apply lookup_insert_ne. apply Hl. by left.
  - intros e' He'. apply Hl. by right.
Qed.

Lemma rekey_lookup_elem (l : list TimeEvent) (acc : gmap string TimeEvent) e :
  NoDup ((fun e => propertyKey (name e)) <$> l) → e ∈ l →
  foldl (fun lookup event => <[propertyKey (name event) := event]> lookup) acc l
    !! propertyKey (name e) = Some e.
Proof.
  revert acc. induction l as [|e0 l IH]; intros acc Hnd Hin; simpl.
  - by apply elem_of_nil in Hin.
  - rewrite fmap_cons in Hnd. apply NoDup_cons in Hnd as [Hfresh Hnd].
    apply elem_of_cons in Hin as [->|Hin].
    + rewrite rekey_lookup_other; [by rewrite lookup_insert_eq|].
      intros e' He' Heq. apply Hfresh. rewrite <- Heq.
      by apply (list_elem_of_fmap_2 (fun e => propertyKey (name e))).
    + by apply IH.
Qed.

(** A list holding exactly the entries of a keyed lookup, filed again as
    the constructor does, gives the entries of that lookup. *)
Lemma rekey_entries_own (m : gmap string TimeEvent) (l : list (string * TimeEvent)) :
  keyed m → l ≡ₚ map_to_list m →
  foldl (fun lookup event => <[propertyKey (name event) := event]> lookup) ∅
    (Object_values l) = m.
Proof.
  intros Hm Hl. unfold Object_values.
  assert (Hin : ∀ k e, (k, e) ∈ l ↔ m !! k = Some e).
  { intros k e. rewrite Hl. apply elem_of_map_to_list. }
  assert (Hnames : (fun e => propertyKey (name e)) <$> l.*2 = l.*1).
  { rewrite <- list_fmap_compose. apply list_fmap_ext.
    intros i [k e] Hi. simpl. apply Hm, Hin.
    by apply list_elem_of_lookup_2 in Hi. }
  apply map_eq. intros k. destruct (m !! k) as [e|] eqn:Hk.
  - rewrite <- (Hm k e Hk). apply rekey_lookup_elem.
    + rewrite Hnames, Hl. apply NoDup_fst_map_to_list.
    + apply list_elem_of_fmap. exists (k, e). split; [done|]. by apply Hin.
  - rewrite rekey_lookup_other; [apply lookup_empty|].
    intros e He Hname. apply list_elem_of_fmap in He as ([k' e'] & -> & Hin').
    apply Hin in Hin'. simpl in Hname.
    rewrite (Hm k' e' Hin') in Hname. congruence.
Qed.

(** When no event of the list is filed under an inherited [__proto__],
    the loop of the constructor only makes entries. *)
Lemma rekey_entries_only (inherited : string -> bool) (l : list TimeEvent)
    (acc : EventLookup) :
  (∀ e, e ∈ l →
        (inherited (propertyKey (name e))
         && String.eqb (propertyKey (name e)) "__proto__")%bool = false) →
  foldl (fun lookup event => assign inherited lookup (propertyKey (name event)) event)
    acc l
  = mkEventLookup
      (foldl (fun lookup event => <[propertyKey (name event) := event]> lookup)
         (own acc) l)
      (proto acc).
Proof.
  revert acc. induction l as [|e l IH]; intros acc Hl; simpl.
  - by destruct acc.
  - rewrite IH by (intros e' He'; apply Hl; by right).
    rewrite assign_entry; [done|].
    unfold replacesProto. destruct (own acc !! _); [done|]. apply Hl. by left.
Qed.




(** ** The layout loop *)

Section LayoutFacts.

Context {Value World : Type}.
Variable super_updateLayout : World -> World.
Variable wasDirty : World -> bool * World.

Abbreviation Sched := (Sched Value World).

(** The loop makes at most [limit] passes, emits nothing else, and what it
    returns is [limit] less the passes made. *)
Lemma layoutLoop_passes (limit : nat) (st : Sched) :
  ∃ k, k ≤ limit
       ∧ (layoutLoop super_updateLayout wasDirty limit st).1 = limit - k
       ∧ effects (layoutLoop super_updateLayout wasDirty limit st).2
         = effects st ++ repeat LayoutPass k.
Proof.
  revert st. induction limit as [|limit IH]; intros st; simpl;
    unfold call_wasDirty; destruct (wasDirty (world st)) as [dirty w]; simpl.
  - exists 0. by rewrite app_nil_r.
  - destruct dirty.
    + destruct (IH (call_super_updateLayout super_updateLayout (set_world w st)))
        as (k & Hk & Hleft & Heff).
      exists (S k). split; [lia|]. split; [rewrite Hleft; lia|].
      rewrite Heff. simpl. by rewrite <- app_assoc.
    + exists 0. simpl. split; [lia|]. split; [lia|]. by rewrite app_nil_r.
Qed.

(** Under a signal that is always dirty the loop uses up [limit]. *)
Lemma layoutLoop_dirty (limit : nat) (st : Sched) :
  (∀ w, (wasDirty w).1 = true) →
  (layoutLoop super_updateLayout wasDirty limit st).1 = 0
  ∧ effects (layoutLoop super_updateLayout wasDirty limit st).2
    = effects st ++ repeat LayoutPass limit.
Proof.
  intros Hdirty. revert st. induction limit as [|limit IH]; intros st; simpl;
    unfold call_wasDirty; pose proof (Hdirty (world st)) as Hd;
    destruct (wasDirty (world st)) as [dirty w]; simpl in *; subst dirty.
  - by rewrite app_nil_r.
  - destruct (IH (call_super_updateLayout super_updateLayout (set_world w st)))
      as (Hleft & Heff).
    split; [done|]. rewrite Heff. simpl. by rewrite <- app_assoc.
Qed.

Lemma call_wasDirty_effects (st : Sched) :
  effects (call_wasDirty wasDirty st).2 = effects st.
Proof. unfold call_wasDirty. by destruct (wasDirty (world st)). Qed.

(** The effects of [updateLayout]: the first pass, up to 10 more, and the
    warning exactly when all 10 were made. *)
Lemma updateLayout_effects (st : Sched) :
  ∃ k, k ≤ 10
       ∧ effects (updateLayout super_updateLayout wasDirty st).2
         = effects st ++ LayoutPass :: repeat LayoutPass k
             ++ (if Nat.eqb k 10
                 then [Warn "Layout iteration limit exceeded" None] else []).
Proof.
  unfold updateLayout. cbv zeta.
  pose proof (call_wasDirty_effects (call_super_updateLayout super_updateLayout st))
    as Hfirst.
  destruct (call_wasDirty wasDirty (call_super_updateLayout super_updateLayout st))
    as [result st0].
  destruct (layoutLoop_passes 10 st0) as (k & Hk & Hleft & Heff).
  destruct (layoutLoop super_updateLayout wasDirty 10 st0) as [limit st1].
  simpl in Hfirst, Hleft, Heff. exists k. split; [done|].
  assert (Hcase : Nat.eqb limit 0 = Nat.eqb k 10).
  { subst limit. destruct (Nat.eqb_spec k 10) as [->|Hne]; [done|].
    apply Nat.eqb_neq. lia. }
  rewrite Hcase. destruct (Nat.eqb k 10); simpl; rewrite Heff, Hfirst;
    rewrite <- !app_assoc; simpl; [done|by rewrite app_nil_r].
Qed.

End LayoutFacts.

(** C7.  Whatever the dirty signal does, [updateLayout()] returns after
    the first layout pass and at most 10 more, with the warning logged
    exactly when all 10 were made; and when the signal reports true every
    time, it returns [true] after the first pass and exactly 10 more, and
    logs the warning. *)
Theorem updateLayout_bounded {Value World : Type}
    (super_updateLayout : World -> World) (wasDirty : World -> bool * World)
    (st : Sched Value World) :
  (∃ k, k ≤ 10
        ∧ effects (updateLayout super_updateLayout wasDirty st).2
          = effects st ++ LayoutPass :: repeat LayoutPass k
              ++ (if Nat.eqb k 10
                  then [Warn "Layout iteration limit exceeded" None] else []))
  ∧ ((∀ w, (wasDirty w).1 = true) →
     (updateLayout super_updateLayout wasDirty st).1 = true
     ∧ effects (updateLayout super_updateLayout wasDirty st).2
       = effects st ++ LayoutPass :: repeat LayoutPass 10
           ++ [Warn "Layout iteration limit exceeded" None]).
Proof.
  split; [apply updateLayout_effects|].
  intros Hdirty. unfold updateLayout. cbv zeta.
  pose proof (call_wasDirty_effects wasDirty
                (call_super_updateLayout super_updateLayout st)) as Hfirst.
  assert (Hresult : (call_wasDirty wasDirty
                       (call_super_updateLayout super_updateLayout st)).1 = true).
  { unfold call_wasDirty.
    pose proof (Hdirty (world (call_super_updateLayout super_updateLayout st))) as Hd.
    by destruct (wasDirty _). }
  destruct (call_wasDirty wasDirty (call_super_updateLayout super_updateLayout st))
    as [result st0].
  destruct (layoutLoop_dirty super_updateLayout wasDirty 10 st0 Hdirty)
    as (Hleft & Heff).
  destruct (layoutLoop super_updateLayout wasDirty 10 st0) as [limit st1].
  simpl in Hfirst, Hresult, Hleft, Heff. subst limit result. simpl.
  split; [done|]. rewrite Heff, Hfirst. by rewrite <- !app_assoc.
Qed.

Lemma updateLayout_bounded_witness :
  (∀ w, (alwaysDirty w).1 = true)
  ∧ (updateLayout (fun w => w) alwaysDirty (mkSched (Value := JSValue) tt Initial [])).1
    = true
  ∧ effects (updateLayout (fun w => w) alwaysDirty
               (mkSched (Value := JSValue) tt Initial [])).2
    = LayoutPass :: repeat LayoutPass 10
        ++ [Warn "Layout iteration limit exceeded" None].
Proof.
  assert (Hdirty : ∀ w, (alwaysDirty w).1 = true) by (intros w; reflexivity).
  split; [exact Hdirty|].
  exact (proj2 (updateLayout_bounded (fun w => w) alwaysDirty
                  (mkSched (Value := JSValue) tt Initial [])) Hdirty).
Defined.

(** ** The scheduler step *)

(** One turn of the loop on a truthy value that is not a promise. *)
Lemma nextLoop_invalid_step {Value World : Type} (undefined : Value)
    (truthy isPromise : Value -> bool)
    (runner_next : Value -> World * SceneState
                   -> Value + IterResult Value * (World * SceneState))
    (settle : Value -> World * SceneState -> Value + Value * (World * SceneState))
    (super_updateLayout : World -> World) (wasDirty : World -> bool * World)
    (fuel : nat) (result : IterResult Value) (st : Sched Value World) :
  truthy (value result) = true →
  isPromise (value result) = false →
  nextLoop undefined truthy isPromise runner_next settle super_updateLayout
    wasDirty (S fuel) result st
  = match call_runner_next runner_next undefined
            (emit (Warn "Invalid value: " (Some (value result))) st) with
    | inl failure => Some failure
    | inr (result', st') =>
        nextLoop undefined truthy isPromise runner_next settle super_updateLayout
          wasDirty fuel result'
          (updateLayout super_updateLayout wasDirty st').2
    end.
Proof.
  intros Htruthy Hpromise. cbn [nextLoop]. rewrite Htruthy.
  unfold nextBody. rewrite Hpromise.
  by destruct (call_runner_next _ _ _) as [failure | [result' st']].
Qed.

(** C6.  When the routine has yielded a value that is truthy (a falsy
    value is the token that ends the step) and not a promise, the step
    warns with the value, resumes the routine with [undefined], runs the
    layout and goes on with the loop on what the routine yields next;
    the call only fails if the resumed routine itself throws. *)
Theorem next_invalid_value {Value World : Type} (undefined : Value)
    (truthy isPromise : Value -> bool)
    (runner_next : Value -> World * SceneState
                   -> Value + IterResult Value * (World * SceneState))
    (settle : Value -> World * SceneState -> Value + Value * (World * SceneState))
    (super_updateLayout : World -> World) (wasDirty : World -> bool * World)
    (fuel : nat) (result : IterResult Value) (st : Sched Value World) :
  truthy (value result) = true →
  isPromise (value result) = false →
  let warned := emit (Warn "Invalid value: " (Some (value result))) st in
  let resumed := emit (Resume undefined) warned in
  match runner_next undefined (world st, lifecycle st) with
  | inr (result', wq) =>
      let st' := (updateLayout super_updateLayout wasDirty (set_both wq resumed)).2 in
      nextLoop undefined truthy isPromise runner_next settle super_updateLayout
        wasDirty (S fuel) result st
      = nextLoop undefined truthy isPromise runner_next settle super_updateLayout
          wasDirty fuel result' st'
      ∧ ∃ k, k ≤ 10
             ∧ effects st'
               = effects st
                   ++ [Warn "Invalid value: " (Some (value result));
                       Resume undefined; LayoutPass]
                   ++ repeat LayoutPass k
                   ++ (if Nat.eqb k 10
                       then [Warn "Layout iteration limit exceeded" None] else [])
  | inl reason =>
      nextLoop undefined truthy isPromise runner_next settle super_updateLayout
        wasDirty (S fuel) result st
      = Some (Threw reason resumed)
  end.
Proof.
  intros Htruthy Hpromise warned resumed.
  rewrite nextLoop_invalid_step by done. unfold call_runner_next. simpl.
  destruct (runner_next undefined (world st, lifecycle st))
    as [reason | [result' wq]]; [done|].
  split; [done|].
  destruct (updateLayout_effects super_updateLayout wasDirty (set_both wq resumed))
    as (k & Hk & Heff).
  exists k. split; [done|]. rewrite Heff. simpl. by rewrite <- !app_assoc.
Qed.

(** A run of invalid values does not stop the step: for the scripted
    routine that yields the values [vs], none of them falsy or a promise,
    and then returns, [next] with one unit of fuel per value returns with
    the scene [Finished], having warned once for each value. *)
Lemma nextLoop_scripted {Value : Type} (undefined : Value)
    (truthy isPromise : Value -> bool) (vs : list Value) :
  truthy undefined = false →
  Forall (fun v => truthy v = true ∧ isPromise v = false) vs →
  ∀ (v : Value) (q : SceneState) (log : list (Effect Value)),
    truthy v = true → isPromise v = false →
    nextLoop undefined truthy isPromise (script_next undefined)
      (script_settle undefined) script_layout script_wasDirty
      (S (length vs)) (mkIterResult v false) (mkSched vs q log)
    = Some (Returned
              (mkSched [] Finished
                 (log ++ concat ((fun v => [Warn "Invalid value: " (Some v);
                                            Resume undefined; LayoutPass])
                                   <$> (v :: vs))))).
Proof.
  intros Hundef Hvs. induction Hvs as [|v' vs [Hv' Hp'] _ IH];
    intros v q log Hv Hp.
  - rewrite nextLoop_invalid_step by done. simpl. rewrite Hundef.
    unfold set_lifecycle, call_super_updateLayout, set_world, emit. simpl.
    by rewrite <- !app_assoc.
  - change (length (v' :: vs)) with (S (length vs)).
    rewrite nextLoop_invalid_step by done.
    unfold call_runner_next, updateLayout, call_wasDirty, call_super_updateLayout,
      set_world, emit.
    cbn -[nextLoop]. unfold set_world. cbn -[nextLoop]. rewrite IH by done.
    do 3 f_equal. rewrite fmap_cons. simpl. by rewrite <- !app_assoc.
Qed.

Lemma next_invalid_value_witness :
  js_truthy (JNumber 42) = true
  ∧ js_isPromise (JNumber 42) = false
  ∧ nextLoop JUndefined js_truthy js_isPromise (script_next JUndefined)
      (script_settle JUndefined) script_layout script_wasDirty
      1 (mkIterResult (JNumber 42) false) (mkSched [] Initial [])
    = Some (Returned
              (mkSched [] Finished
                 [Warn "Invalid value: " (Some (JNumber 42));
                  Resume JUndefined; LayoutPass])).
Proof.
  assert (Ht : js_truthy (JNumber 42) = true) by reflexivity.
  assert (Hp : js_isPromise (JNumber 42) = false) by reflexivity.
  split; [exact Ht|]. split; [exact Hp|].
  pose proof (next_invalid_value JUndefined js_truthy js_isPromise
                (script_next JUndefined) (script_settle JUndefined)
                script_layout script_wasDirty 0
                (mkIterResult (JNumber 42) false) (mkSched [] Initial [])
                Ht Hp) as [Hstep _].
  rewrite Hstep. reflexivity.
Defined.

(** The whole call of [next] on such a scripted routine. *)
Lemma next_scripted {Value : Type} (undefined : Value)
    (truthy isPromise : Value -> bool) (vs : list Value)
    (q : SceneState) (log : list (Effect Value)) :
  truthy undefined = false →
  Forall (fun v => truthy v = true ∧ isPromise v = false) vs →
  next undefined truthy isPromise (script_next undefined)
    (script_settle undefined) script_layout script_wasDirty
    (length vs) (mkSched vs q log)
  = Some (Returned
            (mkSched [] Finished
               (log ++ [SetScene; Resume undefined; LayoutPass]
                    ++ concat ((fun v => [Warn "Invalid value: " (Some v);
                                          Resume undefined; LayoutPass])
                                 <$> vs)))).
Proof.
  intros Hundef Hvs. unfold next, call_runner_next, updateLayout, call_wasDirty,
    call_super_updateLayout, set_world, emit.
  destruct Hvs as [|v vs [Hv Hp] Hvs].
  - simpl. rewrite Hundef. unfold set_lifecycle. simpl.
    by rewrite <- !app_assoc.
  - cbn -[nextLoop]. unfold set_world. cbn -[nextLoop].
    rewrite nextLoop_scripted by done.
    do 3 f_equal. rewrite fmap_cons. simpl. by rewrite <- !app_assoc.
Qed.

(** ** [Stage.render] *)

Lemma emit_emit (l1 l2 : list Stage.Effect) (st : Stage.Stage) :
  Stage.emit l2 (Stage.emit l1 st) = Stage.emit (l1 ++ l2) st.
Proof. unfold Stage.emit. simpl. by rewrite <- app_assoc. Qed.

Lemma emit_nil (st : Stage.Stage) : Stage.emit [] st = st.
Proof. destruct st. unfold Stage.emit. simpl. by rewrite app_nil_r. Qed.

(** C8, as the code has it.  When the awaited scene renders are
    fulfilled, [render(currentScene, previousScene)] is fulfilled, and its
    calls on the final context are, in order: [clearRect] over the canvas
    size; the background fill ([save], [fillStyle], [fillRect], [restore])
    when the stage has a background (a non-empty string); then, with a
    previous scene, the previous buffer before the current one when
    [previousOnTop] is false and after it when true, and, without a
    previous scene, the current buffer alone.  [previousOnTop] of the
    current scene is read exactly when there is a previous scene, and
    counts as false otherwise. *)
Theorem render_order (renderFulfils : Stage.SceneRef -> bool)
    (currentScene : Stage.SceneRef) (previousScene : option Stage.SceneRef)
    (st : Stage.Stage) :
  renderFulfils currentScene = true →
  (∀ previous, previousScene = Some previous → renderFulfils previous = true) →
  let size := Stage.canvasSize st in
  let previousOnTop := match previousScene with
                       | Some _ => Stage.previousOnTop currentScene
                       | None => false
                       end in
  ∃ new,
    Stage.render renderFulfils currentScene previousScene st
    = Stage.Fulfilled (Stage.emit new st)
    ∧ Stage.finalOps new
      = Stage.ClearRect 0 0 (Stage.width size) (Stage.height size)
        :: match Stage.background st with
           | Some bg =>
               if String.eqb bg EmptyString then []
               else [Stage.Save; Stage.FillStyle bg;
                     Stage.FillRect 0 0 (Stage.width size) (Stage.height size);
                     Stage.Restore]
           | None => []
           end
        ++ match previousScene with
           | Some _ =>
               if previousOnTop
               then [Stage.DrawImage Stage.Current 0 0;
                     Stage.DrawImage Stage.Previous 0 0]
               else [Stage.DrawImage Stage.Previous 0 0;
                     Stage.DrawImage Stage.Current 0 0]
           | None => [Stage.DrawImage Stage.Current 0 0]
           end
    ∧ Stage.readsPreviousOnTop new = bool_decide (is_Some previousScene).
Proof.
  intros Hcurrent Hprevious size previousOnTop. subst size previousOnTop.
  unfold Stage.render, Stage.renderScene.
  destruct previousScene as [previous|].
  - rewrite (Hprevious previous eq_refl), Hcurrent. simpl.
    destruct (Stage.previousOnTop currentScene);
      destruct (Stage.background st) as [bg|]; simpl;
      try destruct (String.eqb bg EmptyString); simpl;
      rewrite ?emit_emit; eexists; (split; [reflexivity|]); done.
  - rewrite Hcurrent. simpl.
    destruct (Stage.background st) as [bg|]; simpl;
      try destruct (String.eqb bg EmptyString); simpl;
      rewrite ?emit_emit; eexists; (split; [reflexivity|]); done.
Qed.

Lemma render_order_witness :
  allRender (Stage.mkSceneRef 1 true) = true
  ∧ (∀ previous, Some (Stage.mkSceneRef 0 false) = Some previous →
                 allRender previous = true)
  ∧ ∃ new,
      Stage.render allRender (Stage.mkSceneRef 1 true)
        (Some (Stage.mkSceneRef 0 false)) blurStage
      = Stage.Fulfilled (Stage.emit new blurStage)
      ∧ Stage.finalOps new
        = [Stage.ClearRect 0 0 1920 1080; Stage.Save; Stage.FillStyle "black";
           Stage.FillRect 0 0 1920 1080; Stage.Restore;
           Stage.DrawImage Stage.Current 0 0; Stage.DrawImage Stage.Previous 0 0]
      ∧ Stage.readsPreviousOnTop new = true.
Proof.
  assert (Hcurrent : allRender (Stage.mkSceneRef 1 true) = true) by reflexivity.
  assert (Hprevious : ∀ previous, Some (Stage.mkSceneRef 0 false) = Some previous →
                                  allRender previous = true)
    by (intros previous _; reflexivity).
  split; [exact Hcurrent|]. split; [exact Hprevious|].
  exact (render_order allRender (Stage.mkSceneRef 1 true)
           (Some (Stage.mkSceneRef 0 false)) blurStage Hcurrent Hprevious).
Defined.

(** C8 as stated fails without a previous scene.  Rendering a scene with
    no previous scene on a stage that has drawn nothing yet: [previousOnTop]
    counts as false, the call is fulfilled, and the calls on the final
    context are the clear, the background fill and the drawing of the
    current buffer; the previous buffer is not drawn, before or after. *)
Lemma render_without_previous :
  Stage.finalOps (Stage.effects blurStage) = []
  ∧ Stage.render allRender (Stage.mkSceneRef 1 false) None blurStage
    = Stage.Fulfilled
        (Stage.stageOf
           (Stage.render allRender (Stage.mkSceneRef 1 false) None blurStage))
  ∧ Stage.finalOps
      (Stage.effects
         (Stage.stageOf
            (Stage.render allRender (Stage.mkSceneRef 1 false) None blurStage)))
    = [Stage.ClearRect 0 0 1920 1080; Stage.Save; Stage.FillStyle "black";
       Stage.FillRect 0 0 1920 1080; Stage.Restore;
       Stage.DrawImage Stage.Current 0 0]
  ∧ Stage.DrawImage Stage.Previous 0 0
    ∉ Stage.finalOps
        (Stage.effects
           (Stage.stageOf
              (Stage.render allRender (Stage.mkSceneRef 1 false) None blurStage))).
Proof.
  split; [reflexivity|]. split; [reflexivity|].
  assert (Hops : Stage.finalOps
      (Stage.effects
         (Stage.stageOf
            (Stage.render allRender (Stage.mkSceneRef 1 false) None blurStage)))
    = [Stage.ClearRect 0 0 1920 1080; Stage.Save; Stage.FillStyle "black";
       Stage.FillRect 0 0 1920 1080; Stage.Restore;
       Stage.DrawImage Stage.Current 0 0]) by reflexivity.
  split; [exact Hops|]. rewrite Hops.
  intros Hin. repeat (apply elem_of_cons in Hin as [Heq|Hin]; [discriminate Heq|]).
  by apply elem_of_nil in Hin.
Qed.

(** ** [Stage.configure] *)


Lemma quiet_refl st : quiet st st.
Proof. repeat split; try done. exists []. by rewrite app_nil_r. Qed.

Lemma quiet_trans st1 st2 st3 : quiet st1 st2 → quiet st2 st3 → quiet st1 st3.
Proof.
  intros (Hr1 & Ha1 & Hm1 & l1 & He1 & Hn1) (Hr2 & Ha2 & Hm2 & l2 & He2 & Hn2).
  repeat split; try congruence.
  exists (l1 ++ l2). rewrite He2, He1, <- app_assoc. split; [done|].
  unfold Stage.constructsMoblur in *. by rewrite existsb_app, Hn1, Hn2.
Qed.

Lemma emit_quiet l st : Stage.constructsMoblur l = false → quiet st (Stage.emit l st).
Proof. intros Hl. repeat split; try done. by exists l. Qed.

Lemma applyColorSpace_quiet colorSpace' st :
  quiet st (Stage.applyColorSpace colorSpace' st).
Proof.
  unfold Stage.applyColorSpace. destruct (negb _); [|apply quiet_refl].
  repeat split; try done. by eexists.
Qed.

Lemma applySize_quiet size' scale' st :
  quiet st (Stage.applySize size' scale' st).
Proof.
  unfold Stage.applySize. destruct (_ || _)%bool; [|apply quiet_refl].
  repeat split; try done. eexists. simpl. rewrite <- !app_assoc. by split.
Qed.

(** C9, as the code has it.  After [configure(options)] the stage has
    an accumulator if and only if the test [motionBlur <= 1] on the sample
    count in effect (the option, or the stage's [motionBlurSamples] when
    the option is left out) fails and the capability probe reports
    support; for a sample count that is a number the test fails exactly
    when the count is greater than 1.  When the stage had an accumulator
    before the call and has one after it, it is the same instance, now
    with the stage's size and the new sample count, set through [resize]
    and [setSamples]; none was constructed. *)
Theorem configure_moblur (options : Stage.StageSettings) (support : bool)
    (st : Stage.Stage) :
  let motionBlur :=
    default (Stage.motionBlurSamples st) (Stage.opt_motionBlur options) in
  let st' := Stage.configure options support st in
  (is_Some (Stage.moblurRenderer st')
   ↔ (motionBlur <=? 1)%float = false ∧ support = true)
  ∧ (JS.self_equal motionBlur = true →
     (motionBlur <=? 1)%float = negb (1 <? motionBlur)%float)
  ∧ (∀ r, Stage.moblurRenderer st = Some r →
          is_Some (Stage.moblurRenderer st') →
          Stage.moblurRenderer st'
          = Some (Stage.mkMoblurRenderer (Stage.instance r) (Stage.size st') motionBlur)
          ∧ Stage.allocated st' = Stage.allocated st
          ∧ ∃ new, Stage.effects st' = Stage.effects st ++ new
                   ∧ Stage.constructsMoblur new = false
                   ∧ Stage.MoblurResize (Stage.instance r) (Stage.size st') ∈ new
                   ∧ Stage.MoblurSetSamples (Stage.instance r) motionBlur ∈ new).
Proof.
  intros motionBlur st'.
  assert (Hiff : ∀ A B : Prop, A ∧ B → A ∧ (JS.self_equal motionBlur = true →
            (motionBlur <=? 1)%float = negb (1 <? motionBlur)%float) ∧ B).
  { intros A B [HA HB]. split; [done|]. split; [|done].
    intros Hnum. by apply leb_false_ltb. }
  apply Hiff. clear Hiff.
  subst st'. unfold Stage.configure. fold motionBlur.
  set (background' := match Stage.opt_background options with
                      | Some (Stage.BgColor c) => Some c
                      | Some (Stage.BgString s) => Some s
                      | Some Stage.BgNull => None
                      | None => Stage.background st
                      end).
  match goal with
  | |- context [Stage.selectMoblur motionBlur support ?s1] =>
      assert (Hquiet : quiet st s1)
        by (eapply quiet_trans; [eapply quiet_trans|];
            [apply applyColorSpace_quiet | apply applySize_quiet | apply emit_quiet; done]);
      generalize dependent s1
  end.
  intros st1 (Hmr & Halloc & _ & pre & Hpre & Hprenew).
  unfold Stage.selectMoblur.
  destruct (motionBlur <=? 1)%float, support; simpl.
  1,2,4: split; [split; [by intros [? ?] | by intros [? ?]] | by intros r _ [? ?]].
  rewrite Hmr. destruct (Stage.moblurRenderer st) as [r0|] eqn:Hr.
  - unfold Stage.updateMoblur. simpl. rewrite Hmr. simpl.
    split; [by split; [|eexists]|].
    intros r [= <-] _. split; [done|]. split; [done|].
    eexists. rewrite Hpre, <- app_assoc. split; [reflexivity|].
    unfold Stage.constructsMoblur in *. rewrite existsb_app, Hprenew. simpl.
    split; [done|]. split; set_solver.
  - simpl. split; [by split; [|eexists]|]. by intros r.
Qed.

Lemma configure_moblur_witness :
  Stage.moblurRenderer blurStage
  = Some (Stage.mkMoblurRenderer 0 (Stage.mkVector2 1920 1080) 4)
  ∧ Stage.moblurRenderer (Stage.configure reblurOptions true blurStage)
    = Some (Stage.mkMoblurRenderer 0 (Stage.mkVector2 1280 720) 8)
  ∧ Stage.allocated (Stage.configure reblurOptions true blurStage)
    = Stage.allocated blurStage.
Proof.
  assert (Hr : Stage.moblurRenderer blurStage
               = Some (Stage.mkMoblurRenderer 0 (Stage.mkVector2 1920 1080) 4))
    by reflexivity.
  destruct (configure_moblur reblurOptions true blurStage) as (Hiff & _ & Hkeep).
  assert (Hafter : is_Some (Stage.moblurRenderer
                              (Stage.configure reblurOptions true blurStage)))
    by (apply Hiff; split; reflexivity).
  destruct (Hkeep _ Hr Hafter) as (Hsame & Halloc & _).
  split; [exact Hr|]. split; [exact Hsame | exact Halloc].
Defined.

(** C9 as stated fails for a sample count that is not a number.  On a
    runtime with support, [configure({motionBlur: NaN})] on a new stage
    constructs an accumulator, since [NaN <= 1] is false, although NaN is
    not greater than 1. *)
Lemma configure_moblur_nan :
  let st' := Stage.configure
               (Stage.mkStageSettings None None None (Some PrimFloat.nan) None)
               true Stage.Stage_new in
  Stage.moblurRenderer Stage.Stage_new = None
  ∧ Stage.moblurRenderer st'
    = Some (Stage.mkMoblurRenderer 0 Stage.zero PrimFloat.nan)
  ∧ (1 <? PrimFloat.nan)%float = false.
Proof. cbv zeta. repeat split; vm_compute; reflexivity. Qed.

(** [configure] never stores the sample count: [motionBlurSamples], the
    default for a call that leaves [motionBlur] out, stays what it was. *)
Lemma configure_motionBlurSamples (options : Stage.StageSettings) (support : bool)
    (st : Stage.Stage) :
  Stage.motionBlurSamples (Stage.configure options support st)
  = Stage.motionBlurSamples st.
Proof.
  unfold Stage.configure, Stage.updateMoblur, Stage.selectMoblur,
    Stage.applySize, Stage.applyColorSpace.
  repeat (match goal with
          | |- context [if ?b then _ else _] => destruct b
          | |- context [match Stage.moblurRenderer ?s with _ => _ end] =>
              destruct (Stage.moblurRenderer s)
          end; simpl); done.
Qed.

(** * Further properties of the code *)

(** ** The ledger: what [getFrameEvent] leaves alone *)

Lemma assign_own_ne (inherited : string -> bool) lookup key event other :
  other ≠ key →
  own (assign inherited lookup key event) !! other = own lookup !! other.
Proof.
  intros Hne. rewrite assign_own.
  destruct (replacesProto inherited lookup key); [done|].
  by rewrite lookup_insert_ne.
Qed.

Lemma replacesProto_other (inherited : string -> bool) lookup key :
  key ≠ "__proto__" → replacesProto inherited lookup key = false.
Proof.
  intros Hne. unfold replacesProto. destruct (own lookup !! key); [done|].
  destruct (String.eqb_spec key "__proto__"); [done|]. apply andb_false_r.
Qed.

(** X1.  [getFrameEvent(name)], for a name other than [__proto__],
    concerns [name] only: what the live and the durable ledger hold and
    give under every other name is what it was, and so are [cached], the
    preserve flag, [firstFrame] and the storage key. *)
Theorem getFrameEvent_other_names (inherited : string -> bool)
    (f2s s2f : float -> float) (nm other : string) (s : Scene) :
  nm ≠ "__proto__" →
  other ≠ nm →
  let s' := (getFrameEvent inherited f2s s2f nm s).2 in
  own (timeEventLookup s') !! other = own (timeEventLookup s) !! other
  ∧ own (storedEventLookup s') !! other = own (storedEventLookup s) !! other
  ∧ get inherited (timeEventLookup s') other = get inherited (timeEventLookup s) other
  ∧ get inherited (storedEventLookup s') other = get inherited (storedEventLookup s) other
  ∧ cached s' = cached s
  ∧ preserveEvents s' = preserveEvents s
  ∧ firstFrame s' = firstFrame s
  ∧ storageKey s' = storageKey s.
Proof.
  intros Hproto Hne s'. subst s'. unfold getFrameEvent. simpl.
  pose proof (replacesProto_other inherited (timeEventLookup s) nm Hproto) as Hlive.
  pose proof (replacesProto_other inherited (storedEventLookup s) nm Hproto) as Hstored.
  unfold getFrameEvent_update.
  destruct (get inherited (timeEventLookup s) nm); simpl;
    try (destruct (negb _); simpl; [|done]);
    rewrite ?assign_own_ne, ?get_assign_ne by done; done.
Qed.

Lemma getFrameEvent_other_names_witness :
  own (timeEventLookup movedScene) !! "in" = Some (timeEvent "in" 0 1 1)
  ∧ own (timeEventLookup (getFrameEvent30 "in" movedScene).2) !! "in"
    = Some (timeEvent "in" 1 2 1)
  ∧ own (timeEventLookup movedScene) !! "out" = Some (timeEvent "out" 0 0 0)
  ∧ own (timeEventLookup (getFrameEvent30 "in" movedScene).2) !! "out"
    = own (timeEventLookup movedScene) !! "out"
  ∧ own (storedEventLookup (getFrameEvent30 "in" movedScene).2) !! "out"
    = own (storedEventLookup movedScene) !! "out".
Proof.
  assert (Hproto : "in" ≠ "__proto__") by discriminate.
  assert (Hne : "out" ≠ "in") by discriminate.
  destruct (getFrameEvent_other_names Object_prototype_has (Project_framesToSeconds 30)
              (Project_secondsToFrames 30) "in" "out" movedScene Hproto Hne)
    as (Hlive & Hstored & _).
  do 3 (split; [vm_compute; reflexivity|]).
  split; [exact Hlive | exact Hstored].
Defined.

(** ** The ledger: how the three times of a named record hang together *)

Lemma resync_anchored (preserve : bool) (e : TimeEvent) i t o :
  initialTime e = Some i → targetTime e = Some t → offset e = Some o →
  anchored (resync preserve e).
Proof.
  intros Hi Ht Ho. destruct preserve; simpl.
  - exists i, (i + o)%float, o. rewrite Hi, Ho. simpl. repeat split; auto.
  - exists i, t, (JS.Math_max 0 (t - i)%float). rewrite Hi, Ht. simpl.
    repeat split; auto.
Qed.

(** What a lookup whose prototype has no name gives under a key, if it
    has a name, is the entry the lookup holds under that key. *)
Lemma found_named (inherited : string -> bool) lookup key :
  (∀ p, proto lookup = Some p → name p = None) →
  is_Some (name (spread (get inherited lookup key))) →
  own lookup !! key = Some (spread (get inherited lookup key)).
Proof.
  intros Hproto. unfold get.
  destruct (own lookup !! key) as [e|] eqn:Hown; simpl; [done|].
  unfold fromObjectPrototype.
  destruct (proto lookup) as [p|] eqn:Hp.
  - destruct (ownField p key) as [v|] eqn:Hfield.
    + unfold ownField in Hfield.
      repeat (destruct (String.eqb key _);
              [destruct (_ p); simplify_eq/=; by intros [? ?]|]).
      done.
    + destruct (inherited key); [|by intros [? ?]].
      destruct (String.eqb key "__proto__"); [|by intros [? ?]].
      simpl. rewrite (Hproto p eq_refl). by intros [? ?].
  - destruct (inherited key); [|by intros [? ?]].
    destruct (String.eqb key "__proto__"); by intros [? ?].
Qed.

Lemma assign_namedAnchored (inherited : string -> bool) lookup key event :
  namedAnchored (own lookup) →
  (is_Some (name event) → anchored event) →
  namedAnchored (own (assign inherited lookup key event)).
Proof.
  intros Hs Hevent k e. rewrite assign_own.
  destruct (replacesProto inherited lookup key); [apply Hs|].
  destruct (decide (key = k)) as [<-|Hne].
  - rewrite lookup_insert_eq. by intros [= <-].
  - rewrite lookup_insert_ne by done. apply Hs.
Qed.

Section LiveRecords.

Variable inherited : string -> bool.
Variable f2s : float -> float.
Variable s2f : float -> float.
Context {Text : Type}.
Variable JSON_stringify : gmap string TimeEvent -> Text.
Variable JSON_parse : Text -> list (string * TimeEvent).

Lemma getFrameEvent_update_anchored nm s :
  wellFormed inherited s →
  namedAnchored (own (timeEventLookup s)) →
  namedAnchored (own (timeEventLookup (getFrameEvent_update inherited f2s nm s))).
Proof.
  intros (_ & _ & _ & Hproto & _) Hs.
  assert (get inherited (timeEventLookup s) nm = FUndefined
          ∨ get inherited (timeEventLookup s) nm ≠ FUndefined) as [Hnone|Hfound]
    by (destruct (get inherited (timeEventLookup s) nm); (by left) || by right).
  - unfold getFrameEvent_update. rewrite Hnone. simpl.
    apply assign_namedAnchored; [done|]. intros _.
    destruct (truthy _) eqn:Htruthy; [by eapply resync_anchored|].
    destruct (get inherited (storedEventLookup s) nm); try done;
      exists (currentTime f2s s), (currentTime f2s s), 0%float; simpl;
      (do 3 (split; [done|])); by left.
  - rewrite getFrameEvent_update_found by done. cbv zeta.
    destruct (negb _); [|done]. simpl.
    apply assign_namedAnchored; [done|].
    rewrite resync_name. simpl. intros Hnamed.
    pose proof (found_named inherited _ _ Hproto Hnamed) as Hown.
    destruct (Hs _ _ Hown Hnamed) as (i & t & o & Hi & Ht & Ho & _).
    by eapply resync_anchored.
Qed.

Lemma setFrameEvent_anchored nm offset' preserve s :
  wellFormed inherited s →
  namedAnchored (own (timeEventLookup s)) →
  namedAnchored (own (timeEventLookup (setFrameEvent inherited nm offset' preserve s))).
Proof.
  intros (_ & _ & _ & Hproto & _) Hs. unfold setFrameEvent.
  destruct (_ || _)%bool; [done|]. simpl.
  apply assign_namedAnchored; [done|]. simpl. intros Hnamed.
  pose proof (found_named inherited _ _ Hproto Hnamed) as Hown.
  destruct (Hs _ _ Hown Hnamed) as (i & t & o & Hi & Ht & Ho & _).
  rewrite (get_own inherited _ _ _ Hown). simpl.
  exists i, (i + offset')%float, offset'. rewrite Hi. simpl.
  do 3 (split; [done|]). by right; left.
Qed.

(** X2.  In every scene the code can produce, each live record that has
    a name has its three times and is anchored: its target is its time
    and its offset 0, or its target is its time plus its offset, or its
    offset is [Math.max(0, targetTime - initialTime)]. *)
Theorem live_records_anchored (s : Scene) (nm : string) (e : TimeEvent) :
  reachable inherited f2s s2f JSON_stringify JSON_parse s →
  own (timeEventLookup s) !! nm = Some e →
  is_Some (name e) →
  anchored e.
Proof.
  intros Hreach. revert nm e. change (namedAnchored (own (timeEventLookup s))).
  induction Hreach as [p rn cfg ls | nm0 s Hs IH | nm0 o pr s Hs IH | s ls _ IH
                      | r s _ IH | f s _ IH | f s _ IH | f s _ IH];
    try exact IH.
  - intros nm e. simpl. by rewrite lookup_empty.
  - apply getFrameEvent_update_anchored; [|done].
    by eapply reachable_wellFormed.
  - apply setFrameEvent_anchored; [|done].
    by eapply reachable_wellFormed.
  - intros nm e. destruct r; simpl; by rewrite lookup_empty.
Qed.

End LiveRecords.

Lemma live_records_anchored_witness :
  reachable Object_prototype_has (Project_framesToSeconds 10)
    (Project_secondsToFrames 10) entries_stringify entries_parse roundingScene
  ∧ own (timeEventLookup roundingScene) !! "n"
    = Some (timeEvent "n" 0x1.999999999999ap-4 0x1.3333333333334p-2
              0x1.999999999999ap-3)
  ∧ anchored (timeEvent "n" 0x1.999999999999ap-4 0x1.3333333333334p-2
                0x1.999999999999ap-3).
Proof.
  assert (Hreach : reachable Object_prototype_has (Project_framesToSeconds 10)
                     (Project_secondsToFrames 10) entries_stringify entries_parse
                     roundingScene)
    by repeat constructor.
  assert (Hlive : own (timeEventLookup roundingScene) !! "n"
                  = Some (timeEvent "n" 0x1.999999999999ap-4 0x1.3333333333334p-2
                            0x1.999999999999ap-3)) by (vm_compute; reflexivity).
  split; [exact Hreach|]. split; [exact Hlive|].
  apply (live_records_anchored _ _ _ _ _ roundingScene "n" _ Hreach Hlive).
  by eexists.
Defined.

(** ** The ledger: the clamp of the offset *)

Lemma ltb_leb (a b : float) : (a <? b)%float = true → (a <=? b)%float = true.
Proof.
  rewrite FloatAxioms.ltb_spec, FloatAxioms.leb_spec.
  unfold SpecFloat.SFltb, SpecFloat.SFleb.
  by destruct (SpecFloat.SFcompare (Prim2SF a) (Prim2SF b)) as [[]|].
Qed.

(** [Math.max(0, x)] is NaN or at least 0. *)
Lemma Math_max_nonneg (x : float) :
  JS.self_equal (JS.Math_max 0 x) = true → (0 <=? JS.Math_max 0 x)%float = true.
Proof.
  unfold JS.Math_max.
  destruct (PrimFloat.is_nan 0 || PrimFloat.is_nan x)%bool; [done|].
  destruct (0 <? x)%float eqn:Hpos; [intros _; by apply ltb_leb|].
  by destruct (x <? 0)%float.
Qed.

(** X3.  With preserve mode off, whenever [getFrameEvent(name)] makes or
    re-times the event under [name] (the lookup gave nothing, or
    something that does not carry the current time), the offset of the
    event it leaves under [name] is not a negative number: it is NaN or
    at least 0. *)
Theorem getFrameEvent_offset_clamped (inherited : string -> bool)
    (f2s s2f : float -> float) (nm : string) (s : Scene) :
  preserveEvents s = false →
  JS.strict_equal (field initialTime (get inherited (timeEventLookup s) nm))
    (currentTime f2s s) = false →
  ∃ event o,
    get inherited (timeEventLookup (getFrameEvent inherited f2s s2f nm s).2) nm
    = FEvent event
    ∧ offset event = Some o
    ∧ (JS.self_equal o = true → (0 <=? o)%float = true).
Proof.
  intros Hpreserve Hmoved. unfold getFrameEvent. simpl.
  assert (get inherited (timeEventLookup s) nm = FUndefined
          ∨ get inherited (timeEventLookup s) nm ≠ FUndefined) as [Hnone|Hfound]
    by (destruct (get inherited (timeEventLookup s) nm); (by left) || by right).
  - rewrite getFrameEvent_update_create by done. cbv zeta. rewrite Hpreserve.
    remember (get inherited (storedEventLookup s) nm) as stored eqn:Hstored.
    clear Hstored.
    destruct (truthy stored) eqn:Htruthy; simpl;
      eexists _, _;
      (split; [unfold get; simpl; by rewrite lookup_insert_eq|]); simpl;
      (split; [reflexivity|]).
    + apply Math_max_nonneg.
    + by destruct stored.
  - rewrite getFrameEvent_update_found by done. cbv zeta.
    rewrite Hmoved, Hpreserve. simpl.
    eexists _, _. split; [apply get_assign|]. simpl.
    split; [reflexivity|]. apply Math_max_nonneg.
Qed.

Lemma getFrameEvent_offset_clamped_witness :
  preserveEvents (set_frame 5 (reload None roundingScene)) = false
  ∧ get Object_prototype_has (timeEventLookup (set_frame 5 (reload None roundingScene)))
      "n" = FUndefined
  ∧ ∃ event o,
      get Object_prototype_has
        (timeEventLookup
           (getFrameEvent Object_prototype_has (Project_framesToSeconds 10)
              (Project_secondsToFrames 10) "n"
              (set_frame 5 (reload None roundingScene))).2) "n" = FEvent event
      ∧ offset event = Some o
      ∧ (JS.self_equal o = true → (0 <=? o)%float = true).
Proof.
  split; [reflexivity|]. split; [reflexivity|].
  apply (getFrameEvent_offset_clamped Object_prototype_has (Project_framesToSeconds 10)
           (Project_secondsToFrames 10) "n"
           (set_frame 5 (reload None roundingScene))); reflexivity.
Defined.

(** ** The ledger: moving an event *)

(** X4.  When the live ledger holds an entry for [name] that carries the
    current time and another offset than the one given,
    [setFrameEvent(name, offset)] followed by [getFrameEvent(name)]
    returns [firstFrame + secondsToFrames(initialTime + offset)] for the
    new offset, and the [getFrameEvent] changes nothing and notifies
    nobody. *)
Theorem setFrameEvent_then_getFrameEvent (inherited : string -> bool)
    (f2s s2f : float -> float) (nm : string)
    (offset' : float) (preserve : option bool) (s : Scene) (current : TimeEvent) :
  own (timeEventLookup s) !! nm = Some current →
  JS.strict_equal (initialTime current) (currentTime f2s s) = true →
  JS.strict_equal (offset current) offset' = false →
  getFrameEvent inherited f2s s2f nm (setFrameEvent inherited nm offset' preserve s)
  = (Some (firstFrame s + s2f (JS.ToNumber (initialTime current) + offset'))%float,
     setFrameEvent inherited nm offset' preserve s).
Proof.
  intros Hcur Htime Hdiff.
  pose proof (setFrameEvent_own inherited nm offset' preserve s current Hcur Hdiff)
    as Hset. cbv zeta in Hset.
  set (s' := setFrameEvent inherited nm offset' preserve s) in *.
  set (event := mkTimeEvent (name current) (initialTime current)
                  (Some (JS.ToNumber (initialTime current) + offset')%float)
                  (Some offset')) in *.
  assert (Hlive : get inherited (timeEventLookup s') nm = FEvent event).
  { rewrite Hset. apply get_own. simpl. apply lookup_insert_eq. }
  assert (Hnow : currentTime f2s s' = currentTime f2s s) by (by rewrite Hset).
  assert (Hfirst : firstFrame s' = firstFrame s) by (by rewrite Hset).
  assert (Hstable : getFrameEvent_update inherited f2s nm s' = s').
  { apply getFrameEvent_update_stable with event; [done|]. by rewrite Hnow. }
  unfold getFrameEvent. rewrite Hstable, Hlive, Hfirst. done.
Qed.

Lemma setFrameEvent_then_getFrameEvent_witness :
  own (timeEventLookup scenarioScene1) !! "in" = Some (timeEvent "in" 0 0 0)
  ∧ JS.strict_equal (Some 0%float)
      (currentTime (Project_framesToSeconds 30) scenarioScene1) = true
  ∧ JS.strict_equal (Some 0%float) 2 = false
  ∧ (getFrameEvent30 "in"
       (setFrameEvent Object_prototype_has "in" 2 None scenarioScene1)).1
    = Some 60%float.
Proof.
  assert (Hcur : own (timeEventLookup scenarioScene1) !! "in"
                 = Some (timeEvent "in" 0 0 0)) by (vm_compute; reflexivity).
  assert (Htime : JS.strict_equal (initialTime (timeEvent "in" 0 0 0))
                    (currentTime (Project_framesToSeconds 30) scenarioScene1)
                  = true) by reflexivity.
  assert (Hdiff : JS.strict_equal (offset (timeEvent "in" 0 0 0)) 2 = false)
    by reflexivity.
  split; [exact Hcur|]. split; [exact Htime|]. split; [exact Hdiff|].
  unfold getFrameEvent30.
  rewrite (setFrameEvent_then_getFrameEvent Object_prototype_has
             (Project_framesToSeconds 30) (Project_secondsToFrames 30) "in" 2 None
             scenarioScene1 _ Hcur Htime Hdiff).
  reflexivity.
Defined.

(** ** The ledger: what the listeners are told *)

Lemma names_sublist (l : list (string * TimeEvent)) :
  (∀ k e n, (k, e) ∈ l → name e = Some n → n = k) →
  omap name l.*2 `sublist_of` l.*1.
Proof.
  induction l as [|[k e] l IH]; intros Hl; simpl; [constructor|].
  assert (Hrest : omap name l.*2 `sublist_of` l.*1).
  { apply IH. intros k' e' n Hin. apply Hl. by right. }
  destruct (name e) as [n|] eqn:Hn.
  - rewrite (Hl k e n); [by constructor|by left|done].
  - by constructor.
Qed.

Lemma namesKeyed_names_NoDup (m : gmap string TimeEvent) :
  namesKeyed m → NoDup (omap name (map_to_list m).*2).
Proof.
  intros Hm. apply sublist_NoDup with (map_to_list m).*1.
  - apply NoDup_fst_map_to_list.
  - apply names_sublist. intros k e n Hin. apply Hm.
    by apply elem_of_map_to_list.
Qed.

Lemma getFrameEvent_update_log (inherited : string -> bool) (f2s : float -> float) nm s :
  timeEventsChanged (getFrameEvent_update inherited f2s nm s) = timeEventsChanged s
  ∨ timeEventsChanged (getFrameEvent_update inherited f2s nm s)
    = timeEventsChanged s ++ [timeEvents (getFrameEvent_update inherited f2s nm s)].
Proof.
  unfold getFrameEvent_update.
  destruct (get inherited (timeEventLookup s) nm); try destruct (negb _); simpl; auto.
Qed.

Lemma setFrameEvent_log (inherited : string -> bool) nm offset' preserve s :
  timeEventsChanged (setFrameEvent inherited nm offset' preserve s) = timeEventsChanged s
  ∨ timeEventsChanged (setFrameEvent inherited nm offset' preserve s)
    = timeEventsChanged s ++ [timeEvents (setFrameEvent inherited nm offset' preserve s)].
Proof. unfold setFrameEvent. destruct (_ || _)%bool; simpl; auto. Qed.

(** X5.  In every scene the code can produce, no payload ever dispatched
    to the listeners of [TimeEventsChanged] holds two events that have
    the same name, and neither does [timeEvents].  (Events without a
    name, as the ones made under an inherited name, are not counted.) *)
Theorem payloads_have_unique_names (inherited : string -> bool)
    (f2s s2f : float -> float) {Text : Type}
    (JSON_stringify : gmap string TimeEvent -> Text)
    (JSON_parse : Text -> list (string * TimeEvent)) (s : Scene) :
  reachable inherited f2s s2f JSON_stringify JSON_parse s →
  NoDup (omap name (timeEvents s))
  ∧ Forall (fun payload => NoDup (omap name payload)) (timeEventsChanged s).
Proof.
  intros Hreach. split.
  { apply namesKeyed_names_NoDup.
    by apply (reachable_wellFormed _ _ _ _ _ s Hreach). }
  induction Hreach as [p rn cfg ls | nm s Hs IH | nm o pr s Hs IH | s ls _ IH
                      | r s _ IH | f s _ IH | f s _ IH | f s _ IH];
    try exact IH.
  - constructor.
  - pose proof (reachable_wellFormed _ _ _ _ _ _ Hs) as Hwf.
    apply (getFrameEvent_update_wellFormed inherited f2s nm) in Hwf as (_ & Hlive & _).
    simpl. destruct (getFrameEvent_update_log inherited f2s nm s) as [-> | ->]; [done|].
    apply Forall_app. split; [done|]. constructor; [|constructor].
    by apply namesKeyed_names_NoDup.
  - pose proof (reachable_wellFormed _ _ _ _ _ _ Hs) as Hwf.
    apply (setFrameEvent_wellFormed inherited nm o pr) in Hwf as (_ & Hlive & _).
    destruct (setFrameEvent_log inherited nm o pr s) as [-> | ->]; [done|].
    apply Forall_app. split; [done|]. constructor; [|constructor].
    by apply namesKeyed_names_NoDup.
  - destruct r; simpl; (apply Forall_app; split; [done|]);
      constructor; constructor.
Qed.

Lemma payloads_have_unique_names_witness :
  reachable30 movedScene
  ∧ omap name (timeEvents movedScene) ≡ₚ ["in"; "out"]
  ∧ NoDup (omap name (timeEvents movedScene))
  ∧ Forall (fun payload => NoDup (omap name payload)) (timeEventsChanged movedScene).
Proof.
  assert (Hreach : reachable30 movedScene) by repeat constructor.
  split; [exact Hreach|].
  split; [vm_compute; apply Permutation_swap || reflexivity|].
  exact (payloads_have_unique_names _ _ _ _ _ movedScene Hreach).
Defined.

(** ** The ledger: a new session *)

(** The durable ledger a scene constructed after [markAsCached] starts
    with. *)
Lemma Scene_new_after_markAsCached (inherited : string -> bool)
    (f2s s2f : float -> float) {Text : Type}
    (JSON_stringify : gmap string TimeEvent -> Text)
    (JSON_parse : Text -> list (string * TimeEvent))
    (s : Scene) (ls : gmap string Text) p runnerName config :
  reachable inherited f2s s2f JSON_stringify JSON_parse s →
  keyed (own (storedEventLookup s)) →
  JSON_parse (JSON_stringify (own (storedEventLookup s)))
    ≡ₚ map_to_list (own (storedEventLookup s)) →
  storageKey (Scene_new inherited JSON_parse p runnerName config
                (markAsCached JSON_stringify s ls).2) = storageKey s →
  storedEventLookup (Scene_new inherited JSON_parse p runnerName config
                       (markAsCached JSON_stringify s ls).2)
  = mkEventLookup (own (storedEventLookup s)) None.
Proof.
  intros Hreach Hkeyed Hjson Hsame.
  destruct (reachable_wellFormed inherited f2s s2f _ _ s Hreach) as (_ & _ & _ & _ & Hnop).
  unfold Scene_new, markAsCached, getItem, setItem in *. simpl in *.
  rewrite Hsame, lookup_insert_eq.
  rewrite rekey_entries_only.
  - simpl. f_equal. by apply rekey_entries_own.
  - intros e He. unfold Object_values in He.
    apply list_elem_of_fmap in He as ([k e'] & -> & Hin). simpl.
    rewrite Hjson in Hin. apply elem_of_map_to_list in Hin.
    rewrite (Hkeyed k e' Hin).
    destruct (inherited k) eqn:Hk; [|done]. simpl.
    destruct (String.eqb k "__proto__") eqn:Heq; [|done].
    apply String.eqb_eq in Heq. subst k.
    destruct (Hnop Hk) as [_ Hnone]. congruence.
Qed.

(** X6.  The target time of an event survives into the next session.
    When a scene that holds a durable record under [name], a name plain
    objects do not inherit, is marked as cached (every record of the
    durable ledger sitting under the key its name stands for, and the
    ledger coming through JSON unchanged), the first [getFrameEvent(name)]
    of a scene constructed afterwards with the same storage key makes a
    record with the stored [targetTime] and the offset [Math.max(0,
    targetTime - initialTime)] for the time of the request, returns the
    frame of time plus that offset, and leaves the durable ledger as it
    was read. *)
Theorem targetTime_survives_session (inherited : string -> bool)
    (f2s s2f : float -> float) {Text : Type}
    (JSON_stringify : gmap string TimeEvent -> Text)
    (JSON_parse : Text -> list (string * TimeEvent))
    (s : Scene) (ls : gmap string Text) (nm : string) (r : TimeEvent) (t : float)
    p runnerName config :
  reachable inherited f2s s2f JSON_stringify JSON_parse s →
  keyed (own (storedEventLookup s)) →
  JSON_parse (JSON_stringify (own (storedEventLookup s)))
    ≡ₚ map_to_list (own (storedEventLookup s)) →
  inherited nm = false →
  own (storedEventLookup s) !! nm = Some r →
  targetTime r = Some t →
  let fresh := Scene_new inherited JSON_parse p runnerName config
                 (markAsCached JSON_stringify s ls).2 in
  storageKey fresh = storageKey s →
  let now := f2s (frame p - 0)%float in
  let event := timeEvent nm now t (JS.Math_max 0 (t - now)%float) in
  (getFrameEvent inherited f2s s2f nm fresh).1
  = Some (0 + s2f (now + JS.Math_max 0 (t - now)))%float
  ∧ own (timeEventLookup (getFrameEvent inherited f2s s2f nm fresh).2) !! nm = Some event
  ∧ storedEventLookup (getFrameEvent inherited f2s s2f nm fresh).2
    = mkEventLookup (own (storedEventLookup s)) None.
Proof.
  intros Hreach Hkeyed Hjson Hplain Hr Ht fresh Hsame now event.
  assert (Hstored : storedEventLookup fresh = mkEventLookup (own (storedEventLookup s)) None)
    by (by eapply Scene_new_after_markAsCached).
  assert (Hnone : get inherited (timeEventLookup fresh) nm = FUndefined)
    by (by apply get_emptyLookup).
  pose proof (getFrameEvent_update_create inherited f2s nm fresh Hnone) as Hupdate.
  cbv zeta in Hupdate. rewrite Hstored in Hupdate.
  rewrite (get_own inherited (mkEventLookup (own (storedEventLookup s)) None) nm r Hr)
    in Hupdate.
  simpl in Hupdate. rewrite Ht in Hupdate. simpl in Hupdate.
  change (currentTime f2s fresh) with now in Hupdate.
  split; [|split].
  - rewrite (getFrameEvent_result inherited f2s s2f nm fresh event); [done|].
    rewrite Hupdate. unfold get. simpl. by rewrite lookup_insert_eq.
  - unfold getFrameEvent. simpl. rewrite Hupdate. simpl. apply lookup_insert_eq.
  - unfold getFrameEvent. simpl. rewrite Hupdate. simpl. exact Hstored.
Qed.

Lemma targetTime_survives_session_witness :
  own (storedEventLookup scenarioScene2) !! "in" = Some (timeEvent "in" 0 1 1)
  ∧ (getFrameEvent30 "in"
       (newScene 15 (markAsCached entries_stringify scenarioScene2 ∅).2)).1
    = Some 30%float
  ∧ own (timeEventLookup
           (getFrameEvent30 "in"
              (newScene 15 (markAsCached entries_stringify scenarioScene2 ∅).2)).2)
      !! "in"
    = Some (timeEvent "in" 0x1p-1 1 0x1p-1).
Proof.
  assert (Hreach : reachable30 scenarioScene2) by repeat constructor.
  assert (Hown : own (storedEventLookup scenarioScene2)
                 = {["in" := timeEvent "in" 0 1 1]}) by (vm_compute; reflexivity).
  assert (Hkeyed : keyed (own (storedEventLookup scenarioScene2))).
  { rewrite Hown. intros k e [<- <-]%lookup_singleton_Some. reflexivity. }
  assert (Hjson : entries_parse (entries_stringify (own (storedEventLookup scenarioScene2)))
                  ≡ₚ map_to_list (own (storedEventLookup scenarioScene2)))
    by (vm_compute; reflexivity).
  assert (Hr : own (storedEventLookup scenarioScene2) !! "in"
               = Some (timeEvent "in" 0 1 1)) by (by rewrite Hown).
  split; [exact Hr|].
  destruct (targetTime_survives_session _ _ _ _ _ scenarioScene2 ∅ "in" _ 1
              (mkProject "project" 15) "scene" None Hreach Hkeyed Hjson eq_refl Hr
              eq_refl eq_refl)
    as (Hframe & Hlive & _).
  split; [unfold getFrameEvent30, newScene; rewrite Hframe; reflexivity
         | unfold getFrameEvent30, newScene; rewrite Hlive; reflexivity].
Defined.

(** ** The lifecycle *)

(** Settles the equations between constructors in a goal, which then is a
    matter of propositional logic. *)
Ltac settle_equations :=
  repeat match goal with
         | |- context [@eq ?T ?a ?b] =>
             let H := fresh in
             first [ assert (H : a = b ↔ True) by (split; [tauto | intros _; reflexivity])
                   | assert (H : a = b ↔ False) by (split; [discriminate | tauto]) ];
             rewrite H; clear H
         end.

Lemma lifecycle_run_cons op ops q :
  (lifecycle_run (op :: ops) q).1 = (lifecycle_run ops (lifecycle_step op q).1).1.
Proof.
  destruct op, q; simpl; by destruct (lifecycle_run ops _).
Qed.

Lemma pair_sublist_cons {A} (x y z : A) (l : list A) :
  [x; y] `sublist_of` z :: l ↔ [x; y] `sublist_of` l ∨ (x = z ∧ y ∈ l).
Proof.
  rewrite sublist_cons_r. split.
  - intros [?|(l' & [= -> <-] & ?%singleton_sublist_l)]; auto.
  - intros [?|[-> ?%singleton_sublist_l]]; eauto.
Qed.

(** From any state: when the scene may transition out after a run. *)
Lemma canTransitionOut_run ops q :
  canTransitionOut (lifecycle_run ops q).1 = true
  ↔ canTransitionOut q = true
    ∨ RoutineDone ∈ ops
    ∨ (q = AfterTransitionIn ∧ CanFinish ∈ ops)
    ∨ (q = Initial ∧ [TransitionEnds; CanFinish] `sublist_of` ops).
Proof.
  revert q. induction ops as [|op ops IH]; intros q.
  - simpl. split; [by left|].
    intros [?|[?%elem_of_nil|[[_ ?%elem_of_nil]|[_ ?%sublist_nil_r]]]]; done.
  - rewrite lifecycle_run_cons, IH, !elem_of_cons, pair_sublist_cons.
    assert (Hsub : [TransitionEnds; CanFinish] `sublist_of` ops → CanFinish ∈ ops).
    { intros Hs. eapply elem_of_sublist; [|exact Hs]. do 2 constructor. }
    destruct op, q; simpl; settle_equations; tauto.
Qed.

(** X7.  After a [reset], whatever calls of [transition] and [canFinish]
    and ends of the routine follow in whatever order: the scene is
    finished exactly when the routine has ended, and it may transition
    out exactly when the routine has ended or a [transition] that ran to
    its end was followed, at some point, by a [canFinish]. *)
Theorem lifecycle_after_reset (ops : list LifecycleOp) :
  (isFinished (lifecycle_run ops Initial).1 = true ↔ RoutineDone ∈ ops)
  ∧ (canTransitionOut (lifecycle_run ops Initial).1 = true
     ↔ RoutineDone ∈ ops ∨ [TransitionEnds; CanFinish] `sublist_of` ops).
Proof.
  split.
  - assert (Hgen : ∀ q, isFinished (lifecycle_run ops q).1 = true
                        ↔ q = Finished ∨ RoutineDone ∈ ops).
    { induction ops as [|op ops IH]; intros q.
      - simpl. rewrite elem_of_nil. destruct q; simpl; settle_equations; tauto.
      - rewrite lifecycle_run_cons, IH, elem_of_cons.
        destruct op, q; simpl; settle_equations; tauto. }
    rewrite Hgen. settle_equations. tauto.
  - rewrite canTransitionOut_run. simpl. settle_equations. tauto.
Qed.

Lemma lifecycle_run_warnings op ops q :
  (lifecycle_run (op :: ops) q).2
  = (lifecycle_step op q).2 ++ (lifecycle_run ops (lifecycle_step op q).1).2.
Proof. destruct op, q; simpl; by destruct (lifecycle_run ops _). Qed.

(** The calls of [transition] and [canFinish] that can still go through
    without a warning. *)
Lemma lifecycle_warnings_from ops q :
  length (lifecycle_run ops q).2 ≤ countCalls ops
  ∧ countCalls ops
    ≤ length (lifecycle_run ops q).2
      + match q with Initial => 2 | AfterTransitionIn => 1 | _ => 0 end.
Proof.
  revert q. induction ops as [|op ops IH]; intros q; [destruct q; simpl; lia|].
  rewrite lifecycle_run_warnings, length_app.
  destruct op, q; simpl;
    match goal with
    | |- context [lifecycle_run ops ?q'] => destruct (IH q')
    end; lia.
Qed.

(** X8.  After a [reset], at most two of the calls of [transition] and
    [canFinish] go through without a warning (the one that takes the scene
    past its transition in and the one that lets it transition out); every
    other one logs a warning, and nothing else does. *)
Theorem lifecycle_warnings (ops : list LifecycleOp) :
  length (lifecycle_run ops Initial).2 ≤ countCalls ops
  ∧ countCalls ops ≤ length (lifecycle_run ops Initial).2 + 2.
Proof. apply (lifecycle_warnings_from ops Initial). Qed.

(** ** Node ids *)

Lemma generateNodeId_id inherited sceneName type counters :
  inherited type = false →
  numeric counters →
  (nextId counters type ≤ 9007199254740992)%N →
  (generateNodeId inherited sceneName type counters).1
  = nodeIdText sceneName type (nextId counters type).
Proof.
  unfold generateNodeId, nextId, increment, nodeIdText.
  intros -> Hnum. specialize (Hnum type).
  destruct (counters !! type) as [[c|]|]; [|done..].
  intros Hc. simpl. by rewrite (proj2 (N.ltb_lt c 9007199254740992)) by lia.
Qed.

Lemma generateNodeId_nextId inherited sceneName type counters other :
  inherited type = false →
  numeric counters →
  (nextId counters type ≤ 9007199254740992)%N →
  nextId (generateNodeId inherited sceneName type counters).2 other
  = if decide (other = type) then (nextId counters other + 1)%N
    else nextId counters other.
Proof.
  unfold generateNodeId, nextId, increment.
  intros -> Hnum. specialize (Hnum type).
  destruct (counters !! type) as [[c|]|] eqn:Hc; [|done|]; simpl; intros Hle.
  - rewrite (proj2 (N.ltb_lt c 9007199254740992)) by lia.
    destruct (decide (other = type)) as [->|Hne].
    + by rewrite lookup_insert_eq, Hc.
    + by rewrite lookup_insert_ne.
  - destruct (decide (other = type)) as [->|Hne].
    + by rewrite lookup_insert_eq, Hc.
    + by rewrite lookup_insert_ne.
Qed.

Lemma generateNodeId_numeric inherited sceneName type counters :
  inherited type = false →
  numeric counters →
  numeric (generateNodeId inherited sceneName type counters).2.
Proof.
  unfold generateNodeId, numeric. intros -> Hnum other.
  pose proof (Hnum type) as Htype.
  destruct (counters !! type) as [[c|]|] eqn:Hc; [|done|]; simpl;
    (destruct (decide (other = type)) as [->|Hne];
     [by rewrite lookup_insert_eq | by rewrite lookup_insert_ne]).
Qed.

Lemma generateNodeIds_cons inherited sceneName type types counters :
  generateNodeIds inherited sceneName (type :: types) counters
  = ((generateNodeId inherited sceneName type counters).1
       :: (generateNodeIds inherited sceneName types
             (generateNodeId inherited sceneName type counters).2).1,
     (generateNodeIds inherited sceneName types
        (generateNodeId inherited sceneName type counters).2).2).
Proof.
  cbn [generateNodeIds].
  destruct (generateNodeId inherited sceneName type counters) as [id c1].
  cbn [fst snd]. by destruct (generateNodeIds inherited sceneName types c1).
Qed.

(** After calls for the types of a list, the next id of a type has grown
    by the number of calls made for it. *)
Lemma generateNodeIds_nextId inherited sceneName types counters :
  Forall (fun t => inherited t = false) types →
  numeric counters →
  (∀ type, nextId counters type + N.of_nat (length types) ≤ 9007199254740992)%N →
  ∀ type,
    nextId (generateNodeIds inherited sceneName types counters).2 type
    = (nextId counters type
       + N.of_nat (length (filter (fun t => t = type) types)))%N.
Proof.
  intros Htypes. revert counters.
  induction Htypes as [|t types Hown _ IH]; intros counters Hnum Hbound type.
  - simpl. lia.
  - rewrite generateNodeIds_cons. simpl.
    assert (Ht : (nextId counters t ≤ 9007199254740992)%N).
    { specialize (Hbound t). simpl in Hbound. lia. }
    rewrite IH.
    + rewrite generateNodeId_nextId by done. rewrite filter_cons.
      destruct (decide (type = t)) as [->|Hne].
      * rewrite decide_True by done. simpl. lia.
      * rewrite decide_False by done. done.
    + by apply generateNodeId_numeric.
    + intros type'. rewrite generateNodeId_nextId by done.
      specialize (Hbound type'). simpl in Hbound.
      destruct (decide (type' = t)); lia.
Qed.

(** X9.  Counted from a scene with no counters (as after [reset]), and
    for types that are not names a plain object inherits, the id of a
    call of [generateNodeId(type)] is the scene's name, the type and the
    number of earlier calls for that same type, joined by full stops,
    however many calls for other types came in between (as long as fewer
    than 2^53 calls were made). *)
Theorem generateNodeId_counts (inherited : string -> bool)
    (sceneName type : string) (types : list string) :
  inherited type = false →
  Forall (fun t => inherited t = false) types →
  (N.of_nat (length types) < 9007199254740992)%N →
  (generateNodeId inherited sceneName type
     (generateNodeIds inherited sceneName types ∅).2).1
  = sceneName +:+ "." +:+ type +:+ "."
      +:+ pretty (N.of_nat (length (filter (fun t => t = type) types))).
Proof.
  intros Hown Htypes Hbound.
  assert (Hempty : numeric ∅) by (intros t; by rewrite lookup_empty).
  assert (Hnum : numeric (generateNodeIds inherited sceneName types ∅).2).
  { clear Hbound. revert Hempty. generalize (∅ : gmap string Counter).
    induction Htypes as [|t types Ht _ IH]; intros counters Hnum; [done|].
    rewrite generateNodeIds_cons. simpl. by apply IH, generateNodeId_numeric. }
  assert (Hnext : nextId (generateNodeIds inherited sceneName types ∅).2 type
                  = N.of_nat (length (filter (fun t => t = type) types))).
  { rewrite generateNodeIds_nextId; [done..|].
    intros t. unfold nextId. rewrite lookup_empty. lia. }
  rewrite generateNodeId_id, Hnext; [done..|].
  rewrite Hnext. pose proof (length_filter (fun t => t = type) types). lia.
Qed.

Lemma generateNodeId_counts_witness :
  Object_prototype_has "Rect" = false
  ∧ Forall (fun t => Object_prototype_has t = false) ["Rect"; "Circle"; "Rect"]
  ∧ (N.of_nat (length ["Rect"; "Circle"; "Rect"]) < 9007199254740992)%N
  ∧ (generateNodeId Object_prototype_has "scene" "Rect"
       (generateNodeIds Object_prototype_has "scene" ["Rect"; "Circle"; "Rect"] ∅).2).1
    = "scene.Rect.2".
Proof.
  assert (Hown : Object_prototype_has "Rect" = false) by reflexivity.
  assert (Htypes : Forall (fun t => Object_prototype_has t = false)
                     ["Rect"; "Circle"; "Rect"]) by (repeat constructor).
  assert (Hbound : (N.of_nat (length ["Rect"; "Circle"; "Rect"]) < 9007199254740992)%N)
    by (vm_compute; reflexivity).
  split; [exact Hown|]. split; [exact Htypes|]. split; [exact Hbound|].
  rewrite (generateNodeId_counts Object_prototype_has "scene" "Rect"
             ["Rect"; "Circle"; "Rect"] Hown Htypes Hbound).
  reflexivity.
Defined.

(** The decimal text of a number has no full stop in it. *)
Lemma pretty_N_go_dot (x : N) (s s1 s2 : string) :
  pretty_N_go x s = s1 +:+ "." +:+ s2 → ∃ s1', s = s1' +:+ "." +:+ s2.
Proof.
  revert s s1. induction (N.lt_wf_0 x) as [x _ IH]; intros s s1.
  assert (x = 0 ∨ 0 < x)%N as [->|Hpos] by lia.
  - rewrite pretty_N_go_0. eauto.
  - rewrite pretty_N_go_step by done. intros Hgo.
    apply IH in Hgo as [s1' Hs]; [|by apply N.div_lt].
    destruct s1' as [|a s1']; simpl in Hs.
    + exfalso. injection Hs as Hchar _. revert Hchar.
      unfold pretty_N_char. by repeat case_match.
    + injection Hs as _ Hs. eauto.
Qed.

Lemma pretty_N_no_dot (x : N) (s1 s2 : string) : pretty x ≠ s1 +:+ "." +:+ s2.
Proof.
  unfold pretty, pretty_N. case_decide.
  - destruct s1 as [|a [|b s1]]; simpl; discriminate.
  - intros [s1' Hs]%pretty_N_go_dot. by destruct s1'.
Qed.

(** A type and a text without a full stop, joined by a full stop, can be
    told apart again. *)
Lemma dot_join_inj (t1 t2 d1 d2 : string) :
  (∀ s1 s2, d1 ≠ s1 +:+ "." +:+ s2) → (∀ s1 s2, d2 ≠ s1 +:+ "." +:+ s2) →
  t1 +:+ "." +:+ d1 = t2 +:+ "." +:+ d2 → t1 = t2 ∧ d1 = d2.
Proof.
  intros Hd1 Hd2. revert t2.
  induction t1 as [|a t1 IH]; intros [|b t2]; simpl; intros Heq.
  - injection Heq as Heq. by subst.
  - injection Heq as _ Heq. by destruct (Hd1 t2 d2).
  - injection Heq as _ Heq. by destruct (Hd2 t1 d1).
  - injection Heq as Hab Heq. apply IH in Heq as [Ht Hd]. by subst.
Qed.

Lemma nodeIdText_inj sceneName t1 t2 (k1 k2 : N) :
  nodeIdText sceneName t1 k1 = nodeIdText sceneName t2 k2 → t1 = t2 ∧ k1 = k2.
Proof.
  unfold nodeIdText. intros Heq%(inj (String.app sceneName)).
  simpl in Heq. injection Heq as Heq.
  apply dot_join_inj in Heq as [-> Hk%(inj pretty)];
    [done | apply pretty_N_no_dot | apply pretty_N_no_dot].
Qed.

(** The ids of a run of calls are pairwise different, and each is made
    from a number that is at least the next id its type had at the
    start. *)
Lemma generateNodeIds_fresh inherited sceneName types counters :
  Forall (fun t => inherited t = false) types →
  numeric counters →
  (∀ type, nextId counters type + N.of_nat (length types) ≤ 9007199254740992)%N →
  NoDup (generateNodeIds inherited sceneName types counters).1
  ∧ ∀ id, id ∈ (generateNodeIds inherited sceneName types counters).1 →
          ∃ type k, id = nodeIdText sceneName type k
                    ∧ (nextId counters type ≤ k)%N.
Proof.
  intros Htypes. revert counters.
  induction Htypes as [|t types Hown _ IH]; intros counters Hnum Hbound.
  - simpl. split; [constructor|]. by intros id ?%elem_of_nil.
  - rewrite generateNodeIds_cons. simpl.
    assert (Ht : (nextId counters t ≤ 9007199254740992)%N).
    { specialize (Hbound t). simpl in Hbound. lia. }
    destruct (IH (generateNodeId inherited sceneName t counters).2)
      as [Hnodup Hlater].
    { by apply generateNodeId_numeric. }
    { intros type'. rewrite generateNodeId_nextId by done.
      specialize (Hbound type'). simpl in Hbound.
      destruct (decide (type' = t)); lia. }
    rewrite generateNodeId_id by done. split.
    + constructor; [|done]. intros (type & k & Heq & Hk)%Hlater.
      apply nodeIdText_inj in Heq as [<- <-].
      rewrite generateNodeId_nextId, decide_True in Hk by done. lia.
    + intros id [->|Hin]%elem_of_cons.
      * exists t, (nextId counters t). split; [done|lia].
      * destruct (Hlater id Hin) as (type & k & -> & Hk).
        exists type, k. split; [done|].
        rewrite generateNodeId_nextId in Hk by done.
        destruct (decide (type = t)); lia.
Qed.

(** X10.  Counted from a scene with no counters, and for types that are
    not names a plain object inherits, no two calls of [generateNodeId]
    ever return the same id, whatever their types (as long as no more
    than 2^53 calls are made). *)
Theorem generateNodeId_unique (inherited : string -> bool) (sceneName : string)
    (types : list string) :
  Forall (fun t => inherited t = false) types →
  (N.of_nat (length types) ≤ 9007199254740992)%N →
  NoDup (generateNodeIds inherited sceneName types ∅).1.
Proof.
  intros Htypes Hbound. apply generateNodeIds_fresh; [done| |].
  - intros t. by rewrite lookup_empty.
  - intros type. unfold nextId. rewrite lookup_empty. lia.
Qed.

Lemma generateNodeId_unique_witness :
  Forall (fun t => Object_prototype_has t = false)
    ["Rect"; "Circle"; "Rect"; "Rect.0"]
  ∧ (N.of_nat (length ["Rect"; "Circle"; "Rect"; "Rect.0"]) ≤ 9007199254740992)%N
  ∧ (generateNodeIds Object_prototype_has "scene"
       ["Rect"; "Circle"; "Rect"; "Rect.0"] ∅).1
    = ["scene.Rect.0"; "scene.Circle.0"; "scene.Rect.1"; "scene.Rect.0.0"]
  ∧ NoDup (generateNodeIds Object_prototype_has "scene"
             ["Rect"; "Circle"; "Rect"; "Rect.0"] ∅).1.
Proof.
  assert (Htypes : Forall (fun t => Object_prototype_has t = false)
                     ["Rect"; "Circle"; "Rect"; "Rect.0"]) by (repeat constructor).
  assert (Hbound : (N.of_nat (length ["Rect"; "Circle"; "Rect"; "Rect.0"])
                    ≤ 9007199254740992)%N) by (vm_compute; discriminate).
  split; [exact Htypes|]. split; [exact Hbound|]. split; [reflexivity|].
  exact (generateNodeId_unique Object_prototype_has "scene" _ Htypes Hbound).
Defined.

(** X11.  For a name that a plain object inherits, such as [toString],
    the ids are not told apart: counted from a scene with no counters,
    every call of [generateNodeId] for it returns the same text, which
    ends in NaN. *)
Theorem generateNodeId_inherited (inherited : string -> bool)
    (sceneName type : string) (n : nat) :
  inherited type = true →
  (generateNodeIds inherited sceneName (replicate n type) ∅).1
  = replicate n (sceneName +:+ "." +:+ type +:+ ".NaN").
Proof.
  intros Hin.
  assert (Hgo : ∀ counters,
            (counters !! type = None ∨ counters !! type = Some CountNaN) →
            (generateNodeIds inherited sceneName (replicate n type) counters).1
            = replicate n (sceneName +:+ "." +:+ type +:+ ".NaN")).
  { induction n as [|n IH]; intros counters Hc; [done|].
    cbn [replicate]. rewrite generateNodeIds_cons. cbn [fst].
    unfold generateNodeId.
    destruct Hc as [Hc|Hc]; rewrite Hc, ?Hin; cbn [fst snd increment counterText].
    - f_equal. apply IH. destruct (String.eqb type "__proto__"); [by left|].
      right. by rewrite lookup_insert_eq.
    - f_equal. apply IH. right. by rewrite lookup_insert_eq. }
  apply Hgo. left. by rewrite lookup_empty.
Qed.

Lemma generateNodeId_inherited_witness :
  Object_prototype_has "toString" = true
  ∧ (generateNodeIds Object_prototype_has "scene" ["toString"; "toString"] ∅).1
    = ["scene.toString.NaN"; "scene.toString.NaN"].
Proof.
  split; [reflexivity|].
  exact (generateNodeId_inherited Object_prototype_has "scene" "toString" 2 eq_refl).
Defined.

(** ** The layout loop on cascading invalidation *)

Lemma layoutLoop_cascade {Value : Type} (limit : nat) (st : Sched Value nat) :
  layoutLoop cascade_layout cascade_wasDirty limit st
  = (limit - Nat.min (world st) limit,
     mkSched (world st - Nat.min (world st) limit) (lifecycle st)
       (effects st ++ repeat LayoutPass (Nat.min (world st) limit))).
Proof.
  revert st. induction limit as [|limit IH]; intros [pending q log];
    cbn [layoutLoop]; unfold call_wasDirty, call_super_updateLayout, set_world, emit;
    cbn [world lifecycle effects cascade_wasDirty cascade_layout].
  - by rewrite Nat.min_0_r, !Nat.sub_0_r, app_nil_r.
  - destruct pending as [|pending]; cbn [Nat.eqb negb].
    + simpl. by rewrite app_nil_r.
    + rewrite IH. cbn [world lifecycle effects Nat.pred].
      rewrite <- Nat.succ_min_distr. simpl. by rewrite <- app_assoc.
Qed.

(** X12.  For a scene graph that needs [pending] layout passes to settle,
    [updateLayout()] makes the first pass and as many more as are still
    needed, but no more than 10; it returns whether the graph was dirty
    after the first pass; and it logs the warning exactly when 11 or more
    passes were needed: also with exactly 11, where the last pass it makes
    settles the graph. *)
Theorem updateLayout_cascade {Value : Type} (st : Sched Value nat) :
  let pending := world st in
  let result := updateLayout cascade_layout cascade_wasDirty st in
  result.1 = negb (pending <=? 1)
  ∧ world result.2 = pending - 1 - Nat.min (pending - 1) 10
  ∧ lifecycle result.2 = lifecycle st
  ∧ effects result.2
    = effects st ++ repeat LayoutPass (1 + Nat.min (pending - 1) 10)
        ++ (if 11 <=? pending
            then [Warn "Layout iteration limit exceeded" None] else []).
Proof.
  destruct st as [pending q log]. cbv zeta. cbn [world lifecycle effects].
  unfold updateLayout, call_super_updateLayout, call_wasDirty, set_world, emit.
  cbn [world lifecycle effects cascade_wasDirty fst snd].
  rewrite layoutLoop_cascade. cbn [world lifecycle effects fst snd].
  unfold cascade_layout.
  replace (Nat.pred pending) with (pending - 1) by lia.
  assert (Hwarn : Nat.eqb (10 - Nat.min (pending - 1) 10) 0 = (11 <=? pending)).
  { destruct (Nat.leb_spec 11 pending).
    - apply Nat.eqb_eq. lia.
    - apply Nat.eqb_neq. lia. }
  rewrite Hwarn. split.
  { destruct (Nat.leb_spec pending 1); [apply negb_false_iff, Nat.eqb_eq
                                       |apply negb_true_iff, Nat.eqb_neq]; lia. }
  destruct (11 <=? pending); cbn [world lifecycle effects];
    (split; [done|]); (split; [done|]);
    rewrite <- ?app_assoc; simpl; rewrite ?app_nil_r; done.
Qed.

(** ** The scheduler step with promises *)

(** One turn of the loop on a promise. *)
Lemma nextLoop_promise_step {Value World : Type} (undefined : Value)
    (truthy isPromise : Value -> bool)
    (runner_next : Value -> World * SceneState
                   -> Value + IterResult Value * (World * SceneState))
    (settle : Value -> World * SceneState -> Value + Value * (World * SceneState))
    (super_updateLayout : World -> World) (wasDirty : World -> bool * World)
    (fuel : nat) (result : IterResult Value) (st : Sched Value World) :
  truthy (value result) = true →
  isPromise (value result) = true →
  nextLoop undefined truthy isPromise runner_next settle super_updateLayout
    wasDirty (S fuel) result st
  = match settle (value result) (world st, lifecycle st) with
    | inl reason => Some (Threw reason (emit (Await (value result)) st))
    | inr (v, wq) =>
        match call_runner_next runner_next v
                (set_both wq (emit (Await (value result)) st)) with
        | inl failure => Some failure
        | inr (result', st') =>
            nextLoop undefined truthy isPromise runner_next settle
              super_updateLayout wasDirty fuel result'
              (updateLayout super_updateLayout wasDirty st').2
        end
    end.
Proof.
  intros Htruthy Hpromise. cbn [nextLoop]. rewrite Htruthy.
  unfold nextBody. rewrite Hpromise. cbn [world lifecycle emit].
  destruct (settle _ _) as [reason | [v wq]]; [done|].
  by destruct (call_runner_next _ _ _) as [failure | [result' st']].
Qed.

Section ScriptedPromises.

Context {Value : Type}.
Variable undefined : Value.
Variable truthy isPromise : Value -> bool.
Variable outcome : Value -> Value + Value.

(** One turn of the loop body on the scripted routine. *)
Lemma scripted_nextBody (v : Value) (w : list Value) (q : SceneState)
    (log : list (Effect Value)) :
  passes truthy isPromise outcome v →
  nextBody undefined isPromise (script_next undefined) (script_settle_as outcome)
    script_layout script_wasDirty (mkIterResult v false) (mkSched w q log)
  = inr (match w with
         | v' :: _ => mkIterResult v' false
         | [] => mkIterResult undefined true
         end,
         mkSched (tail w) q (log ++ turn_effects undefined isPromise outcome v)).
Proof.
  intros [Hv Hp]. unfold nextBody, turn_effects. cbn [value].
  destruct (isPromise v).
  - destruct (Hp eq_refl) as [x Hx].
    unfold script_settle_as. rewrite Hx.
    destruct w; cbn;
      unfold set_world, set_both, call_super_updateLayout, emit, script_layout;
      cbn; by rewrite <- !app_assoc.
  - destruct w; cbn;
      unfold set_world, set_both, call_super_updateLayout, emit, script_layout;
      cbn; by rewrite <- !app_assoc.
Qed.

Lemma nextLoop_scripted_settled (vs : list Value) :
  truthy undefined = false →
  Forall (passes truthy isPromise outcome) vs →
  ∀ (v : Value) (q : SceneState) (log : list (Effect Value)) (fuel : nat),
    passes truthy isPromise outcome v → length vs < fuel →
    nextLoop undefined truthy isPromise (script_next undefined)
      (script_settle_as outcome) script_layout script_wasDirty
      fuel (mkIterResult v false) (mkSched vs q log)
    = Some (Returned
              (mkSched [] Finished
                 (log ++ concat (turn_effects undefined isPromise outcome
                                   <$> (v :: vs))))).
Proof.
  intros Hundef Hvs. induction Hvs as [|v' vs Hv' _ IH];
    intros v q log [|fuel] Hv Hfuel; simpl in Hfuel; try lia;
    cbn [nextLoop value]; rewrite (proj1 Hv), scripted_nextBody by done.
  - destruct fuel; cbn [nextLoop value done]; rewrite Hundef;
      cbn; by rewrite app_nil_r.
  - cbn [tail]. rewrite IH by (done || lia).
    do 3 f_equal. rewrite (fmap_cons _ v). cbn [concat]. by rewrite <- app_assoc.
Qed.

(** The loop up to a promise that is rejected. *)
Lemma nextLoop_scripted_rejected (pre : list Value) (r reason : Value)
    (rest : list Value) :
  Forall (passes truthy isPromise outcome) pre →
  truthy r = true → isPromise r = true → outcome r = inl reason →
  ∀ (v : Value) (w : list Value) (q : SceneState) (log : list (Effect Value))
    (fuel : nat),
    v :: w = pre ++ r :: rest → length pre < fuel →
    nextLoop undefined truthy isPromise (script_next undefined)
      (script_settle_as outcome) script_layout script_wasDirty
      fuel (mkIterResult v false) (mkSched w q log)
    = Some (Threw reason
              (mkSched rest q
                 (log ++ concat (turn_effects undefined isPromise outcome <$> pre)
                      ++ [Await r]))).
Proof.
  intros Hpre Hr Hpr Hout. induction Hpre as [|v' pre Hv' _ IH];
    intros v w q log [|fuel] Hseq Hfuel; simpl in Hfuel; try lia;
    simpl in Hseq; injection Hseq as -> ->.
  - rewrite nextLoop_promise_step by done.
    unfold script_settle_as. cbn. by rewrite Hout.
  - cbn [nextLoop value]. rewrite (proj1 Hv'), scripted_nextBody by done.
    destruct pre as [|v'' pre]; cbn [app tail].
    + rewrite (IH r rest) by (done || lia). cbn. by rewrite <- !app_assoc.
    + rewrite (IH v'' (pre ++ r :: rest)) by (done || simpl in *; lia).
      do 3 f_equal. rewrite (fmap_cons _ v'). cbn [concat].
      by rewrite <- !app_assoc.
Qed.

End ScriptedPromises.

(** X13.  For a routine that yields a list of values, none of them falsy
    and every promise among them fulfilled, and then returns, [next()]
    returns with the scene [Finished]: a promise is awaited and the
    routine resumed with what it was fulfilled with, any other value is
    warned about and the routine resumed with [undefined], and the layout
    runs after every resumption. *)
Theorem next_scripted_settles {Value : Type} (undefined : Value)
    (truthy isPromise : Value -> bool) (outcome : Value -> Value + Value)
    (vs : list Value) (q : SceneState) (log : list (Effect Value)) (fuel : nat) :
  truthy undefined = false →
  Forall (passes truthy isPromise outcome) vs →
  length vs ≤ fuel →
  next undefined truthy isPromise (script_next undefined)
    (script_settle_as outcome) script_layout script_wasDirty fuel
    (mkSched vs q log)
  = Some (Returned
            (mkSched [] Finished
               (log ++ [SetScene; Resume undefined; LayoutPass]
                    ++ concat (turn_effects undefined isPromise outcome <$> vs)))).
Proof.
  intros Hundef Hvs Hfuel.
  unfold next, call_runner_next, updateLayout, call_wasDirty,
    call_super_updateLayout, set_both, set_world, emit.
  destruct Hvs as [|v vs Hv Hvs]; cbn -[nextLoop].
  - destruct fuel; cbn; rewrite Hundef; unfold set_lifecycle; cbn;
      by rewrite <- !app_assoc.
  - simpl in Hfuel. unfold set_world, set_both. cbn -[nextLoop].
    rewrite (nextLoop_scripted_settled undefined truthy isPromise outcome vs)
      by (done || lia).
    do 3 f_equal. by rewrite <- !app_assoc.
Qed.

Lemma next_scripted_settles_witness :
  js_truthy JUndefined = false
  ∧ Forall (passes js_truthy js_isPromise js_outcome) [JPromise 7; JNumber 42]
  ∧ next JUndefined js_truthy js_isPromise (script_next JUndefined)
      (script_settle_as js_outcome) script_layout script_wasDirty 2
      (mkSched [JPromise 7; JNumber 42] Initial [])
    = Some (Returned
              (mkSched [] Finished
                 [SetScene; Resume JUndefined; LayoutPass;
                  Await (JPromise 7); Resume (JNumber 7); LayoutPass;
                  Warn "Invalid value: " (Some (JNumber 42)); Resume JUndefined;
                  LayoutPass])).
Proof.
  assert (Hundef : js_truthy JUndefined = false) by reflexivity.
  assert (Hvs : Forall (passes js_truthy js_isPromise js_outcome)
                  [JPromise 7; JNumber 42]).
  { repeat constructor; [by eexists | discriminate]. }
  split; [exact Hundef|]. split; [exact Hvs|].
  rewrite (next_scripted_settles JUndefined js_truthy js_isPromise js_outcome
             [JPromise 7; JNumber 42] Initial [] 2 Hundef Hvs); [reflexivity|].
  simpl. lia.
Defined.

(** X14.  When the routine yields a promise that is rejected, after values
    that the loop got past, [next()] fails with the reason of the
    rejection: the routine is not resumed again (what it had still to
    yield stays unyielded), no layout pass follows the wait, and the
    scene's state is not set to [Finished]. *)
Theorem next_scripted_rejection {Value : Type} (undefined : Value)
    (truthy isPromise : Value -> bool) (outcome : Value -> Value + Value)
    (pre : list Value) (r reason : Value) (rest : list Value)
    (q : SceneState) (log : list (Effect Value)) (fuel : nat) :
  Forall (passes truthy isPromise outcome) pre →
  truthy r = true → isPromise r = true → outcome r = inl reason →
  length pre < fuel →
  next undefined truthy isPromise (script_next undefined)
    (script_settle_as outcome) script_layout script_wasDirty fuel
    (mkSched (pre ++ r :: rest) q log)
  = Some (Threw reason
            (mkSched rest q
               (log ++ [SetScene; Resume undefined; LayoutPass]
                    ++ concat (turn_effects undefined isPromise outcome <$> pre)
                    ++ [Await r]))).
Proof.
  intros Hpre Hr Hpr Hout Hfuel.
  unfold next, call_runner_next, updateLayout, call_wasDirty,
    call_super_updateLayout, set_both, set_world, emit.
  destruct (pre ++ r :: rest) as [|v w] eqn:Hseq.
  { by destruct pre. }
  cbn -[nextLoop]. unfold set_world, set_both. cbn -[nextLoop].
  rewrite (nextLoop_scripted_rejected undefined truthy isPromise outcome
             pre r reason rest) by done.
  do 3 f_equal. by rewrite <- !app_assoc.
Qed.

Lemma next_scripted_rejection_witness :
  Forall (passes js_truthy js_isPromise js_outcome) [JNumber 42]
  ∧ js_outcome (JPromise (-1)) = inl (JString "failed")
  ∧ next JUndefined js_truthy js_isPromise (script_next JUndefined)
      (script_settle_as js_outcome) script_layout script_wasDirty 2
      (mkSched [JNumber 42; JPromise (-1); JString "later"] Initial [])
    = Some (Threw (JString "failed")
              (mkSched [JString "later"] Initial
                 [SetScene; Resume JUndefined; LayoutPass;
                  Warn "Invalid value: " (Some (JNumber 42)); Resume JUndefined;
                  LayoutPass; Await (JPromise (-1))])).
Proof.
  assert (Hpre : Forall (passes js_truthy js_isPromise js_outcome) [JNumber 42]).
  { repeat constructor. discriminate. }
  assert (Hout : js_outcome (JPromise (-1)) = inl (JString "failed")) by reflexivity.
  split; [exact Hpre|]. split; [exact Hout|].
  assert (Hfuel : length [JNumber 42] < 2) by (simpl; lia).
  exact (next_scripted_rejection JUndefined js_truthy js_isPromise js_outcome
           [JNumber 42] (JPromise (-1)) (JString "failed") [JString "later"]
           Initial [] 2 Hpre eq_refl eq_refl Hout Hfuel).
Defined.

(** ** The stage: more of [render] and [configure] *)

(** What [render] leaves behind is the stage it started from, with more
    effects, none of them on a canvas's context or size and none the
    construction of an accumulator. *)
Lemma render_emits (renderFulfils : Stage.SceneRef -> bool)
    (currentScene : Stage.SceneRef) (previousScene : option Stage.SceneRef)
    (st : Stage.Stage) :
  ∃ new,
    Stage.stageOf (Stage.render renderFulfils currentScene previousScene st)
    = Stage.emit new st
    ∧ List.filter touchesSurface new = []
    ∧ Stage.constructsMoblur new = false.
Proof.
  unfold Stage.render, Stage.renderScene.
  destruct previousScene as [previous|]; simpl;
    try destruct (renderFulfils previous); simpl;
    destruct (renderFulfils currentScene); simpl;
    try destruct (Stage.previousOnTop currentScene);
    try (destruct (Stage.background st) as [bg|]; simpl;
         try destruct (String.eqb bg EmptyString)); simpl;
    rewrite ?emit_emit; eexists; (split; [reflexivity|]); done.
Qed.

(** X15.  [render] has the previous scene (when there is one) rendered
    into the previous buffer and then the current scene into the current
    buffer, each once and both through the accumulator the stage has when
    the call starts, or directly when it has none; the current scene is
    not rendered when the previous one failed to.  The call changes no
    field of the stage. *)
Theorem render_scene_renders (renderFulfils : Stage.SceneRef -> bool)
    (currentScene : Stage.SceneRef) (previousScene : option Stage.SceneRef)
    (st : Stage.Stage) :
  let moblur := Stage.instance <$> Stage.moblurRenderer st in
  ∃ new,
    Stage.stageOf (Stage.render renderFulfils currentScene previousScene st)
    = Stage.emit new st
    ∧ List.filter isRenderScene new
      = match previousScene with
        | Some previous =>
            Stage.RenderScene (Stage.sceneId previous) Stage.Previous moblur
            :: (if renderFulfils previous
                then [Stage.RenderScene (Stage.sceneId currentScene)
                        Stage.Current moblur]
                else [])
        | None =>
            [Stage.RenderScene (Stage.sceneId currentScene) Stage.Current moblur]
        end.
Proof.
  intros moblur. subst moblur.
  unfold Stage.render, Stage.renderScene.
  destruct previousScene as [previous|]; simpl;
    try destruct (renderFulfils previous); simpl;
    destruct (renderFulfils currentScene); simpl;
    try destruct (Stage.previousOnTop currentScene);
    try (destruct (Stage.background st) as [bg|]; simpl;
         try destruct (String.eqb bg EmptyString)); simpl;
    rewrite ?emit_emit; eexists; (split; [reflexivity|]); done.
Qed.

(** X16.  When the rendering of the previous scene or of the current
    scene is rejected, [render] is rejected and makes no call on the
    final context: the final buffer is neither cleared nor drawn on. *)
Theorem render_rejection (renderFulfils : Stage.SceneRef -> bool)
    (currentScene : Stage.SceneRef) (previousScene : option Stage.SceneRef)
    (st : Stage.Stage) :
  (∃ previous, previousScene = Some previous ∧ renderFulfils previous = false)
  ∨ renderFulfils currentScene = false →
  ∃ new,
    Stage.render renderFulfils currentScene previousScene st
    = Stage.Rejected (Stage.emit new st)
    ∧ Stage.finalOps new = [].
Proof.
  unfold Stage.render, Stage.renderScene.
  intros [(previous & -> & Hprevious) | Hcurrent].
  - rewrite Hprevious. simpl. rewrite emit_emit. by eexists.
  - destruct previousScene as [previous|]; simpl;
      try destruct (renderFulfils previous); simpl;
      rewrite ?Hcurrent; simpl; rewrite ?emit_emit; by eexists.
Qed.

Lemma render_rejection_witness :
  ∃ new,
    Stage.render (rendersExcept 2) (Stage.mkSceneRef 1 false)
      (Some (Stage.mkSceneRef 2 false)) blurStage
    = Stage.Rejected (Stage.emit new blurStage)
    ∧ Stage.finalOps new = [].
Proof.
  apply (render_rejection (rendersExcept 2) (Stage.mkSceneRef 1 false)
           (Some (Stage.mkSceneRef 2 false)) blurStage).
  left. exists (Stage.mkSceneRef 2 false). split; reflexivity.
Defined.

(** The fields of the stage after [configure]. *)
Lemma configure_fields (options : Stage.StageSettings) (support : bool)
    (st : Stage.Stage) :
  let colorSpace' := default (Stage.colorSpace st) (Stage.opt_colorSpace options) in
  let size' := default (Stage.size st) (Stage.opt_size options) in
  let resolutionScale' :=
    default (Stage.resolutionScale st) (Stage.opt_resolutionScale options) in
  let motionBlur :=
    default (Stage.motionBlurSamples st) (Stage.opt_motionBlur options) in
  let changed := (negb (Stage.exactlyEquals size' (Stage.size st))
                  || negb (resolutionScale' =? Stage.resolutionScale st)%float)%bool in
  let clear := ((motionBlur <=? 1)%float || negb support)%bool in
  let st' := Stage.configure options support st in
  Stage.colorSpace st' = colorSpace'
  ∧ Stage.size st' = (if changed then size' else Stage.size st)
  ∧ Stage.resolutionScale st'
    = (if changed then resolutionScale' else Stage.resolutionScale st)
  ∧ Stage.moblurRenderer st'
    = (if clear then None
       else Some (Stage.mkMoblurRenderer
                    (from_option Stage.instance (Stage.allocated st)
                       (Stage.moblurRenderer st))
                    (Stage.size st') motionBlur))
  ∧ Stage.allocated st'
    = (if clear then Stage.allocated st
       else match Stage.moblurRenderer st with
            | Some _ => Stage.allocated st
            | None => S (Stage.allocated st)
            end).
Proof.
  intros colorSpace' size' resolutionScale' motionBlur changed clear st'.
  subst st'. unfold Stage.configure.
  fold colorSpace' size' resolutionScale' motionBlur.
  unfold Stage.updateMoblur, Stage.selectMoblur, Stage.applySize,
    Stage.applyColorSpace.
  fold changed.
  destruct (String.eqb_spec colorSpace' (Stage.colorSpace st)) as [Hcs|Hcs];
    simpl; fold changed; destruct changed; simpl; fold clear;
    destruct clear; simpl;
    destruct (Stage.moblurRenderer st) eqn:Hr; simpl; rewrite ?Hr; simpl;
    repeat split; done.
Qed.

(** The contexts fetched and the canvases resized by [configure]. *)
Lemma configure_surfaces (options : Stage.StageSettings) (support : bool)
    (st : Stage.Stage) :
  let colorSpace' := default (Stage.colorSpace st) (Stage.opt_colorSpace options) in
  let size' := default (Stage.size st) (Stage.opt_size options) in
  let resolutionScale' :=
    default (Stage.resolutionScale st) (Stage.opt_resolutionScale options) in
  let motionBlur :=
    default (Stage.motionBlurSamples st) (Stage.opt_motionBlur options) in
  let changed := (negb (Stage.exactlyEquals size' (Stage.size st))
                  || negb (resolutionScale' =? Stage.resolutionScale st)%float)%bool in
  let clear := ((motionBlur <=? 1)%float || negb support)%bool in
  let w := (Stage.x size' * resolutionScale')%float in
  let h := (Stage.y size' * resolutionScale')%float in
  ∃ new,
    Stage.effects (Stage.configure options support st) = Stage.effects st ++ new
    ∧ List.filter touchesSurface new
      = (if negb (String.eqb colorSpace' (Stage.colorSpace st))
         then [Stage.GetContext colorSpace' Stage.Final;
               Stage.GetContext colorSpace' Stage.Current;
               Stage.GetContext colorSpace' Stage.Previous]
         else [])
        ++ (if changed
            then [Stage.ResizeCanvas Stage.Final w h;
                  Stage.ResizeCanvas Stage.Current w h;
                  Stage.ResizeCanvas Stage.Previous w h]
            else [])
    ∧ Stage.constructsMoblur new
      = (if clear then false
         else if Stage.moblurRenderer st is Some _ then false else true).
Proof.
  intros colorSpace' size' resolutionScale' motionBlur changed clear w h.
  unfold Stage.configure.
  fold colorSpace' size' resolutionScale' motionBlur.
  unfold Stage.updateMoblur, Stage.selectMoblur, Stage.applySize,
    Stage.applyColorSpace.
  fold changed.
  destruct (negb (String.eqb colorSpace' (Stage.colorSpace st)));
    simpl; fold changed; destruct changed; simpl; fold clear;
    destruct clear; simpl;
    destruct (Stage.moblurRenderer st) eqn:Hr; simpl; rewrite ?Hr; simpl;
    rewrite <- ?app_assoc; eexists; (split; [reflexivity|]); done.
Qed.

Lemma resizesOf_app (target : Stage.Surface) (l1 l2 : list Stage.Effect) :
  resizesOf target (l1 ++ l2) = resizesOf target l1 ++ resizesOf target l2.
Proof. unfold resizesOf. apply omap_app. Qed.

Lemma resizesOf_filter (target : Stage.Surface) (l : list Stage.Effect) :
  resizesOf target (List.filter touchesSurface l) = resizesOf target l.
Proof.
  induction l as [|e l IH]; [done|].
  destruct e; simpl; rewrite ?IH; try done.
  all: unfold resizesOf in *; simpl; by rewrite IH.
Qed.

Lemma stageReachable_motionBlurSamples (renderFulfils : Stage.SceneRef -> bool)
    (st : Stage.Stage) :
  stageReachable renderFulfils st → Stage.motionBlurSamples st = 1%float.
Proof.
  induction 1 as [|options support st _ IH|currentScene previousScene st _ IH].
  - done.
  - by rewrite configure_motionBlurSamples.
  - destruct (render_emits renderFulfils currentScene previousScene st)
      as (new & -> & _). done.
Qed.

(** X17.  On a stage made by the constructor and changed only by
    [configure] and [render], a [configure] whose options leave
    [motionBlur] out leaves the stage without an accumulator, whatever
    sample count an earlier call had set: the sample count in effect is
    then [motionBlurSamples], which no method assigns and so is still 1. *)
Theorem configure_without_motionBlur (renderFulfils : Stage.SceneRef -> bool)
    (options : Stage.StageSettings) (support : bool) (st : Stage.Stage) :
  stageReachable renderFulfils st →
  Stage.opt_motionBlur options = None →
  Stage.moblurRenderer (Stage.configure options support st) = None.
Proof.
  intros Hst Hopt.
  destruct (configure_fields options support st) as (_ & _ & _ & -> & _).
  rewrite Hopt. simpl.
  by rewrite (stageReachable_motionBlurSamples _ _ Hst).
Qed.

Lemma configure_without_motionBlur_witness :
  stageReachable allRender blurStage
  ∧ Stage.samples <$> Stage.moblurRenderer blurStage = Some 4%float
  ∧ Stage.moblurRenderer
      (Stage.configure
         (Stage.mkStageSettings None None None None (Some (Stage.BgString "white")))
         true blurStage)
    = None.
Proof.
  assert (Hst : stageReachable allRender blurStage)
    by (apply stageReachable_configure, stageReachable_new).
  split; [exact Hst|]. split; [reflexivity|].
  apply (configure_without_motionBlur allRender
           (Stage.mkStageSettings None None None None (Some (Stage.BgString "white")))
           true blurStage Hst).
  reflexivity.
Defined.

(** X18.  On a stage made by the constructor and changed only by
    [configure] and [render], the accumulator, when the stage has one, was
    last given the stage's size and a sample count that is not 1 or
    less, and it is one of the accumulators constructed by the stage. *)
Theorem accumulator_follows_stage (renderFulfils : Stage.SceneRef -> bool)
    (st : Stage.Stage) (r : Stage.MoblurRenderer) :
  stageReachable renderFulfils st →
  Stage.moblurRenderer st = Some r →
  Stage.moblurSize r = Stage.size st
  ∧ (Stage.samples r <=? 1)%float = false
  ∧ Stage.instance r < Stage.allocated st.
Proof.
  intros Hst. revert r.
  induction Hst as [|options support st _ IH|currentScene previousScene st _ IH];
    intros r Hr.
  - done.
  - destruct (configure_fields options support st) as (_ & _ & _ & Hm & Ha).
    rewrite Hm in Hr. rewrite Ha.
    destruct (_ || _)%bool eqn:Hclear in Hr |- *; [done|].
    injection Hr as <-. simpl.
    apply orb_false_iff in Hclear as [Hle _].
    split; [done|]. split; [done|].
    destruct (Stage.moblurRenderer st) as [r0|] eqn:Hr0; simpl.
    + by apply IH.
    + lia.
  - destruct (render_emits renderFulfils currentScene previousScene st)
      as (new & Hnew & _).
    rewrite Hnew in Hr |- *. by apply IH.
Qed.

Lemma accumulator_follows_stage_witness :
  stageReachable allRender blurStage
  ∧ Stage.moblurRenderer blurStage
    = Some (Stage.mkMoblurRenderer 0 (Stage.mkVector2 1920 1080) 4)
  ∧ Stage.mkVector2 1920 1080 = Stage.size blurStage
  ∧ (4 <=? 1)%float = false
  ∧ 0 < Stage.allocated blurStage.
Proof.
  assert (Hst : stageReachable allRender blurStage)
    by (apply stageReachable_configure, stageReachable_new).
  assert (Hr : Stage.moblurRenderer blurStage
               = Some (Stage.mkMoblurRenderer 0 (Stage.mkVector2 1920 1080) 4))
    by reflexivity.
  split; [exact Hst|]. split; [exact Hr|].
  exact (accumulator_follows_stage allRender blurStage _ Hst Hr).
Defined.

(** X19.  On a stage made by the constructor and changed only by
    [configure] and [render], once the canvas of a buffer has been resized,
    the width and height it was last given are those of the stage's canvas
    size (its size scaled by its resolution scale); and as long as it has
    not been resized, the stage still has the size (0, 0) and the
    resolution scale 1 it was constructed with. *)
Theorem canvases_follow_size (renderFulfils : Stage.SceneRef -> bool)
    (st : Stage.Stage) (target : Stage.Surface) :
  stageReachable renderFulfils st →
  lastResize target (Stage.effects st)
  = Some (Stage.width (Stage.canvasSize st), Stage.height (Stage.canvasSize st))
  ∨ (resizesOf target (Stage.effects st) = []
     ∧ Stage.size st = Stage.zero
     ∧ Stage.resolutionScale st = 1%float).
Proof.
  induction 1 as [|options support st _ IH|currentScene previousScene st _ IH].
  - by right.
  - destruct (configure_fields options support st) as (_ & Hsize & Hscale & _).
    destruct (configure_surfaces options support st) as (new & Hnew & Hsurf & _).
    apply (f_equal (resizesOf target)) in Hsurf.
    rewrite resizesOf_filter, resizesOf_app in Hsurf.
    unfold lastResize, Stage.canvasSize.
    rewrite Hnew, resizesOf_app, Hsurf, Hsize, Hscale.
    destruct (negb (String.eqb _ _)); simpl;
      (destruct (_ || _)%bool; simpl;
       [left; destruct target; simpl; by rewrite last_snoc
       |rewrite app_nil_r; exact IH]).
  - destruct (render_emits renderFulfils currentScene previousScene st)
      as (new & Hnew & Hsurf & _).
    apply (f_equal (resizesOf target)) in Hsurf.
    rewrite resizesOf_filter in Hsurf.
    rewrite Hnew. unfold lastResize, Stage.emit. simpl.
    rewrite resizesOf_app, Hsurf. simpl. rewrite app_nil_r. exact IH.
Qed.

Lemma canvases_follow_size_witness :
  stageReachable allRender blurStage
  ∧ (lastResize Stage.Current (Stage.effects blurStage) = Some (1920, 1080)%float
     ∨ (resizesOf Stage.Current (Stage.effects blurStage) = []
        ∧ Stage.size blurStage = Stage.zero
        ∧ Stage.resolutionScale blurStage = 1%float)).
Proof.
  assert (Hst : stageReachable allRender blurStage)
    by (apply stageReachable_configure, stageReachable_new).
  split; [exact Hst|].
  exact (canvases_follow_size allRender blurStage Stage.Current Hst).
Defined.

Lemma configure_background (options : Stage.StageSettings) (support : bool)
    (st : Stage.Stage) :
  Stage.background (Stage.configure options support st)
  = match Stage.opt_background options with
    | Some (Stage.BgColor serialized) => Some serialized
    | Some (Stage.BgString s) => Some s
    | Some Stage.BgNull => None
    | None => Stage.background st
    end.
Proof.
  unfold Stage.configure, Stage.updateMoblur.
  by destruct (Stage.moblurRenderer _).
Qed.

Lemma stage_emit_eq (a b : Stage.Stage) (new : list Stage.Effect) :
  Stage.background b = Stage.background a →
  Stage.resolutionScale b = Stage.resolutionScale a →
  Stage.colorSpace b = Stage.colorSpace a →
  Stage.size b = Stage.size a →
  Stage.motionBlurSamples b = Stage.motionBlurSamples a →
  Stage.moblurRenderer b = Stage.moblurRenderer a →
  Stage.allocated b = Stage.allocated a →
  Stage.effects b = Stage.effects a ++ new →
  b = Stage.emit new a.
Proof. destruct a, b. unfold Stage.emit. simpl. by intros; subst. Qed.

Ltac destruct_clear :=
  match goal with
  | |- context [if (?a || ?b)%bool then _ else _] => destruct (a || b)%bool
  end.

(** The size and the resolution scale of the stage after a second
    [configure] with the same options are those after the first. *)
Lemma configure_again_size (options : Stage.StageSettings)
    (support support' : bool) (st : Stage.Stage) :
  let st1 := Stage.configure options support st in
  let st2 := Stage.configure options support' st1 in
  let size' := default (Stage.size st) (Stage.opt_size options) in
  let resolutionScale' :=
    default (Stage.resolutionScale st) (Stage.opt_resolutionScale options) in
  Stage.size st2 = Stage.size st1
  ∧ Stage.resolutionScale st2 = Stage.resolutionScale st1
  ∧ (JS.self_equal (Stage.x size') = true →
     JS.self_equal (Stage.y size') = true →
     JS.self_equal resolutionScale' = true →
     (negb (Stage.exactlyEquals
              (default (Stage.size st1) (Stage.opt_size options)) (Stage.size st1))
      || negb (default (Stage.resolutionScale st1)
                 (Stage.opt_resolutionScale options)
               =? Stage.resolutionScale st1)%float)%bool = false).
Proof.
  intros st1 st2 size' resolutionScale'.
  destruct (configure_fields options support st) as (_ & Hsize & Hscale & _).
  destruct (configure_fields options support' st1) as (_ & Hsize2 & Hscale2 & _).
  fold st1 in Hsize, Hscale. fold st2 in Hsize2, Hscale2.
  subst size' resolutionScale'.
  set (size' := default (Stage.size st) (Stage.opt_size options)) in *.
  set (resolutionScale' :=
         default (Stage.resolutionScale st) (Stage.opt_resolutionScale options)) in *.
  rewrite Hsize2, Hscale2. clear Hsize2 Hscale2.
  assert (Hsize' : default (Stage.size st1) (Stage.opt_size options) = size').
  { subst size'. destruct (Stage.opt_size options); [done|]. simpl.
    rewrite Hsize. by destruct (_ || _)%bool. }
  assert (Hscale' : default (Stage.resolutionScale st1)
                      (Stage.opt_resolutionScale options) = resolutionScale').
  { subst resolutionScale'. destruct (Stage.opt_resolutionScale options); [done|].
    simpl. rewrite Hscale. by destruct (_ || _)%bool. }
  rewrite Hsize', Hscale'.
  destruct (negb (Stage.exactlyEquals size' (Stage.size st)) || _)%bool eqn:Hchanged.
  - rewrite Hsize, Hscale.
    split; [by match goal with |- (if ?b then _ else _) = _ => destruct b end|].
    split; [by match goal with |- (if ?b then _ else _) = _ => destruct b end|].
    unfold Stage.exactlyEquals, JS.self_equal. by intros -> -> ->.
  - rewrite Hsize, Hscale, Hchanged. done.
Qed.

(** X20.  A second [configure] with the same options, for a size and a
    resolution scale that are numbers, changes no field of the stage,
    fetches no context, resizes no canvas and constructs no accumulator. *)
Theorem configure_again (options : Stage.StageSettings) (support : bool)
    (st : Stage.Stage) :
  let size' := default (Stage.size st) (Stage.opt_size options) in
  let resolutionScale' :=
    default (Stage.resolutionScale st) (Stage.opt_resolutionScale options) in
  let st1 := Stage.configure options support st in
  JS.self_equal (Stage.x size') = true →
  JS.self_equal (Stage.y size') = true →
  JS.self_equal resolutionScale' = true →
  ∃ new,
    Stage.configure options support st1 = Stage.emit new st1
    ∧ List.filter touchesSurface new = []
    ∧ Stage.constructsMoblur new = false.
Proof.
  intros size' resolutionScale' st1 Hx Hy Hscale.
  destruct (configure_again_size options support support st)
    as (Hsize2 & Hscale2 & Hsame).
  fold st1 in Hsize2, Hscale2, Hsame.
  specialize (Hsame Hx Hy Hscale).
  destruct (configure_fields options support st) as (Hcs & _ & _ & Hm & Ha).
  destruct (configure_fields options support st1) as (Hcs2 & _ & _ & Hm2 & Ha2).
  destruct (configure_surfaces options support st1) as (new & Hnew & Hsurf & Hcons).
  fold st1 in Hcs, Hm, Ha.
  assert (Hcs' : default (Stage.colorSpace st1) (Stage.opt_colorSpace options)
                 = Stage.colorSpace st1).
  { rewrite Hcs. by destruct (Stage.opt_colorSpace options). }
  rewrite Hcs', String.eqb_refl, Hsame in Hsurf. simpl in Hsurf.
  assert (Hmbs : Stage.motionBlurSamples st1 = Stage.motionBlurSamples st)
    by apply configure_motionBlurSamples.
  rewrite Hmbs in Hm2, Ha2.
  exists new. split; [|split; [exact Hsurf|]].
  - apply stage_emit_eq; try done.
    + subst st1. rewrite !configure_background.
      by destruct (Stage.opt_background options) as [[]|].
    + by rewrite Hcs2.
    + by rewrite configure_motionBlurSamples.
    + rewrite Hm2, Hm, Hsize2. by destruct_clear.
    + rewrite Ha2, Hm. by destruct_clear.
  - rewrite Hcons, Hmbs, Hm. by destruct_clear.
Qed.

Lemma configure_again_witness :
  JS.self_equal 1920 = true
  ∧ ∃ new,
      Stage.configure
        (Stage.mkStageSettings None (Some (Stage.mkVector2 1920 1080)) None
           (Some 4%float) (Some (Stage.BgString "black")))
        true blurStage
      = Stage.emit new blurStage
      ∧ List.filter touchesSurface new = []
      ∧ Stage.constructsMoblur new = false.
Proof.
  split; [reflexivity|].
  apply (configure_again
           (Stage.mkStageSettings None (Some (Stage.mkVector2 1920 1080)) None
              (Some 4%float) (Some (Stage.BgString "black")))
           true Stage.Stage_new); reflexivity.
Defined.
